(** * SAP BTP questionnaire: question flow, decision-matrix scoring, roadmap

    A shallow embedding of the three computations of the platform:

    - the conditional-question filter of [src/pages/Questionnaire.tsx]
      ([visibleQuestions]);
    - the weighted decision-matrix scoring that the results page
      ([clientSideProcessing]) and the [process-submission] edge function
      ([serve]) both run, and the unweighted scoring of the earlier results
      page ([fallbackProcessing]);
    - the roadmap grouping and the relevance badge of the results page
      ([roadmap], [RelevanceBadge]) and of the notification e-mail
      ([buildEmailHtml], [relevanceBadgeHtml]);

    and of what surrounds them: the loading, saving and navigation of
    [src/pages/Questionnaire.tsx] ([fetchQuestionnaire], [saveResponse],
    [handleAnswerChange], [handleNext], [handlePrevious], the effect that
    clamps [currentIndex]), [toggleOption] of the checkbox question, the
    [percentage] of the progress bar, and the request handling of the edge
    function ([serve]).

    The sources hold several revisions of the results page and of the edge
    function; the weighted revisions are the ones modelled in full, the
    unweighted ones for their scoring only.

    Database tables are lists of rows and a [select ... eq ...] is a filter
    over the table (a failed select is outside the model, except where the
    code tests for it; what the delete and the insert of [saveResponse]
    reply is a parameter of the model).  JavaScript
    objects used as maps are records of own properties in creation order,
    enumerated as [Object.entries] does.  Scores and weights are integers
    ([INT] columns and their sums); the two places where the code divides
    are evaluated in binary64 arithmetic. *)

From Stdlib Require Import ZArith List String Ascii Bool Lia.
From Stdlib Require Import Permutation Sorted Floats.
Import ListNotations.

Local Open Scope string_scope.
Local Open Scope list_scope.
Local Open Scope Z_scope.

(* ================================================================== *)
(** * The JavaScript values and built-ins the code relies on *)
(* ================================================================== *)

Module JS.

(** ** Truthiness of [string | null] *)

(** [!s] is true for [null] and for the empty string. *)
Definition truthy (s : option string) : bool :=
  match s with
  | Some t => negb (t =? "")%string
  | None => false
  end.

(** [s || d] on [string | null]. *)
Definition or_else (s : option string) (d : string) : string :=
  match s with
  | Some t => if (t =? "")%string then d else t
  | None => d
  end.

(** ** Property keys *)

Definition digit_of (c : ascii) : option N :=
  let n := N_of_ascii c in
  if ((48 <=? n) && (n <=? 57))%N then Some (n - 48)%N else None.

Fixpoint digits_value (s : string) (acc : N) : option N :=
  match s with
  | EmptyString => Some acc
  | String c rest =>
      match digit_of c with
      | Some d => digits_value rest (10 * acc + d)%N
      | None => None
      end
  end.

(** An array index is a canonical numeric string below [2^32 - 1]: the
    keys an object enumerates first, in ascending numeric order. *)
Definition array_index (k : string) : option N :=
  match k with
  | EmptyString => None
  | String c rest =>
      if (Ascii.eqb c "0" && negb (rest =? "")%string)%bool then None
      else
        match digits_value k 0 with
        | Some n => if (n <? 4294967295)%N then Some n else None
        | None => None
        end
  end.

Definition is_index (k : string) : bool :=
  match array_index k with Some _ => true | None => false end.

(** The members every object literal inherits from [Object.prototype]:
    reading one of these keys from [{}] yields a truthy non-array value. *)
Definition Object_prototype_keys : list string :=
  [ "constructor"; "hasOwnProperty"; "isPrototypeOf"; "propertyIsEnumerable";
    "toLocaleString"; "toString"; "valueOf"; "__proto__";
    "__defineGetter__"; "__defineSetter__"; "__lookupGetter__";
    "__lookupSetter__" ].

Definition inherited (k : string) : bool :=
  existsb (String.eqb k) Object_prototype_keys.

(** ** [Array.prototype.sort] with a comparison function

    The sort is stable.  Inserting the elements one by one from the right,
    each in front of the first element it does not have to follow
    ([compareFn x y <= 0]), yields the order a stable sort produces. *)

Section Sort.
Context {A : Type}.
Variable compareFn : A -> A -> Z.

Fixpoint sort_insert (x : A) (l : list A) : list A :=
  match l with
  | [] => [x]
  | y :: rest =>
      if compareFn x y <=? 0 then x :: y :: rest
      else y :: sort_insert x rest
  end.

Fixpoint Array_sort (l : list A) : list A :=
  match l with
  | [] => []
  | x :: rest => sort_insert x (Array_sort rest)
  end.

(** The order the comparison function asks for: [x] may stay in front of
    [y]. *)
Definition precedes (x y : A) : Prop := compareFn x y <= 0.

End Sort.

(** ** Objects used as maps: [Record<string, V>] *)

Section Record.
Context {V : Type}.

(** Own properties, in the order in which they were created.  The score
    maps and the answers map are keyed by [uuid] columns, which are neither
    array indices nor names of inherited members; the grouping objects are
    keyed by free text, and their loop ([Roadmap.groupInto]) looks at
    inherited members too. *)
Definition Record := list (string * V).

Definition empty : Record := [].

(** [o[k]] for an own property; [None] is [undefined]. *)
Fixpoint get (o : Record) (k : string) : option V :=
  match o with
  | [] => None
  | (k', v) :: rest => if (k' =? k)%string then Some v else get rest k
  end.

(** [o[k] = v]: an existing property keeps its place, a new one is created
    last. *)
Fixpoint set (o : Record) (k : string) (v : V) : Record :=
  match o with
  | [] => [(k, v)]
  | (k', v') :: rest =>
      if (k' =? k)%string then (k', v) :: rest else (k', v') :: set rest k v
  end.

Definition index_of_entry (e : string * V) : Z :=
  match array_index (fst e) with Some n => Z.of_N n | None => 0 end.

(** [Object.entries(o)]: array-index keys in ascending numeric order, then
    the other keys in creation order. *)
Definition Object_entries (o : Record) : list (string * V) :=
  Array_sort (fun a b => index_of_entry a - index_of_entry b)
             (filter (fun e => is_index (fst e)) o)
  ++ filter (fun e => negb (is_index (fst e))) o.

(** [Object.fromEntries(es)]. *)
Definition Object_fromEntries (es : list (string * V)) : Record :=
  fold_left (fun o e => set o (fst e) (snd e)) es empty.

End Record.

Arguments Record : clear implicits.

(** The keys a loop creates when it assigns to the keys [l] in turn,
    starting from an object that owns [seen]: the distinct elements of [l]
    outside [seen], each at its first occurrence. *)
Fixpoint firstOccurrences (seen l : list string) : list string :=
  match l with
  | [] => []
  | x :: rest =>
      if existsb (String.eqb x) seen then firstOccurrences seen rest
      else x :: firstOccurrences (seen ++ [x]) rest
  end.

(** ** Numbers *)

(** [Math.max(x, ...xs)] on integers. *)
Definition Math_max (x : Z) (xs : list Z) : Z := fold_left Z.max xs x.

(** [Math.max(...xs)] for a spread array.  No call site spreads an empty
    array (a group holds at least one use case, and [maxScore] appends 1),
    so the value [-Infinity] of the empty spread is never produced. *)
Definition Math_max_spread (xs : list Z) : Z :=
  match xs with
  | [] => 0
  | x :: rest => Math_max x rest
  end.

(** The binary64 number an integer denotes (for integers below 2^63 in
    absolute value, rounded to nearest from 2^53 on). *)
Definition num (z : Z) : float :=
  match z with
  | Z0 => PrimFloat.zero
  | Zpos _ => PrimFloat.of_uint63 (Uint63.of_Z z)
  | Zneg p => PrimFloat.opp (PrimFloat.of_uint63 (Uint63.of_Z (Zpos p)))
  end.

(** [Math.round x]: the integer nearest to [x], a tie going up; [None]
    stands for [NaN] and the infinities.  A finite binary64 number is
    [m * 2^e], so the rounding is exact integer arithmetic. *)
Definition Math_round (x : float) : option Z :=
  match Prim2SF x with
  | S754_zero _ => Some 0
  | S754_finite s m e =>
      let v := if s then Zneg m else Zpos m in
      Some (match e with
            | Zneg k => (2 * v + 2 ^ Zpos k) / 2 ^ (Zpos k + 1)
            | _ => v * 2 ^ e
            end)
  | S754_infinity _ | S754_nan => None
  end.

End JS.

(* ================================================================== *)
(** * Binary64 rounding: what a shift record of [SpecFloat] denotes *)
(* ================================================================== *)

Module Rounding.

(** The record locates the rational [N / M]: its integer part is [shr_m],
    and the round and sticky bits tell where [N / M] lies between
    [shr_m] and [shr_m + 1]: on [shr_m], below the middle, on the
    middle, or above it. *)
Definition located (mrs : shr_record) (N M : Z) : Prop :=
  0 < M /\ shr_m mrs * M <= N < (shr_m mrs + 1) * M
  /\ match shr_r mrs, shr_s mrs with
     | false, false => N = shr_m mrs * M
     | false, true => shr_m mrs * M < N /\ 2 * N < (2 * shr_m mrs + 1) * M
     | true, false => 2 * N = (2 * shr_m mrs + 1) * M
     | true, true => (2 * shr_m mrs + 1) * M < 2 * N
     end.

End Rounding.

(* ================================================================== *)
(** * Question flow: [src/pages/Questionnaire.tsx] *)
(* ================================================================== *)

Module Questionnaire.

Inductive QuestionType := MultipleChoice | YesNo | Checkbox.

Record Question := {
  id : string;
  question_text : string;
  question_type : QuestionType;
  options : option (list string);
  order : Z;
  condition_question_id : option string;
  condition_answer : option string
}.

Record FlatQuestion := {
  question : Question;
  sectionTitle : string
}.

(** A stored answer, [string | string[]]. *)
Inductive AnswerValue :=
| Scalar (s : string)
| Multi (l : list string).

(** [Array.prototype.includes] on strings. *)
Definition includes (l : list string) (v : string) : bool :=
  existsb (fun x => (x =? v)%string) l.

(** The callback of the [filter] in [visibleQuestions]. *)
Definition isVisible (answers : JS.Record AnswerValue) (fq : FlatQuestion) : bool :=
  let q := question fq in
  if negb (JS.truthy (condition_question_id q)) || negb (JS.truthy (condition_answer q))
  then true
  else
    match condition_question_id q, condition_answer q with
    | Some controller, Some required =>
        match JS.get answers controller with
        | None => false
        | Some (Multi l) => includes l required
        | Some (Scalar s) => (s =? required)%string
        end
    | _, _ => true
    end.

Definition visibleQuestions (flatQuestions : list FlatQuestion)
    (answers : JS.Record AnswerValue) : list FlatQuestion :=
  filter (isVisible answers) flatQuestions.

(** The visibility condition a question carries: the pair is a condition
    only when both columns hold a non-empty value, which is what the guard
    of [isVisible] tests. *)
Definition condition (q : Question) : option (string * string) :=
  match condition_question_id q, condition_answer q with
  | Some controller, Some required =>
      if (controller =? "")%string || (required =? "")%string then None
      else Some (controller, required)
  | _, _ => None
  end.

(** An answer meets a required value: equal to it, or containing it. *)
Definition meets (a : AnswerValue) (required : string) : Prop :=
  match a with
  | Scalar s => s = required
  | Multi l => In required l
  end.

(** The catalog and the two answer maps of the branching scenario. *)
Definition Q1 : FlatQuestion :=
  {| question := {| id := "Q1"; question_text := "Do you run SAP today?";
                    question_type := YesNo; options := None; order := 1;
                    condition_question_id := None; condition_answer := None |};
     sectionTitle := "Landscape" |}.

Definition Q2 : FlatQuestion :=
  {| question := {| id := "Q2"; question_text := "Which systems?";
                    question_type := MultipleChoice; options := Some ["X"; "Y"];
                    order := 2;
                    condition_question_id := Some "Q1";
                    condition_answer := Some "Yes" |};
     sectionTitle := "Landscape" |}.

(** A question that names Q1 as its controller and requires nothing. *)
Definition Q2_without_value : FlatQuestion :=
  {| question := {| id := "Q2"; question_text := "Which systems?";
                    question_type := MultipleChoice; options := Some ["X"; "Y"];
                    order := 2;
                    condition_question_id := Some "Q1";
                    condition_answer := Some "" |};
     sectionTitle := "Landscape" |}.

End Questionnaire.

(* ================================================================== *)
(** * The use-case catalog: table [use_cases] *)
(* ================================================================== *)

Module Catalog.

(** A row of [use_cases] together with the [score] the scoring adds. *)
Record UseCase := {
  id : string;
  title : string;
  category : string;
  sub_category : string;
  engagement_category : option string;
  whats_included : option string;
  key_deliverables : option string;
  why_it_matters : option string;
  how_its_delivered : option string;
  use_case_number : option Z;
  score : Z
}.

(** [{ ...uc, score: s }]. *)
Definition withScore (uc : UseCase) (s : Z) : UseCase :=
  {| id := id uc; title := title uc; category := category uc;
     sub_category := sub_category uc;
     engagement_category := engagement_category uc;
     whats_included := whats_included uc;
     key_deliverables := key_deliverables uc;
     why_it_matters := why_it_matters uc;
     how_its_delivered := how_its_delivered uc;
     use_case_number := use_case_number uc;
     score := s |}.

(** A catalog row with the descriptive columns left empty. *)
Definition row (i cat sub : string) (phase : option string) : UseCase :=
  {| id := i; title := i; category := cat; sub_category := sub;
     engagement_category := phase;
     whats_included := None; key_deliverables := None;
     why_it_matters := None; how_its_delivered := None;
     use_case_number := None; score := 0 |}.

End Catalog.

(* ================================================================== *)
(** * Scoring: [clientSideProcessing], [serve], [fallbackProcessing] *)
(* ================================================================== *)

Module Scoring.
Import Catalog.

(** A row of [responses] as selected by the scoring. *)
Record Response := {
  question_id : string;
  answer : Questionnaire.AnswerValue
}.

(** A row of [decision_matrix]; [rule_question_id] is its [question_id]
    column. *)
Record MatrixRow := {
  rule_question_id : string;
  triggering_answer : string;
  use_case_id : string;
  weight : Z
}.

(** [Array.isArray(answerValue) ? answerValue : [answerValue]]. *)
Definition answersToCheck (answerValue : Questionnaire.AnswerValue) : list string :=
  match answerValue with
  | Questionnaire.Multi l => l
  | Questionnaire.Scalar s => [s]
  end.

(** [from('decision_matrix').eq('question_id', q).eq('triggering_answer', a)]. *)
Definition matches (decision_matrix : list MatrixRow) (q a : string) : list MatrixRow :=
  filter (fun m => (rule_question_id m =? q)%string && (triggering_answer m =? a)%string)
         decision_matrix.

(** [x || 0] on [number | undefined]. *)
Definition or_zero (x : option Z) : Z :=
  match x with
  | Some s => if s =? 0 then 0 else s
  | None => 0
  end.

Section Accumulate.
Variable weightOf : MatrixRow -> Z.

(** [useCaseScores[id] = (useCaseScores[id] || 0) + weight]. *)
Definition credit (scores : JS.Record Z) (m : MatrixRow) : JS.Record Z :=
  JS.set scores (use_case_id m) (or_zero (JS.get scores (use_case_id m)) + weightOf m).

(** The three nested loops over responses, answer values and matches. *)
Definition scoreLoop (responses : list Response) (decision_matrix : list MatrixRow)
    : JS.Record Z :=
  fold_left
    (fun scores response =>
       fold_left
         (fun scores a =>
            fold_left credit (matches decision_matrix (question_id response) a) scores)
         (answersToCheck (answer response)) scores)
    responses JS.empty.

End Accumulate.

(** [match.weight || 1]. *)
Definition weightOrOne (m : MatrixRow) : Z :=
  if weight m =? 0 then 1 else weight m.

Definition useCaseScores := scoreLoop weightOrOne.

Definition MIN_SCORE : Z := 3.

(** The comparison function [([, a], [, b]) => b - a]. *)
Definition byScoreDesc (x y : string * Z) : Z := snd y - snd x.

Definition sortedEntries (responses : list Response) (decision_matrix : list MatrixRow)
    : list (string * Z) :=
  JS.Array_sort byScoreDesc
    (filter (fun e => MIN_SCORE <=? snd e)
            (JS.Object_entries (useCaseScores responses decision_matrix))).

Definition sortedIds responses decision_matrix : list string :=
  map fst (sortedEntries responses decision_matrix).

Definition scoreMap responses decision_matrix : JS.Record Z :=
  JS.Object_fromEntries (sortedEntries responses decision_matrix).

(** The join with [use_cases]: [.in('id', sortedIds)], then one [find] per
    sorted id; an id without a row is dropped. *)
Definition recommendedUseCases (use_cases : list UseCase)
    (responses : list Response) (decision_matrix : list MatrixRow) : list UseCase :=
  let ids := sortedIds responses decision_matrix in
  let matchedUseCases :=
    filter (fun u => existsb (fun i => (id u =? i)%string) ids) use_cases in
  flat_map
    (fun i =>
       match find (fun u => (id u =? i)%string) matchedUseCases with
       | Some uc => [withScore uc (or_zero (JS.get (scoreMap responses decision_matrix) i))]
       | None => []
       end)
    ids.

(** The earlier revisions of the results page and of the edge function:
    every match counts 1 and there is no threshold.  One revision shows
    every entry ([legacyAllEntries]), the other ([fallbackProcessing]) the
    first five ([legacySortedEntries]). *)
Definition legacyScores := scoreLoop (fun _ => 1).

Definition legacyAllEntries responses decision_matrix : list (string * Z) :=
  JS.Array_sort byScoreDesc (JS.Object_entries (legacyScores responses decision_matrix)).

Definition legacySortedEntries responses decision_matrix : list (string * Z) :=
  firstn 5 (legacyAllEntries responses decision_matrix).

(** ** The quantities the properties are stated with *)

(** The recorded (question, value) pairs, multi-select answers expanded. *)
Definition pairs (responses : list Response) : list (string * string) :=
  flat_map (fun r => map (pair (question_id r)) (answersToCheck (answer r))) responses.

(** Every matching rule, in the order in which the loops meet it. *)
Definition hits (responses : list Response) (decision_matrix : list MatrixRow)
    : list MatrixRow :=
  flat_map (fun qa => matches decision_matrix (fst qa) (snd qa)) (pairs responses).

Definition sumZ (l : list Z) : Z := fold_right Z.add 0 l.

(** The rules among [l] that credit offering [i]. *)
Definition creditsTo (i : string) (l : list MatrixRow) : list MatrixRow :=
  filter (fun m => (use_case_id m =? i)%string) l.

(** The credit one recorded pair gives offering [i]. *)
Definition creditOfPair (weightOf : MatrixRow -> Z) (decision_matrix : list MatrixRow)
    (i : string) (qa : string * string) : Z :=
  sumZ (map weightOf (creditsTo i (matches decision_matrix (fst qa) (snd qa)))).

(** The score an id holds in a score map, [0] when it holds none. *)
Definition scoreIn (scores : JS.Record Z) (i : string) : Z :=
  match JS.get scores i with Some s => s | None => 0 end.

(** The offerings in the order in which the accumulation first meets them. *)
Definition firstEncountered responses decision_matrix : list string :=
  JS.firstOccurrences [] (map use_case_id (hits responses decision_matrix)).

(** ** The weighted scenario *)

Definition scenario_matrix : list MatrixRow :=
  [ {| rule_question_id := "Q1"; triggering_answer := "Yes"; use_case_id := "O1"; weight := 5 |};
    {| rule_question_id := "Q2"; triggering_answer := "X"; use_case_id := "O1"; weight := 2 |};
    {| rule_question_id := "Q2"; triggering_answer := "Y"; use_case_id := "O2"; weight := 3 |} ].

Definition scenario_responses : list Response :=
  [ {| question_id := "Q1"; answer := Questionnaire.Scalar "Yes" |};
    {| question_id := "Q2"; answer := Questionnaire.Multi ["X"; "Y"] |} ].

(** The same answers recorded in another order. *)
Definition scenario_responses_reordered : list Response :=
  [ {| question_id := "Q2"; answer := Questionnaire.Multi ["Y"; "X"] |};
    {| question_id := "Q1"; answer := Questionnaire.Scalar "Yes" |} ].

(** One more rule for the answer Q2 = "X". *)
Definition scenario_added_rule : MatrixRow :=
  {| rule_question_id := "Q2"; triggering_answer := "X"; use_case_id := "O2"; weight := 4 |}.

(** Eight yes/no answers and a matrix that gives offering S40 the weight 5
    for each of them, and offering S23 the weight 5 for four of them and
    the weight 3 for a fifth. *)
Definition tie_questions : list string :=
  ["T1"; "T2"; "T3"; "T4"; "T5"; "T6"; "T7"; "T8"].

Definition tie_responses : list Response :=
  map (fun q => {| question_id := q; answer := Questionnaire.Scalar "Yes" |}) tie_questions.

Definition tie_matrix : list MatrixRow :=
  map (fun q => {| rule_question_id := q; triggering_answer := "Yes";
                   use_case_id := "S40"; weight := 5 |}) tie_questions
  ++ map (fun q => {| rule_question_id := q; triggering_answer := "Yes";
                      use_case_id := "S23"; weight := 5 |}) ["T1"; "T2"; "T3"; "T4"]
  ++ [ {| rule_question_id := "T5"; triggering_answer := "Yes";
          use_case_id := "S23"; weight := 3 |} ].

Definition tie_catalog : list UseCase :=
  [ row "S40" "Data" "Analytics" (Some "A");
    row "S23" "Data" "Analytics" (Some "A") ].

(** One answer, and a matrix that credits the use case U1, whose phase was
    never filled in, with 5. *)
Definition unphased_responses : list Response :=
  [ {| question_id := "Q1"; answer := Questionnaire.Scalar "Yes" |} ].

Definition unphased_matrix : list MatrixRow :=
  [ {| rule_question_id := "Q1"; triggering_answer := "Yes"; use_case_id := "U1"; weight := 5 |} ].

Definition unphased_catalog : list UseCase :=
  [ row "U1" "Integration" "APIs" None ].

(** One answer, and a matrix that credits N7, of sub-category "7", with 5
    and N3, of sub-category "3", with 4. *)
Definition numbered_responses : list Response :=
  [ {| question_id := "Q1"; answer := Questionnaire.Scalar "Yes" |} ].

Definition numbered_matrix : list MatrixRow :=
  [ {| rule_question_id := "Q1"; triggering_answer := "Yes"; use_case_id := "N7"; weight := 5 |};
    {| rule_question_id := "Q1"; triggering_answer := "Yes"; use_case_id := "N3"; weight := 4 |} ].

Definition numbered_catalog : list UseCase :=
  [ row "N7" "Operations" "7" (Some "A");
    row "N3" "Operations" "3" (Some "A") ].

Definition scenario_catalog : list UseCase :=
  [ row "O1" "Integration" "APIs" (Some "A");
    row "O2" "Data" "Analytics" (Some "B") ].

End Scoring.

(* ================================================================== *)
(** * Roadmap: results page and notification e-mail *)
(* ================================================================== *)

Module Roadmap.
Import Catalog.

(** ** Shared pieces *)

(** [uc.sub_category || 'Other']. *)
Definition subKey (uc : UseCase) : string :=
  JS.or_else (Some (sub_category uc)) "Other".

(** The grouping loop both renderers use:
    [if (!groups[k]) groups[k] = []; groups[k].push(uc)].
    For a key that names a member of [Object.prototype] the test finds a
    truthy value, nothing is assigned, and [push] raises a [TypeError]:
    the loop then yields [None]. *)
Fixpoint groupInto (keyOf : UseCase -> string) (ucs : list UseCase)
    (groups : JS.Record (list UseCase)) : option (JS.Record (list UseCase)) :=
  match ucs with
  | [] => Some groups
  | uc :: rest =>
      match JS.get groups (keyOf uc) with
      | Some members => groupInto keyOf rest (JS.set groups (keyOf uc) (members ++ [uc]))
      | None =>
          if JS.inherited (keyOf uc) then None
          else groupInto keyOf rest (JS.set groups (keyOf uc) [uc])
      end
  end.

(** The use cases that the loop files under key [k]. *)
Definition membersOf (keyOf : UseCase -> string) (k : string) (ucs : list UseCase)
    : list UseCase :=
  filter (fun uc => (keyOf uc =? k)%string) ucs.

(** The highest score filed under key [k]. *)
Definition groupMax (keyOf : UseCase -> string) (k : string) (ucs : list UseCase) : Z :=
  JS.Math_max_spread (map score (membersOf keyOf k ucs)).

(** [(score / maxScore) * 100] in binary64, then [Math.round]. *)
Definition percent (score maxScore : Z) : option Z :=
  JS.Math_round (PrimFloat.mul (PrimFloat.div (JS.num score) (JS.num maxScore)) (JS.num 100)).

(** ** The results page *)

(** A phase of the roadmap; its description and colours are presentation
    only and left out. *)
Record Phase := {
  key : string;
  label : string
}.

Definition phases : list Phase :=
  [ {| key := "A"; label := "Phase 1: Quick Wins" |};
    {| key := "B"; label := "Phase 2: Discovery & Build" |};
    {| key := "C"; label := "Phase 3: Strategic Initiatives" |} ].

Definition RelevanceBadge (score maxScore : Z) : option Z := percent score maxScore.

(** The [maxScore] memo of the page. *)
Definition maxScore (allUseCases : list UseCase) : Z :=
  match allUseCases with
  | [] => 1
  | _ => JS.Math_max_spread (map score allUseCases ++ [1])
  end.

Record PhaseGroup := {
  phase : Phase;
  groups : list (string * list UseCase);
  total : nat
}.

(** The comparison function of "sort groups by highest score in group". *)
Definition byGroupMaxDesc (a b : string * list UseCase) : Z :=
  JS.Math_max_spread (map score (snd b)) - JS.Math_max_spread (map score (snd a)).

(** [uc.engagement_category === phase.key]. *)
Definition inPhase (phaseKey : string) (uc : UseCase) : bool :=
  match engagement_category uc with
  | Some c => (c =? phaseKey)%string
  | None => false
  end.

(** The body of [phases.map(...)] for one phase. *)
Definition roadmapPhase (allUseCases : list UseCase) (p : Phase) : option PhaseGroup :=
  let phaseUseCases := filter (inPhase (key p)) allUseCases in
  match groupInto subKey phaseUseCases JS.empty with
  | Some groups =>
      Some {| phase := p;
              groups := JS.Array_sort byGroupMaxDesc (JS.Object_entries groups);
              total := List.length phaseUseCases |}
  | None => None
  end.

(** [Array.prototype.map] with a callback that may raise. *)
Fixpoint mapM {A B : Type} (f : A -> option B) (l : list A) : option (list B) :=
  match l with
  | [] => Some []
  | x :: rest =>
      match f x with
      | Some y => match mapM f rest with Some ys => Some (y :: ys) | None => None end
      | None => None
      end
  end.

(** The [roadmap] memo of the page. *)
Definition roadmap (allUseCases : list UseCase) : option (list PhaseGroup) :=
  match mapM (roadmapPhase allUseCases) phases with
  | Some ps => Some (filter (fun p => (0 <? total p)%nat) ps)
  | None => None
  end.

(** What the page shows: per phase and sub-category, each use case with
    the percentage of its badge. *)
Definition pageRoadmap (allUseCases : list UseCase)
    : option (list (string * list (string * list (UseCase * option Z)))) :=
  match roadmap allUseCases with
  | Some ps =>
      Some (map (fun p =>
                   (key (phase p),
                    map (fun g =>
                           (fst g,
                            map (fun uc => (uc, RelevanceBadge (score uc) (maxScore allUseCases)))
                                (snd g)))
                        (groups p)))
                ps)
  | None => None
  end.

(** ** The notification e-mail *)

Definition relevanceBadgeHtml (score maxScore : Z) : option Z :=
  percent score (JS.Math_max maxScore [1]).

Definition phaseOrder : list string := ["A"; "B"; "C"].

(** [uc.engagement_category || "B"]. *)
Definition phaseKeyOf (uc : UseCase) : string :=
  JS.or_else (engagement_category uc) "B".

(** A use-case block of the e-mail: the first three of a sub-category are
    rendered in detail, the others compactly; both carry the badge. *)
Record EmailLine := {
  line_uc : UseCase;
  line_pct : option Z;
  line_detailed : bool
}.

Definition emailMaxScore (useCases : list UseCase) : Z :=
  if (0 <? List.length useCases)%nat then JS.Math_max_spread (map score useCases ++ [1]) else 1.

Definition emailLines (maxScore : Z) (subUCs : list UseCase) : list EmailLine :=
  map (fun uc => {| line_uc := uc; line_pct := relevanceBadgeHtml (score uc) maxScore;
                    line_detailed := true |}) (firstn 3 subUCs)
  ++ map (fun uc => {| line_uc := uc; line_pct := relevanceBadgeHtml (score uc) maxScore;
                       line_detailed := false |}) (skipn 3 subUCs).

(** The body of [for (const phaseKey of phaseOrder)]: nothing is emitted
    for a phase without use cases. *)
Definition emailPhase (maxScore : Z) (grouped : JS.Record (list UseCase))
    (phaseKey : string) : option (list (string * list (string * list EmailLine))) :=
  match JS.get grouped phaseKey with
  | None => Some []
  | Some [] => Some []
  | Some phaseUCs =>
      match groupInto subKey phaseUCs JS.empty with
      | Some subGroups =>
          Some [(phaseKey,
                 map (fun g => (fst g, emailLines maxScore (snd g)))
                     (JS.Object_entries subGroups))]
      | None => None
      end
  end.

(** The roadmap part of [buildEmailHtml]: the phase blocks in the order
    in which their markup is appended to [roadmapHtml]. *)
Definition buildEmailHtml (useCases : list UseCase)
    : option (list (string * list (string * list EmailLine))) :=
  let maxScore := emailMaxScore useCases in
  match groupInto phaseKeyOf useCases JS.empty with
  | Some grouped =>
      match mapM (emailPhase maxScore grouped) phaseOrder with
      | Some blocks => Some (List.concat blocks)
      | None => None
      end
  | None => None
  end.

(** ** The relevance percentage in the words of the specification *)

(** [round(n / d)] in exact arithmetic, a tie going up as in [Math.round]. *)
Definition roundHalfUp (n d : Z) : Z := (2 * n + d) / (2 * d).

(** "round(100 * score / D)". *)
Definition spec_relevance (score D : Z) : Z := roundHalfUp (100 * score) D.

(** [100 * score / D] lies exactly halfway between two integers. *)
Definition halfway (score D : Z) : bool := (2 * (100 * score) + D) mod (2 * D) =? 0.

(** ** Scenarios *)

Definition scored (i sub : string) (phase : option string) (s : Z) : UseCase :=
  withScore (row i "SAP BTP" sub phase) s.

Definition O3 := scored "O3" "Data" (Some "A") 10.
Definition O4 := scored "O4" "Security" (Some "A") 2.
Definition O5 := scored "O5" "Data" (Some "A") 1.

(** The scoring output for a use case whose [engagement_category] was
    never filled in. *)
Definition unphased : list UseCase :=
  Scoring.recommendedUseCases Scoring.unphased_catalog
    Scoring.unphased_responses Scoring.unphased_matrix.

(** The scoring output for two sub-categories named by numbers. *)
Definition numbered : list UseCase :=
  Scoring.recommendedUseCases Scoring.numbered_catalog
    Scoring.numbered_responses Scoring.numbered_matrix.

End Roadmap.

(* ================================================================== *)
(** * The table [responses]: [saveResponse] and the reload of answers *)
(* ================================================================== *)

Module Store.

Record ResponseRow := {
  submission_id : string;
  question_id : string;
  answer : Questionnaire.AnswerValue
}.

Definition sameKey (submissionId questionId : string) (r : ResponseRow) : bool :=
  (submission_id r =? submissionId)%string && (question_id r =? questionId)%string.

(** What a call of the database did. *)
Inductive Reply := Applied | Refused.

(** [delete().eq('submission_id', ..).eq('question_id', ..)]. *)
Definition deleteResponse (responses : list ResponseRow) (submissionId questionId : string)
    (reply : Reply) : list ResponseRow :=
  match reply with
  | Applied => filter (fun r => negb (sameKey submissionId questionId r)) responses
  | Refused => responses
  end.

(** The table that [saveResponse] leaves, and whether it returned
    ([true]) or threw ([false]). *)
Record SaveResult := {
  table : list ResponseRow;
  returned : bool
}.

(** [saveResponse]: the [delete], whose reply is not read, and then the
    [insert], whose error makes it throw ['Failed to save response'].  An
    inserted row is the last of the table. *)
Definition saveResponse (responses : list ResponseRow) (submissionId questionId : string)
    (a : Questionnaire.AnswerValue) (delete insert : Reply) : SaveResult :=
  let afterDelete := deleteResponse responses submissionId questionId delete in
  match insert with
  | Applied =>
      {| table := afterDelete
                  ++ [ {| submission_id := submissionId; question_id := questionId;
                          answer := a |} ];
         returned := true |}
  | Refused => {| table := afterDelete; returned := false |}
  end.

(** [select('question_id, answer').eq('submission_id', submissionId)]. *)
Definition selectResponses (responses : list ResponseRow) (submissionId : string)
    : list Scoring.Response :=
  map (fun r => {| Scoring.question_id := question_id r; Scoring.answer := answer r |})
      (filter (fun r => (submission_id r =? submissionId)%string) responses).


(** The answer of the last row for a question. *)
Fixpoint lastAnswer (rows : list Scoring.Response) (questionId : string)
    : option Questionnaire.AnswerValue :=
  match rows with
  | [] => None
  | r :: rest =>
      match lastAnswer rest questionId with
      | Some a => Some a
      | None =>
          if (Scoring.question_id r =? questionId)%string then Some (Scoring.answer r)
          else None
      end
  end.

(** ** A save whose delete is refused *)

(** One stored answer, and the table after the same answer is saved again
    while the delete is refused. *)
Definition stored_once : list ResponseRow :=
  [ {| submission_id := "S1"; question_id := "Q1";
       answer := Questionnaire.Scalar "Yes" |} ].

Definition stored_twice : list ResponseRow :=
  table (saveResponse stored_once "S1" "Q1" (Questionnaire.Scalar "Yes") Refused Applied).

End Store.

(* ================================================================== *)
(** * Navigation: the rest of [src/pages/Questionnaire.tsx] and the
      question components *)
(* ================================================================== *)

Module Flow.
Import Questionnaire.

(** A row of [sections] with its questions. *)
Record SectionRow := {
  title : string;
  description : option string;
  section_order : Z;
  questions : list Question
}.

(** The flat list of [fetchQuestionnaire]: sections sorted by [order], the
    questions of each sorted by [order]. *)
Definition flatten (sections : list SectionRow) : list FlatQuestion :=
  flat_map
    (fun section =>
       map (fun q => {| question := q; sectionTitle := title section |})
           (JS.Array_sort (fun a b => order a - order b) (questions section)))
    (JS.Array_sort (fun a b => section_order a - section_order b) sections).

(** The state of the component that the handlers read and write. *)
Record State := {
  flatQuestions : list FlatQuestion;
  currentIndex : Z;
  answers : JS.Record AnswerValue
}.

Definition withIndex (st : State) (i : Z) : State :=
  {| flatQuestions := flatQuestions st; currentIndex := i; answers := answers st |}.

Definition withAnswers (st : State) (a : JS.Record AnswerValue) : State :=
  {| flatQuestions := flatQuestions st; currentIndex := currentIndex st; answers := a |}.

Definition visible (st : State) : list FlatQuestion :=
  visibleQuestions (flatQuestions st) (answers st).

(** [l[i]] for an integer [i]; [None] is [undefined]. *)
Definition at_index {A : Type} (l : list A) (i : Z) : option A :=
  if i <? 0 then None else nth_error l (Z.to_nat i).

Definition currentQ (st : State) : option FlatQuestion :=
  at_index (visible st) (currentIndex st).

(** [currentQ ? answers[currentQ.question.id] ?? null : null]. *)
Definition currentAnswer (st : State) : option AnswerValue :=
  match currentQ st with
  | Some fq => JS.get (answers st) (id (question fq))
  | None => None
  end.

Definition isAnswered (st : State) : bool :=
  match currentAnswer st with
  | None => false
  | Some (Multi l) => (0 <? List.length l)%nat
  | Some (Scalar s) => negb (s =? "")%string
  end.

Definition isLastQuestion (st : State) : bool :=
  currentIndex st =? Z.of_nat (List.length (visible st)) - 1.

(** [setAnswers(prev => ({ ...prev, [currentQ.question.id]: value }))]. *)
Definition handleAnswerChange (st : State) (value : AnswerValue) : State :=
  match currentQ st with
  | Some fq => withAnswers st (JS.set (answers st) (id (question fq)) value)
  | None => st
  end.

(** What [handleNext] does: nothing, a step to the next question, the
    navigation to the results page, or, when [saveResponse] throws, the
    error message with the index left where it is.  Each but the first
    carries the table as the save left it. *)
Inductive Outcome :=
| Ignored
| Advanced (responses : list Store.ResponseRow) (st : State)
| Completed (responses : list Store.ResponseRow)
| Failed (responses : list Store.ResponseRow).

Definition handleNext (submissionId : string) (responses : list Store.ResponseRow)
    (st : State) (delete insert : Store.Reply) : Outcome :=
  match currentQ st, currentAnswer st with
  | Some fq, Some a =>
      let saved :=
        Store.saveResponse responses submissionId (id (question fq)) a delete insert in
      if Store.returned saved
      then
        if currentIndex st <? Z.of_nat (List.length (visible st)) - 1
        then Advanced (Store.table saved) (withIndex st (currentIndex st + 1))
        else Completed (Store.table saved)
      else Failed (Store.table saved)
  | _, _ => Ignored
  end.

(** The Next button, [disabled={!isAnswered || saving}], with no save in
    flight. *)
Definition clickNext (submissionId : string) (responses : list Store.ResponseRow)
    (st : State) (delete insert : Store.Reply) : Outcome :=
  if isAnswered st then handleNext submissionId responses st delete insert else Ignored.

Definition handlePrevious (st : State) : State :=
  if 0 <? currentIndex st then withIndex st (currentIndex st - 1) else st.

(** The effect "when answers change, ensure currentIndex is still valid". *)
Definition clampEffect (st : State) : State :=
  let n := Z.of_nat (List.length (visible st)) in
  if (n <=? currentIndex st) && (0 <? n) then withIndex st (n - 1) else st.

(** [toggleOption] of [CheckboxQuestion]. *)
Definition toggleOption (value : list string) (option : string) : list string :=
  if includes value option then filter (fun v => negb (v =? option)%string) value
  else value ++ [option].

(** The [percentage] of [ProgressBar]. *)
Definition percentage (current total : Z) : option Z :=
  JS.Math_round (PrimFloat.mul (PrimFloat.div (JS.num current) (JS.num total)) (JS.num 100)).

(** What the progress bar of a state shows. *)
Definition progress (st : State) : option Z :=
  percentage (currentIndex st + 1) (Z.of_nat (List.length (visible st))).

(** ** The notions the properties are stated with *)

Definition inRange (st : State) : Prop :=
  0 <= currentIndex st < Z.of_nat (List.length (visible st)).

Definition questionId (fq : FlatQuestion) : string := id (question fq).

(** The id of the question that controls [fq], if [fq] has a condition. *)
Definition controller (fq : FlatQuestion) : option string :=
  match condition (question fq) with
  | Some (c, _) => Some c
  | None => None
  end.

(** Every condition names a question that occurs strictly earlier. *)
Fixpoint refersBack (earlier : list string) (l : list FlatQuestion) : Prop :=
  match l with
  | [] => True
  | fq :: rest =>
      match controller fq with
      | Some c => In c earlier
      | None => True
      end
      /\ refersBack (earlier ++ [questionId fq]) rest
  end.

(** ** A catalog of three questions *)

Definition Q3 : FlatQuestion :=
  {| question := {| id := "Q3"; question_text := "Which areas matter?";
                    question_type := Checkbox; options := Some ["HR"; "Finance"];
                    order := 3;
                    condition_question_id := None; condition_answer := None |};
     sectionTitle := "Priorities" |}.

Definition session : State :=
  {| flatQuestions := [Q1; Q2; Q3]; currentIndex := 0;
     answers := [("Q1", Scalar "Yes")] |}.

Definition landscape : SectionRow :=
  {| title := "Landscape"; description := None; section_order := 1;
     questions := [question Q2; question Q1] |}.

Definition priorities : SectionRow :=
  {| title := "Priorities"; description := None; section_order := 2;
     questions := [question Q3] |}.

End Flow.

(* ================================================================== *)
(** * The edge function: request handling of [serve] *)
(* ================================================================== *)

Module Edge.
Import Catalog.

(** A row of [responses] joined with its question and section. *)
Record JoinedResponse := {
  question_id : string;
  answer : Questionnaire.AnswerValue;
  question_text : option string;
  section_title : option string
}.

Record CapturedResponse := {
  sectionTitle : string;
  questionText : string;
  captured_answer : Questionnaire.AnswerValue
}.

(** The callback of [responses.map] that builds [capturedResponses]. *)
Definition capture (r : JoinedResponse) : CapturedResponse :=
  {| sectionTitle := JS.or_else (section_title r) "Unknown Section";
     questionText := JS.or_else (question_text r) "Unknown Question";
     captured_answer := answer r |}.

Definition toScoring (r : JoinedResponse) : Scoring.Response :=
  {| Scoring.question_id := question_id r; Scoring.answer := answer r |}.

(** The loop that fills [responsesBySection]; as in [Roadmap.groupInto], a
    section title that names a member of [Object.prototype] makes [push]
    raise. *)
Fixpoint groupBySection (crs : list CapturedResponse)
    (bySection : JS.Record (list CapturedResponse))
    : option (JS.Record (list CapturedResponse)) :=
  match crs with
  | [] => Some bySection
  | cr :: rest =>
      match JS.get bySection (sectionTitle cr) with
      | Some members =>
          groupBySection rest (JS.set bySection (sectionTitle cr) (members ++ [cr]))
      | None =>
          if JS.inherited (sectionTitle cr) then None
          else groupBySection rest (JS.set bySection (sectionTitle cr) [cr])
      end
  end.

(** What [buildEmailHtml] renders: the roadmap blocks and the captured
    responses by section; [None] when building raises. *)
Record Email := {
  roadmapBlocks : list (string * list (string * list Roadmap.EmailLine));
  responseSections : list (string * list CapturedResponse);
  useCaseCount : nat
}.

Definition buildEmail (useCases : list UseCase) (capturedResponses : list CapturedResponse)
    : option Email :=
  match Roadmap.buildEmailHtml useCases with
  | Some blocks =>
      match groupBySection capturedResponses JS.empty with
      | Some bySection =>
          Some {| roadmapBlocks := blocks;
                  responseSections := JS.Object_entries bySection;
                  useCaseCount := List.length useCases |}
      | None => None
      end
  | None => None
  end.

(** The request: its method and what [await req.json()] yields, [None]
    when reading the body raises, [Some None] when it holds no
    [submission_id]. *)
Record Request := {
  method : string;
  json : option (option string)
}.

(** What the queries of one request return; [None] is a failed query. *)
Record Db := {
  submission : option string;
  responses : option (list JoinedResponse);
  decision_matrix : list Scoring.MatrixRow;
  use_cases : option (list UseCase)
}.

Record Env := {
  RESEND_API_KEY : option string;
  ADMIN_EMAIL_ADDRESS : option string
}.

(** What the call of the mail service does. *)
Inductive SendOutcome := Delivered | Refused | Raised.

Inductive Body :=
| Preflight
| Error (message : string)
| Success (recommended_use_cases : list UseCase)
          (captured_responses : list CapturedResponse).

Record Response := {
  status : Z;
  body : Body
}.

Definition recommend (db : Db) (rs : list JoinedResponse) : list UseCase :=
  match Scoring.sortedIds (map toScoring rs) (decision_matrix db) with
  | [] => []
  | _ =>
      match use_cases db with
      | Some table => Scoring.recommendedUseCases table (map toScoring rs) (decision_matrix db)
      | None => []
      end
  end.

(** [serve]: the response, and the e-mail handed to the mail service. *)
Definition serve (req : Request) (env : Env) (db : Db) (send : SendOutcome)
    : Response * option Email :=
  if (method req =? "OPTIONS")%string then ({| status := 200; body := Preflight |}, None)
  else
    match json req with
    | None => ({| status := 500; body := Error "Internal server error" |}, None)
    | Some submission_id =>
        if negb (JS.truthy submission_id)
        then ({| status := 400; body := Error "submission_id is required" |}, None)
        else
          match submission db with
          | None => ({| status := 404; body := Error "Submission not found" |}, None)
          | Some _ =>
              match responses db with
              | None => ({| status := 500; body := Error "Failed to fetch responses" |}, None)
              | Some rs =>
                  let capturedResponses := map capture rs in
                  let recommendedUseCases := recommend db rs in
                  let ok := {| status := 200;
                               body := Success recommendedUseCases capturedResponses |} in
                  if JS.truthy (RESEND_API_KEY env) && JS.truthy (ADMIN_EMAIL_ADDRESS env)
                  then
                    match buildEmail recommendedUseCases capturedResponses with
                    | Some email => (ok, Some email)
                    | None =>
                        ({| status := 500; body := Error "Internal server error" |}, None)
                    end
                  else (ok, None)
              end
          end
    end.

End Edge.

(* ================================================================== *)
(** * Further notions the properties are stated with *)
(* ================================================================== *)

Module Notions.
Import Catalog.

(** How often the answer that triggers rule [m] was recorded. *)
Definition timesRecorded (ps : list (string * string)) (m : Scoring.MatrixRow) : Z :=
  Z.of_nat
    (List.length
       (filter (fun qa => (Scoring.rule_question_id m =? fst qa)%string
                          && (Scoring.triggering_answer m =? snd qa)%string) ps)).

(** The use case has one of the three phases of the page. *)
Definition phased (uc : UseCase) : bool :=
  existsb (fun p => Roadmap.inPhase (Roadmap.key p) uc) Roadmap.phases.

(** The use case falls, with B as default, into one of the three phases of
    the e-mail. *)
Definition emailPhased (uc : UseCase) : bool :=
  existsb (String.eqb (Roadmap.phaseKeyOf uc)) Roadmap.phaseOrder.

(** No key that the grouping loops of the e-mail read names an inherited
    member. *)
Definition emailBuildable (useCases : list UseCase)
    (capturedResponses : list Edge.CapturedResponse) : bool :=
  forallb (fun uc => negb (JS.inherited (Roadmap.phaseKeyOf uc))
                     && (negb (emailPhased uc) || negb (JS.inherited (Roadmap.subKey uc))))
          useCases
  && forallb (fun cr => negb (JS.inherited (Edge.sectionTitle cr))) capturedResponses.

(** Questions tagged with the [order] of their section, in the order of
    [Flow.flatten]. *)
Definition flattenTagged (sections : list Flow.SectionRow)
    : list (Z * Questionnaire.Question) :=
  flat_map
    (fun section =>
       map (pair (Flow.section_order section))
           (JS.Array_sort (fun a b => Questionnaire.order a - Questionnaire.order b)
                          (Flow.questions section)))
    (JS.Array_sort (fun a b => Flow.section_order a - Flow.section_order b) sections).

(** Section order first, question order second. *)
Definition inFlowOrder (x y : Z * Questionnaire.Question) : Prop :=
  fst x < fst y \/ (fst x = fst y /\ Questionnaire.order (snd x) <= Questionnaire.order (snd y)).

End Notions.

(* ================================================================== *)
(** * Facts about the JavaScript built-ins *)
(* ================================================================== *)

Module JSFacts.
Import JS.

(** ** Sorting *)

Section SortFacts.
Context {A : Type}.
Variable compareFn : A -> A -> Z.

Lemma sort_insert_perm (x : A) (l : list A) :
  Permutation (sort_insert compareFn x l) (x :: l).
Proof.
  induction l as [|y l IH]; simpl.
  - apply Permutation_refl.
  - destruct (compareFn x y <=? 0).
    + apply Permutation_refl.
    + eapply perm_trans; [apply perm_skip, IH | apply perm_swap].
Qed.

Lemma Array_sort_perm (l : list A) : Permutation (Array_sort compareFn l) l.
Proof.
  induction l as [|x l IH]; simpl.
  - apply perm_nil.
  - eapply perm_trans; [apply sort_insert_perm | apply perm_skip, IH].
Qed.

Lemma In_Array_sort (x : A) (l : list A) :
  In x (Array_sort compareFn l) <-> In x l.
Proof.
  split; apply Permutation_in;
    [ apply Array_sort_perm | apply Permutation_sym, Array_sort_perm ].
Qed.

Hypothesis precedes_total :
  forall x y, precedes compareFn x y \/ precedes compareFn y x.
Hypothesis precedes_trans :
  forall x y z,
    precedes compareFn x y -> precedes compareFn y z -> precedes compareFn x z.

Lemma sort_insert_sorted (x : A) (l : list A) :
  StronglySorted (precedes compareFn) l ->
  StronglySorted (precedes compareFn) (sort_insert compareFn x l).
Proof.
  induction 1 as [|y l Hl IH Hy]; simpl.
  - constructor; constructor.
  - destruct (compareFn x y <=? 0) eqn:E.
    + apply Z.leb_le in E.
      constructor; [constructor; assumption|].
      constructor; [exact E|].
      eapply Forall_impl; [|exact Hy].
      intros z Hz. eapply precedes_trans; eassumption.
    + apply Z.leb_gt in E.
      constructor; [exact IH|].
      assert (Hyx : precedes compareFn y x).
      { destruct (precedes_total x y) as [H|H]; [unfold precedes in H; lia | exact H]. }
      eapply Permutation_Forall.
      * apply Permutation_sym, sort_insert_perm.
      * constructor; assumption.
Qed.

Lemma Array_sort_sorted (l : list A) : StronglySorted (precedes compareFn) (Array_sort compareFn l).
Proof.
  induction l as [|x l IH]; simpl.
  - constructor.
  - apply sort_insert_sorted, IH.
Qed.

End SortFacts.

(** Stability: a class of elements none of which has to follow another
    keeps its order. *)
Lemma sort_insert_filter {A : Type} (compareFn : A -> A -> Z) (p : A -> bool) :
  (forall x y, p x = true -> p y = true -> compareFn x y <= 0) ->
  forall x l, filter p (sort_insert compareFn x l) = filter p (x :: l).
Proof.
  intros Hp x l. induction l as [|y l IH]; [reflexivity|].
  simpl. destruct (compareFn x y <=? 0) eqn:E; [reflexivity|].
  apply Z.leb_gt in E. simpl. rewrite IH. simpl.
  destruct (p x) eqn:Px, (p y) eqn:Py; try reflexivity.
  specialize (Hp x y Px Py). lia.
Qed.

Lemma Array_sort_stable {A : Type} (compareFn : A -> A -> Z) (p : A -> bool) :
  (forall x y, p x = true -> p y = true -> compareFn x y <= 0) ->
  forall l, filter p (Array_sort compareFn l) = filter p l.
Proof.
  intros Hp l. induction l as [|x l IH]; [reflexivity|].
  simpl Array_sort. rewrite (sort_insert_filter _ _ Hp). simpl. now rewrite IH.
Qed.

(** A list already in order is left as it is. *)
Lemma Array_sort_sorted_id {A : Type} (compareFn : A -> A -> Z) (l : list A) :
  StronglySorted (precedes compareFn) l -> Array_sort compareFn l = l.
Proof.
  induction 1 as [|x l Hl IH Hx]; [reflexivity|].
  simpl. rewrite IH. destruct l as [|y l']; [reflexivity|].
  simpl. inversion Hx as [|? ? Hxy _]; subst.
  unfold precedes in Hxy. apply Z.leb_le in Hxy. now rewrite Hxy.
Qed.

(** ** Keys *)

Lemma existsb_eqb_In (x : string) (l : list string) :
  existsb (String.eqb x) l = true <-> In x l.
Proof.
  rewrite existsb_exists. split.
  - intros [y [Hy E]]. apply String.eqb_eq in E. now subst.
  - intros H. exists x. split; [exact H | apply String.eqb_refl].
Qed.

Lemma In_firstOccurrences (seen l : list string) (x : string) :
  In x (firstOccurrences seen l) -> In x l.
Proof.
  revert seen. induction l as [|y l IH]; intros seen; simpl; [tauto|].
  destruct (existsb (String.eqb y) seen).
  - intros H. right. exact (IH _ H).
  - intros [H|H]; [now left | right; exact (IH _ H)].
Qed.

(** ** Records *)

Section RecordFacts.
Context {V : Type}.
Implicit Types (o : Record V) (k : string) (v : V).

Lemma get_set_same o k v : get (set o k v) k = Some v.
Proof.
  induction o as [|[k' v'] o IH]; simpl.
  - now rewrite String.eqb_refl.
  - destruct (k' =? k)%string eqn:E; simpl; rewrite E; [reflexivity | exact IH].
Qed.

Lemma get_set_other o k k' v : k <> k' -> get (set o k v) k' = get o k'.
Proof.
  intros Hne. induction o as [|[k0 v0] o IH]; simpl.
  - apply String.eqb_neq in Hne. now rewrite Hne.
  - destruct (k0 =? k)%string eqn:E; simpl.
    + apply String.eqb_eq in E. subst k0.
      apply String.eqb_neq in Hne. now rewrite Hne.
    + destruct (k0 =? k')%string; [reflexivity | exact IH].
Qed.

Lemma get_None_not_In o k : get o k = None <-> ~ In k (map fst o).
Proof.
  induction o as [|[k' v'] o IH]; simpl.
  - tauto.
  - destruct (k' =? k)%string eqn:E.
    + apply String.eqb_eq in E. split; [discriminate | intros H; exfalso; apply H; now left].
    + apply String.eqb_neq in E. rewrite IH. tauto.
Qed.

Lemma get_Some_In o k v : get o k = Some v -> In (k, v) o.
Proof.
  induction o as [|[k' v'] o IH]; simpl; [discriminate|].
  destruct (k' =? k)%string eqn:E.
  - apply String.eqb_eq in E. intros [= <-]. subst. now left.
  - intros H. right. now apply IH.
Qed.

Lemma In_get_Some o k v : NoDup (map fst o) -> In (k, v) o -> get o k = Some v.
Proof.
  induction o as [|[k' v'] o IH]; simpl; [tauto|].
  intros Hnd [Heq|Hin].
  - injection Heq as -> ->. now rewrite String.eqb_refl.
  - inversion Hnd as [|? ? Hnotin Hnd']; subst.
    destruct (k' =? k)%string eqn:E.
    + apply String.eqb_eq in E. subst k'. exfalso. apply Hnotin.
      change k with (fst (k, v)). now apply in_map.
    + now apply IH.
Qed.

(** Assigning to an existing key leaves the keys as they are; a new key
    goes last. *)
Lemma keys_set o k v :
  map fst (set o k v) =
  match get o k with
  | Some _ => map fst o
  | None => map fst o ++ [k]
  end.
Proof.
  induction o as [|[k' v'] o IH]; simpl; [reflexivity|].
  destruct (k' =? k)%string eqn:E; simpl; [reflexivity|].
  rewrite IH. now destruct (get o k).
Qed.

Lemma NoDup_keys_set o k v : NoDup (map fst o) -> NoDup (map fst (set o k v)).
Proof.
  intros Hnd. rewrite keys_set. destruct (get o k) eqn:E; [exact Hnd|].
  apply get_None_not_In in E.
  apply NoDup_rev in Hnd. apply (NoDup_cons k) in Hnd; [|now rewrite <- in_rev].
  apply NoDup_rev in Hnd. simpl in Hnd. now rewrite rev_involutive in Hnd.
Qed.

Lemma filter_split_perm (p : string * V -> bool) (l : list (string * V)) :
  Permutation (filter p l ++ filter (fun e => negb (p e)) l) l.
Proof.
  induction l as [|x l IH]; simpl; [constructor|].
  destruct (p x); simpl.
  - now constructor.
  - eapply perm_trans; [apply Permutation_sym, Permutation_middle|]. now constructor.
Qed.

(** [Object.entries] lists every own property exactly once. *)
Lemma Object_entries_perm o : Permutation (Object_entries o) o.
Proof.
  unfold Object_entries.
  eapply perm_trans; [|apply (filter_split_perm (fun e => is_index (fst e)))].
  apply Permutation_app_tail, Array_sort_perm.
Qed.

Lemma In_Object_entries o e : In e (Object_entries o) <-> In e o.
Proof.
  split; apply Permutation_in;
    [ apply Object_entries_perm | apply Permutation_sym, Object_entries_perm ].
Qed.

(** Without array-index keys the enumeration is the creation order. *)
Lemma Object_entries_creation_order o :
  Forall (fun k => is_index k = false) (map fst o) -> Object_entries o = o.
Proof.
  intros H. unfold Object_entries.
  assert (Hidx : filter (fun e : string * V => is_index (fst e)) o = []).
  { induction o as [|e o IH]; [reflexivity|].
    inversion H as [|? ? He Ho]; subst. simpl. rewrite He. exact (IH Ho). }
  assert (Hstr : filter (fun e : string * V => negb (is_index (fst e))) o = o).
  { clear Hidx. induction o as [|e o IH]; [reflexivity|].
    inversion H as [|? ? He Ho]; subst. simpl. rewrite He. simpl.
    now rewrite (IH Ho). }
  now rewrite Hidx, Hstr.
Qed.

End RecordFacts.

End JSFacts.

(* ================================================================== *)
(** * Properties of the question flow *)
(* ================================================================== *)

Module QuestionnaireSpec.
Import JS Questionnaire.

Lemma includes_In (l : list string) (v : string) : includes l v = true <-> In v l.
Proof.
  unfold includes. rewrite existsb_exists. split.
  - intros [x [Hx E]]. apply String.eqb_eq in E. now subst.
  - intros H. exists v. split; [exact H | apply String.eqb_refl].
Qed.

(** The guard of the filter is the test "this question has no condition". *)
Lemma guard_condition (q : Question) :
  negb (truthy (condition_question_id q)) || negb (truthy (condition_answer q)) = true
  <-> condition q = None.
Proof.
  unfold condition, truthy.
  destruct (condition_question_id q) as [c|], (condition_answer q) as [r|]; simpl;
    try (destruct (c =? "")%string); try (destruct (r =? "")%string); simpl;
    split; intros H; try reflexivity; try discriminate.
Qed.

Lemma isVisible_unconditional answers fq :
  condition (question fq) = None -> isVisible answers fq = true.
Proof.
  intros H. apply guard_condition in H. unfold isVisible. now rewrite H.
Qed.

Lemma isVisible_conditional answers fq controller required :
  condition (question fq) = Some (controller, required) ->
  isVisible answers fq = true <->
  exists a, get answers controller = Some a /\ meets a required.
Proof.
  intros Hc. unfold isVisible.
  destruct (negb (truthy (condition_question_id (question fq)))
            || negb (truthy (condition_answer (question fq)))) eqn:G.
  - apply guard_condition in G. congruence.
  - unfold condition in Hc.
    destruct (condition_question_id (question fq)) as [c|]; [|discriminate].
    destruct (condition_answer (question fq)) as [r|]; [|discriminate].
    destruct ((c =? "")%string || (r =? "")%string); [discriminate|].
    injection Hc as -> ->.
    destruct (get answers controller) as [[s|l]|]; simpl.
    + rewrite String.eqb_eq. split.
      * intros ->. now exists (Scalar required).
      * intros [a [[= <-] Hm]]. exact Hm.
    + rewrite includes_In. split.
      * intros H. now exists (Multi l).
      * intros [a [[= <-] Hm]]. exact Hm.
    + split; [discriminate | intros [a [[=] _]]].
Qed.

Lemma condition_Some (q : Question) (controller required : string) :
  condition q = Some (controller, required) <->
  condition_question_id q = Some controller /\ condition_answer q = Some required
  /\ controller <> "" /\ required <> "".
Proof.
  unfold condition.
  destruct (condition_question_id q) as [c|], (condition_answer q) as [r|];
    try (split; [discriminate | intros [H1 [H2 _]]; discriminate]).
  destruct (String.eqb_spec c "") as [Ec|Ec], (String.eqb_spec r "") as [Er|Er]; simpl.
  - split; [discriminate | intros [E1 [E2 [H _]]]; congruence].
  - split; [discriminate | intros [E1 [E2 [H _]]]; congruence].
  - split; [discriminate | intros [E1 [E2 [_ H]]]; congruence].
  - split.
    + intros [= <- <-]. repeat split; assumption.
    + intros [E1 [E2 _]]. congruence.
Qed.

(** C2 -- [visibleQuestions] keeps a question of the catalog exactly when
    it has no visibility condition, or its condition (controller, required
    value) is met: the controlling question has an answer, and that answer
    equals the required value (scalar) or contains it (multi-select).  For
    Q1 without condition and Q2 conditioned on Q1 = "Yes", the answers
    {Q1: "No"} give [Q1] and the answers {Q1: "Yes"} give [Q1; Q2]. *)
Theorem visibleQuestions_spec :
  (forall q controller required,
      condition q = Some (controller, required) <->
      condition_question_id q = Some controller /\ condition_answer q = Some required
      /\ controller <> "" /\ required <> "")
  /\ (forall flatQuestions answers fq,
      In fq (visibleQuestions flatQuestions answers) <->
      In fq flatQuestions /\
      match condition (question fq) with
      | None => True
      | Some (controller, required) =>
          exists a, get answers controller = Some a /\ meets a required
      end)
  /\ visibleQuestions [Q1; Q2] [("Q1", Scalar "No")] = [Q1]
  /\ visibleQuestions [Q1; Q2] [("Q1", Scalar "Yes")] = [Q1; Q2].
Proof.
  split; [exact condition_Some|]. split; [|split; reflexivity].
  intros flatQuestions answers fq. unfold visibleQuestions.
  rewrite filter_In.
  destruct (condition (question fq)) as [[controller required]|] eqn:Hc.
  - now rewrite (isVisible_conditional answers fq controller required Hc).
  - rewrite (isVisible_unconditional answers fq Hc). tauto.
Qed.

(** C10 -- a question whose controlling-question id is set but whose
    required answer is null or the empty string is shown for every answers
    map, whatever the controlling question was answered. *)
Theorem visible_when_required_value_missing
    (flatQuestions : list FlatQuestion) (answers : Record AnswerValue)
    (fq : FlatQuestion) (controller : string) :
  In fq flatQuestions ->
  condition_question_id (question fq) = Some controller ->
  condition_answer (question fq) = None \/ condition_answer (question fq) = Some "" ->
  In fq (visibleQuestions flatQuestions answers).
Proof.
  intros Hin Hc Hr. unfold visibleQuestions. apply filter_In. split; [exact Hin|].
  apply isVisible_unconditional. unfold condition. rewrite Hc.
  destruct Hr as [-> | ->]; [reflexivity|].
  simpl. now rewrite orb_true_r.
Qed.

Lemma visible_when_required_value_missing_witness :
  In Q2_without_value (visibleQuestions [Q1; Q2_without_value] [("Q1", Scalar "No")]).
Proof.
  apply (visible_when_required_value_missing
           [Q1; Q2_without_value] [("Q1", Scalar "No")] Q2_without_value "Q1").
  - simpl. right. left. reflexivity.
  - reflexivity.
  - right. reflexivity.
Defined.

End QuestionnaireSpec.

(* ================================================================== *)
(** * Properties of the scoring *)
(* ================================================================== *)

Module ScoringFacts.
Import JS JSFacts Catalog Scoring.

Lemma or_zero_Some (s : Z) : or_zero (Some s) = s.
Proof. simpl. destruct (s =? 0) eqn:E; [apply Z.eqb_eq in E; now subst | reflexivity]. Qed.

Lemma fold_left_flat_map {A B C : Type} (f : A -> C -> A) (g : B -> list C)
    (l : list B) (a : A) :
  fold_left f (flat_map g l) a = fold_left (fun a x => fold_left f (g x) a) l a.
Proof.
  revert a. induction l as [|x l IH]; intros a; simpl; [reflexivity|].
  now rewrite fold_left_app, IH.
Qed.

Section AccumulateFacts.
Variable weightOf : MatrixRow -> Z.

(** The nested loops are one pass over the matching rules. *)
Lemma scoreLoop_hits responses decision_matrix :
  scoreLoop weightOf responses decision_matrix
  = fold_left (credit weightOf) (hits responses decision_matrix) empty.
Proof.
  unfold scoreLoop, hits, pairs.
  rewrite fold_left_flat_map. rewrite fold_left_flat_map.
  generalize (@empty Z). induction responses as [|r rs IH]; intros sc; simpl; [reflexivity|].
  rewrite IH. f_equal.
  generalize sc. clear. induction (answersToCheck (answer r)) as [|a l IH]; intros sc;
    simpl; [reflexivity|]. apply IH.
Qed.

Lemma get_fold_credit (l : list MatrixRow) (scores : Record Z) (i : string) :
  get (fold_left (credit weightOf) l scores) i =
  match creditsTo i l with
  | [] => get scores i
  | ms => Some (or_zero (get scores i) + sumZ (map weightOf ms))
  end.
Proof.
  revert scores. induction l as [|m l IH]; intros scores; [reflexivity|].
  simpl fold_left. rewrite IH. unfold creditsTo. simpl filter.
  destruct (use_case_id m =? i)%string eqn:E.
  - apply String.eqb_eq in E. subst i. unfold credit. rewrite get_set_same.
    rewrite or_zero_Some. fold (creditsTo (use_case_id m) l).
    destruct (creditsTo (use_case_id m) l) as [|m' ms]; simpl; f_equal; lia.
  - apply String.eqb_neq in E. unfold credit. rewrite (get_set_other _ _ _ _ E).
    reflexivity.
Qed.

(** The accumulated score of an offering is the sum of the weights of the
    rules that match a recorded answer; an offering without such a rule
    has no entry. *)
Lemma get_scoreLoop responses decision_matrix (i : string) :
  get (scoreLoop weightOf responses decision_matrix) i =
  match creditsTo i (hits responses decision_matrix) with
  | [] => None
  | ms => Some (sumZ (map weightOf ms))
  end.
Proof.
  rewrite scoreLoop_hits, get_fold_credit. simpl.
  now destruct (creditsTo i (hits responses decision_matrix)).
Qed.

Lemma scoreIn_scoreLoop responses decision_matrix (i : string) :
  scoreIn (scoreLoop weightOf responses decision_matrix) i
  = sumZ (map weightOf (creditsTo i (hits responses decision_matrix))).
Proof.
  unfold scoreIn. rewrite get_scoreLoop.
  now destruct (creditsTo i (hits responses decision_matrix)).
Qed.

(** Keys are created in the order in which offerings are first credited. *)
Lemma keys_fold_credit (l : list MatrixRow) (scores : Record Z) :
  map fst (fold_left (credit weightOf) l scores)
  = map fst scores ++ firstOccurrences (map fst scores) (map use_case_id l).
Proof.
  revert scores. induction l as [|m l IH]; intros scores; simpl.
  - now rewrite app_nil_r.
  - rewrite IH. unfold credit. rewrite keys_set.
    destruct (get scores (use_case_id m)) eqn:G.
    + assert (In (use_case_id m) (map fst scores)) as Hin.
      { destruct (in_dec string_dec (use_case_id m) (map fst scores)) as [H|H]; [exact H|].
        apply get_None_not_In in H. congruence. }
      apply existsb_eqb_In in Hin. now rewrite Hin.
    + assert (existsb (String.eqb (use_case_id m)) (map fst scores) = false) as Hout.
      { apply get_None_not_In in G. destruct (existsb _ _) eqn:E; [|reflexivity].
        apply existsb_eqb_In in E. contradiction. }
      rewrite Hout. now rewrite <- app_assoc.
Qed.

Lemma keys_scoreLoop responses decision_matrix :
  map fst (scoreLoop weightOf responses decision_matrix)
  = firstOccurrences [] (map use_case_id (hits responses decision_matrix)).
Proof. rewrite scoreLoop_hits. apply keys_fold_credit. Qed.

Lemma NoDup_keys_fold_credit (l : list MatrixRow) (scores : Record Z) :
  NoDup (map fst scores) -> NoDup (map fst (fold_left (credit weightOf) l scores)).
Proof.
  revert scores. induction l as [|m l IH]; intros scores H; simpl; [exact H|].
  apply IH. unfold credit. now apply NoDup_keys_set.
Qed.

Lemma NoDup_keys_scoreLoop responses decision_matrix :
  NoDup (map fst (scoreLoop weightOf responses decision_matrix)).
Proof. rewrite scoreLoop_hits. apply NoDup_keys_fold_credit. constructor. Qed.

End AccumulateFacts.

(** ** What the loops meet *)

Lemma In_hits responses decision_matrix (m : MatrixRow) :
  In m (hits responses decision_matrix) <->
  In m decision_matrix
  /\ In (rule_question_id m, triggering_answer m) (pairs responses).
Proof.
  unfold hits. rewrite in_flat_map. split.
  - intros [[q a] [Hqa Hm]]. unfold matches in Hm. simpl in Hm.
    apply filter_In in Hm. destruct Hm as [Hm E].
    apply andb_prop in E. destruct E as [E1 E2].
    apply String.eqb_eq in E1. apply String.eqb_eq in E2. subst. now split.
  - intros [Hm Hqa]. exists (rule_question_id m, triggering_answer m).
    split; [exact Hqa|]. unfold matches. simpl. apply filter_In. split; [exact Hm|].
    now rewrite !String.eqb_refl.
Qed.

Lemma creditsTo_nil (i : string) (l : list MatrixRow) :
  creditsTo i l = [] <-> forall m, In m l -> use_case_id m <> i.
Proof.
  unfold creditsTo. split.
  - intros H m Hm E. assert (In m (filter (fun m => (use_case_id m =? i)%string) l)) as Hin.
    { apply filter_In. split; [exact Hm | now apply String.eqb_eq]. }
    rewrite H in Hin. contradiction.
  - intros H. induction l as [|m l IH]; [reflexivity|]. simpl.
    destruct (use_case_id m =? i)%string eqn:E.
    + apply String.eqb_eq in E. exfalso. apply (H m); [now left | exact E].
    + apply IH. intros m' Hm'. apply H. now right.
Qed.

(** ** Threshold, sort and join *)

Lemma NoDup_keys_filter {V : Type} (p : string * V -> bool) (l : list (string * V)) :
  NoDup (map fst l) -> NoDup (map fst (filter p l)).
Proof.
  induction l as [|e l IH]; simpl; [trivial|].
  intros H. inversion H as [|? ? Hnotin Hnd]; subst.
  destruct (p e); simpl; [|now apply IH].
  constructor; [|now apply IH].
  intros Hin. apply Hnotin. apply in_map_iff in Hin. destruct Hin as [e' [E He']].
  apply filter_In in He'. apply in_map_iff. exists e'. tauto.
Qed.

Lemma In_sortedEntries responses decision_matrix (i : string) (s : Z) :
  In (i, s) (sortedEntries responses decision_matrix) <->
  get (useCaseScores responses decision_matrix) i = Some s /\ MIN_SCORE <= s.
Proof.
  unfold sortedEntries. rewrite In_Array_sort, filter_In, In_Object_entries. simpl.
  rewrite Z.leb_le. split; intros [H1 H2]; (split; [|exact H2]).
  - apply In_get_Some; [apply NoDup_keys_scoreLoop | exact H1].
  - now apply get_Some_In.
Qed.

Lemma NoDup_sortedIds responses decision_matrix :
  NoDup (sortedIds responses decision_matrix).
Proof.
  unfold sortedIds, sortedEntries.
  eapply Permutation_NoDup.
  - apply Permutation_map, Permutation_sym, Array_sort_perm.
  - apply NoDup_keys_filter.
    eapply Permutation_NoDup.
    + apply Permutation_map, Permutation_sym, Object_entries_perm.
    + apply NoDup_keys_scoreLoop.
Qed.

Lemma In_sortedIds responses decision_matrix (i : string) :
  In i (sortedIds responses decision_matrix) <->
  exists s, get (useCaseScores responses decision_matrix) i = Some s /\ MIN_SCORE <= s.
Proof.
  unfold sortedIds. rewrite in_map_iff. split.
  - intros [[i' s] [E H]]. simpl in E. subst i'. exists s. now apply In_sortedEntries.
  - intros [s H]. exists (i, s). split; [reflexivity | now apply In_sortedEntries].
Qed.

Lemma get_Object_fromEntries {V : Type} (es : list (string * V)) (k : string) :
  NoDup (map fst es) -> get (Object_fromEntries es) k = get es k.
Proof.
  unfold Object_fromEntries.
  assert (G : forall o, NoDup (map fst es) ->
              get (fold_left (fun o e => set o (fst e) (snd e)) es o) k
              = match get es k with Some v => Some v | None => get o k end).
  { induction es as [|[k' v'] es IH]; intros o Hnd; [reflexivity|].
    inversion Hnd as [|? ? Hnotin Hnd']; subst. simpl fold_left. rewrite (IH _ Hnd').
    simpl. destruct (k' =? k)%string eqn:E.
    - apply String.eqb_eq in E. subst k'.
      apply get_None_not_In in Hnotin. rewrite Hnotin. apply get_set_same.
    - apply String.eqb_neq in E. now rewrite (get_set_other _ _ _ _ E). }
  intros Hnd. rewrite (G empty Hnd). now destruct (get es k).
Qed.

Lemma get_scoreMap responses decision_matrix (i : string) :
  In i (sortedIds responses decision_matrix) ->
  get (scoreMap responses decision_matrix) i
  = get (useCaseScores responses decision_matrix) i.
Proof.
  intros Hin. apply In_sortedIds in Hin. destruct Hin as [s [Hs Hmin]].
  unfold scoreMap. rewrite get_Object_fromEntries by apply NoDup_sortedIds.
  rewrite Hs. apply In_get_Some; [apply NoDup_sortedIds|].
  apply In_sortedEntries. now split.
Qed.

Lemma id_withScore (uc : UseCase) (s : Z) : id (withScore uc s) = id uc.
Proof. reflexivity. Qed.

(** Every recommended use case is a catalog row under one of the sorted
    ids, carrying the score accumulated for that id. *)
Lemma In_recommendedUseCases use_cases responses decision_matrix (uc : UseCase) :
  In uc (recommendedUseCases use_cases responses decision_matrix) ->
  In (id uc) (sortedIds responses decision_matrix)
  /\ get (useCaseScores responses decision_matrix) (id uc) = Some (score uc).
Proof.
  unfold recommendedUseCases. rewrite in_flat_map. intros [i [Hi Huc]].
  destruct (find _ _) as [u|] eqn:F; [|contradiction].
  destruct Huc as [<-|[]]. apply find_some in F. destruct F as [_ E].
  apply String.eqb_eq in E. rewrite id_withScore, E. split; [exact Hi|].
  simpl score. rewrite (get_scoreMap _ _ _ Hi).
  apply In_sortedIds in Hi. destruct Hi as [s [Hs _]]. rewrite Hs. f_equal.
  symmetry. apply or_zero_Some.
Qed.

Lemma In_firstn {A : Type} (n : nat) (l : list A) (x : A) :
  In x (firstn n l) -> In x l.
Proof.
  intros H. rewrite <- (firstn_skipn n l). apply in_or_app. now left.
Qed.

(** The legacy entries hold at least 1: every entry was credited once. *)
Lemma sumZ_ones_pos (l : list MatrixRow) :
  l <> [] -> 0 < sumZ (map (fun _ => 1) l).
Proof.
  destruct l as [|m l]; [congruence|]. intros _. unfold sumZ. cbn [map fold_right].
  assert (0 <= fold_right Z.add 0 (map (fun _ : MatrixRow => 1) l)).
  { induction l as [|m' l IH]; cbn [map fold_right]; lia. }
  lia.
Qed.

Lemma In_legacyAllEntries responses decision_matrix (i : string) (s : Z) :
  In (i, s) (legacyAllEntries responses decision_matrix) ->
  get (legacyScores responses decision_matrix) i = Some s /\ 0 < s.
Proof.
  unfold legacyAllEntries. intros H.
  apply (proj1 (In_Array_sort _ _ _)) in H. apply (proj1 (In_Object_entries _ _)) in H.
  apply In_get_Some in H; [|apply NoDup_keys_scoreLoop].
  split; [exact H|]. unfold legacyScores in H. rewrite get_scoreLoop in H.
  destruct (creditsTo i (hits responses decision_matrix)) as [|m ms] eqn:E; [discriminate|].
  assert (s = sumZ (map (fun _ : MatrixRow => 1) (m :: ms))) as -> by congruence.
  apply sumZ_ones_pos. discriminate.
Qed.

(** C3 -- no offering whose accumulated score is below the threshold
    ([MIN_SCORE] = 3) is among the sorted ids or the recommended use cases;
    an offering that no rule matching a recorded answer credits has no
    entry in the score map and is absent from the output; what is output
    carries its accumulated score, which is at least 3.  In the unweighted
    legacy scoring every entry that is output was credited at least once,
    so none lies below its cutoff 0. *)
Theorem cutoff_correct
    (use_cases : list UseCase) (responses : list Response)
    (decision_matrix : list MatrixRow) :
  MIN_SCORE = 3
  /\ (forall i s,
        get (useCaseScores responses decision_matrix) i = Some s ->
        s < MIN_SCORE ->
        ~ In i (sortedIds responses decision_matrix)
        /\ forall uc, In uc (recommendedUseCases use_cases responses decision_matrix) ->
                      id uc <> i)
  /\ (forall i,
        (forall m, In m decision_matrix -> use_case_id m = i ->
                   ~ In (rule_question_id m, triggering_answer m) (pairs responses)) ->
        get (useCaseScores responses decision_matrix) i = None
        /\ ~ In i (sortedIds responses decision_matrix)
        /\ forall uc, In uc (recommendedUseCases use_cases responses decision_matrix) ->
                      id uc <> i)
  /\ (forall uc, In uc (recommendedUseCases use_cases responses decision_matrix) ->
        get (useCaseScores responses decision_matrix) (id uc) = Some (score uc)
        /\ MIN_SCORE <= score uc)
  /\ (forall i s,
        In (i, s) (legacyAllEntries responses decision_matrix)
        \/ In (i, s) (legacySortedEntries responses decision_matrix) ->
        get (legacyScores responses decision_matrix) i = Some s /\ ~ s < 0)
  /\ (forall i,
        (forall m, In m decision_matrix -> use_case_id m = i ->
                   ~ In (rule_question_id m, triggering_answer m) (pairs responses)) ->
        forall s,
          ~ In (i, s) (legacyAllEntries responses decision_matrix)
          /\ ~ In (i, s) (legacySortedEntries responses decision_matrix)).
Proof.
  assert (Hrec : forall uc,
             In uc (recommendedUseCases use_cases responses decision_matrix) ->
             get (useCaseScores responses decision_matrix) (id uc) = Some (score uc)
             /\ MIN_SCORE <= score uc).
  { intros uc Huc. apply In_recommendedUseCases in Huc. destruct Huc as [Hi Hs].
    split; [exact Hs|]. apply In_sortedIds in Hi. destruct Hi as [s [Hs' Hmin]].
    congruence. }
  assert (Habsent : forall w i,
             (forall m, In m decision_matrix -> use_case_id m = i ->
                        ~ In (rule_question_id m, triggering_answer m) (pairs responses)) ->
             get (scoreLoop w responses decision_matrix) i = None).
  { intros w i H. rewrite get_scoreLoop.
    assert (creditsTo i (hits responses decision_matrix) = []) as ->; [|reflexivity].
    apply creditsTo_nil. intros m Hm E. apply In_hits in Hm. destruct Hm as [Hm Hqa].
    exact (H m Hm E Hqa). }
  split; [reflexivity|]. split; [|split; [|split; [exact Hrec|split]]].
  - intros i s Hs Hlt. split.
    + intros Hin. apply In_sortedIds in Hin. destruct Hin as [s' [Hs' Hmin]].
      assert (s' = s) by congruence. lia.
    + intros uc Huc E. destruct (Hrec uc Huc) as [Hs' Hmin]. subst i.
      assert (score uc = s) by congruence. lia.
  - intros i H. pose proof (Habsent weightOrOne i H) as Hnone.
    split; [exact Hnone|]. split.
    + intros Hin. apply In_sortedIds in Hin. destruct Hin as [s [Hs _]].
      unfold useCaseScores in Hs. congruence.
    + intros uc Huc E. destruct (Hrec uc Huc) as [Hs _]. subst i.
      unfold useCaseScores in Hs. congruence.
  - intros i s H.
    assert (In (i, s) (legacyAllEntries responses decision_matrix)) as Hall
      by (destruct H as [H|H]; [exact H | exact (In_firstn _ _ _ H)]).
    apply In_legacyAllEntries in Hall. destruct Hall as [Hs Hpos].
    split; [exact Hs | lia].
  - intros i H s.
    assert (~ In (i, s) (legacyAllEntries responses decision_matrix)) as Hall.
    { intros Hin. apply In_legacyAllEntries in Hin. destruct Hin as [Hs _].
      unfold legacyScores in Hs. rewrite (Habsent _ i H) in Hs. discriminate. }
    split; [exact Hall|]. intros Hin. apply Hall. exact (In_firstn _ _ _ Hin).
Qed.

(** ** Ranking *)

Lemma StronglySorted_impl {A : Type} (R S : A -> A -> Prop) (l : list A) :
  (forall x y, R x y -> S x y) -> StronglySorted R l -> StronglySorted S l.
Proof.
  intros HRS. induction 1 as [|x l Hl IH Hx]; constructor; [exact IH|].
  eapply Forall_impl; [|exact Hx]. intros y. apply HRS.
Qed.

Lemma sortedEntries_descending responses decision_matrix :
  StronglySorted (fun x y => snd y <= snd x) (sortedEntries responses decision_matrix).
Proof.
  unfold sortedEntries.
  apply (StronglySorted_impl (precedes byScoreDesc)).
  - unfold precedes, byScoreDesc. intros x y. lia.
  - apply Array_sort_sorted; unfold precedes, byScoreDesc; intros; lia.
Qed.

Lemma filter_filter_andb {A : Type} (p q : A -> bool) (l : list A) :
  filter p (filter q l) = filter (fun x => p x && q x) l.
Proof.
  induction l as [|x l IH]; simpl; [reflexivity|].
  destruct (q x); simpl; rewrite ?andb_true_r, ?andb_false_r.
  - destruct (p x); now rewrite IH.
  - exact IH.
Qed.

Lemma keys_filter_by_score (scores : Record Z) (q : Z -> bool) :
  NoDup (map fst scores) ->
  map fst (filter (fun e => q (snd e)) scores)
  = filter (fun i => q (scoreIn scores i)) (map fst scores).
Proof.
  intros Hnd. rewrite filter_map_swap. f_equal.
  apply filter_ext_in. intros [i s] Hin. simpl.
  unfold scoreIn. now rewrite (In_get_Some _ _ _ Hnd Hin).
Qed.

(** With offering ids that are no array indices (they are UUIDs), the
    score map enumerates in first-encounter order. *)
Lemma entries_first_encountered (weightOf : MatrixRow -> Z) responses decision_matrix :
  Forall (fun m => is_index (use_case_id m) = false) decision_matrix ->
  Object_entries (scoreLoop weightOf responses decision_matrix)
  = scoreLoop weightOf responses decision_matrix.
Proof.
  intros Hids. apply Object_entries_creation_order.
  rewrite keys_scoreLoop. apply Forall_forall. intros i Hi.
  apply In_firstOccurrences, in_map_iff in Hi. destruct Hi as [m [<- Hm]].
  apply In_hits in Hm. destruct Hm as [Hm _].
  rewrite Forall_forall in Hids. exact (Hids m Hm).
Qed.

Lemma find_filter {A : Type} (p q : A -> bool) (l : list A) :
  (forall x, p x = true -> q x = true) -> find p (filter q l) = find p l.
Proof.
  intros Hpq. induction l as [|x l IH]; simpl; [reflexivity|].
  destruct (q x) eqn:Q; simpl.
  - destruct (p x); [reflexivity | exact IH].
  - destruct (p x) eqn:P; [|exact IH]. rewrite (Hpq x P) in Q. discriminate.
Qed.

(** The catalog decides which sorted ids are shown, never their order. *)
Lemma ids_recommendedUseCases use_cases responses decision_matrix :
  map id (recommendedUseCases use_cases responses decision_matrix)
  = filter (fun i => existsb (fun u => (id u =? i)%string) use_cases)
           (sortedIds responses decision_matrix).
Proof.
  unfold recommendedUseCases.
  set (ids := sortedIds responses decision_matrix).
  set (sm := scoreMap responses decision_matrix).
  assert (G : forall l, incl l ids ->
    map id (flat_map
      (fun i => match find (fun u => (id u =? i)%string)
                           (filter (fun u => existsb (fun j => (id u =? j)%string) ids)
                                   use_cases) with
                | Some uc => [withScore uc (or_zero (get sm i))]
                | None => []
                end) l)
    = filter (fun i => existsb (fun u => (id u =? i)%string) use_cases) l).
  { induction l as [|i l IH]; intros Hl; [reflexivity|].
    simpl. rewrite map_app, IH by (intros x Hx; apply Hl; now right).
    rewrite find_filter.
    - destruct (find (fun u => (id u =? i)%string) use_cases) as [u|] eqn:F.
      + pose proof (find_some _ _ F) as [Hu E].
        assert (existsb (fun u => (id u =? i)%string) use_cases = true) as ->.
        { apply existsb_exists. now exists u. }
        simpl. apply String.eqb_eq in E. now rewrite E.
      + assert (existsb (fun u => (id u =? i)%string) use_cases = false) as ->.
        { destruct (existsb _ use_cases) eqn:X; [|reflexivity].
          apply existsb_exists in X. destruct X as [u [Hu E]].
          pose proof (find_none _ _ F u Hu) as N. simpl in N. congruence. }
        reflexivity.
    - intros u E. apply existsb_exists. exists i. split; [apply Hl; now left | exact E]. }
  apply G. apply incl_refl.
Qed.

(** C4 -- the scoring output is sorted by score, descending; entries with
    equal scores keep the order in which the accumulation first met their
    offerings; and the catalog rows only decide which of the sorted ids are
    shown, never where: nothing but the score orders the output. *)
Theorem ranking_order
    (use_cases : list UseCase) (responses : list Response)
    (decision_matrix : list MatrixRow) :
  Forall (fun m => is_index (use_case_id m) = false) decision_matrix ->
  StronglySorted (fun x y => snd y <= snd x) (sortedEntries responses decision_matrix)
  /\ (forall s,
        map fst (filter (fun e => snd e =? s) (sortedEntries responses decision_matrix))
        = filter (fun i =>
                    (scoreIn (useCaseScores responses decision_matrix) i =? s)
                    && (MIN_SCORE <=? scoreIn (useCaseScores responses decision_matrix) i))
                 (firstEncountered responses decision_matrix))
  /\ map id (recommendedUseCases use_cases responses decision_matrix)
     = filter (fun i => existsb (fun u => (id u =? i)%string) use_cases)
              (sortedIds responses decision_matrix).
Proof.
  intros Hids. split; [apply sortedEntries_descending|].
  split; [|apply ids_recommendedUseCases].
  intros s. unfold sortedEntries, useCaseScores.
  rewrite (entries_first_encountered _ _ _ Hids).
  rewrite Array_sort_stable.
  - rewrite filter_filter_andb.
    rewrite (keys_filter_by_score _ (fun v => (v =? s) && (MIN_SCORE <=? v)))
      by apply NoDup_keys_scoreLoop.
    now rewrite keys_scoreLoop.
  - intros x y Hx Hy. apply Z.eqb_eq in Hx. apply Z.eqb_eq in Hy.
    unfold byScoreDesc. lia.
Qed.

Lemma ranking_order_witness :
  StronglySorted (fun x y => snd y <= snd x)
                 (sortedEntries scenario_responses scenario_matrix)
  /\ (forall s,
        map fst (filter (fun e => snd e =? s)
                        (sortedEntries scenario_responses scenario_matrix))
        = filter (fun i =>
                    (scoreIn (useCaseScores scenario_responses scenario_matrix) i =? s)
                    && (MIN_SCORE <=? scoreIn (useCaseScores scenario_responses scenario_matrix) i))
                 (firstEncountered scenario_responses scenario_matrix))
  /\ map id (recommendedUseCases scenario_catalog scenario_responses scenario_matrix)
     = filter (fun i => existsb (fun u => (id u =? i)%string) scenario_catalog)
              (sortedIds scenario_responses scenario_matrix).
Proof.
  apply (ranking_order scenario_catalog scenario_responses scenario_matrix).
  repeat constructor.
Defined.

(** ** Order of the answers *)

Lemma Permutation_filter {A : Type} (p : A -> bool) (l l' : list A) :
  Permutation l l' -> Permutation (filter p l) (filter p l').
Proof.
  induction 1 as [|x l l' H IH|x y l|l l' l'' H1 IH1 H2 IH2]; simpl.
  - constructor.
  - destruct (p x); [now constructor | exact IH].
  - destruct (p x), (p y); try apply Permutation_refl. apply perm_swap.
  - eapply perm_trans; eassumption.
Qed.

Lemma sumZ_Permutation (l l' : list Z) : Permutation l l' -> sumZ l = sumZ l'.
Proof.
  unfold sumZ. induction 1; cbn [fold_right]; lia.
Qed.

(** The score map is a function of the multiset of recorded pairs. *)
Lemma get_scoreLoop_Permutation (weightOf : MatrixRow -> Z)
    (rs1 rs2 : list Response) (decision_matrix : list MatrixRow) (i : string) :
  Permutation (pairs rs1) (pairs rs2) ->
  get (scoreLoop weightOf rs1 decision_matrix) i
  = get (scoreLoop weightOf rs2 decision_matrix) i.
Proof.
  intros Hp. rewrite !get_scoreLoop.
  assert (Permutation (creditsTo i (hits rs1 decision_matrix))
                      (creditsTo i (hits rs2 decision_matrix))) as Hc.
  { unfold creditsTo, hits. apply Permutation_filter.
    now apply Permutation_flat_map. }
  destruct (creditsTo i (hits rs1 decision_matrix)) as [|m ms] eqn:E1.
  - apply Permutation_nil in Hc. now rewrite Hc.
  - destruct (creditsTo i (hits rs2 decision_matrix)) as [|m' ms'] eqn:E2.
    + apply Permutation_sym, Permutation_nil in Hc. discriminate.
    + f_equal. apply sumZ_Permutation. now apply Permutation_map.
Qed.

Lemma In_entry_get (weightOf : MatrixRow -> Z) responses decision_matrix
    (i : string) (s : Z) :
  In (i, s) (scoreLoop weightOf responses decision_matrix)
  <-> get (scoreLoop weightOf responses decision_matrix) i = Some s.
Proof.
  split; [apply In_get_Some, NoDup_keys_scoreLoop | apply get_Some_In].
Qed.

Lemma sortedEntries_Permutation (rs1 rs2 : list Response) (decision_matrix : list MatrixRow) :
  (forall i, get (useCaseScores rs1 decision_matrix) i
             = get (useCaseScores rs2 decision_matrix) i) ->
  Permutation (sortedEntries rs1 decision_matrix) (sortedEntries rs2 decision_matrix).
Proof.
  intros Hget. unfold sortedEntries.
  eapply perm_trans; [apply Array_sort_perm|].
  eapply perm_trans; [|apply Permutation_sym, Array_sort_perm].
  apply Permutation_filter.
  eapply perm_trans; [apply Object_entries_perm|].
  eapply perm_trans; [|apply Permutation_sym, Object_entries_perm].
  apply NoDup_Permutation.
  - eapply NoDup_map_inv, NoDup_keys_scoreLoop.
  - eapply NoDup_map_inv, NoDup_keys_scoreLoop.
  - intros [i s]. unfold useCaseScores in *. rewrite !In_entry_get. now rewrite Hget.
Qed.

(** C8, as the code has it -- two sequences of recorded (question, value)
    pairs that hold the same pairs the same number of times, and so two
    sequences without repeated pair that form the same set, yield the
    same score map: every offering has the same entry, or none, whatever
    the order in which the answers were recorded or iterated.  The ranked
    entries are then the same up to their order (the order of entries
    with equal scores follows the order of the answers). *)
Theorem scoring_order_independent
    (rs1 rs2 : list Response) (decision_matrix : list MatrixRow) :
  Permutation (pairs rs1) (pairs rs2)
  \/ (NoDup (pairs rs1) /\ NoDup (pairs rs2)
      /\ forall qa, In qa (pairs rs1) <-> In qa (pairs rs2)) ->
  (forall i,
      get (useCaseScores rs1 decision_matrix) i = get (useCaseScores rs2 decision_matrix) i)
  /\ Permutation (sortedEntries rs1 decision_matrix) (sortedEntries rs2 decision_matrix).
Proof.
  intros H.
  assert (Hp : Permutation (pairs rs1) (pairs rs2)).
  { destruct H as [H|[H1 [H2 Hset]]]; [exact H | now apply NoDup_Permutation]. }
  assert (Hget : forall i,
             get (useCaseScores rs1 decision_matrix) i
             = get (useCaseScores rs2 decision_matrix) i).
  { intros i. now apply get_scoreLoop_Permutation. }
  split; [exact Hget | now apply sortedEntries_Permutation].
Qed.

Lemma scoring_order_independent_witness :
  (forall i,
      get (useCaseScores scenario_responses scenario_matrix) i
      = get (useCaseScores scenario_responses_reordered scenario_matrix) i)
  /\ Permutation (sortedEntries scenario_responses scenario_matrix)
                 (sortedEntries scenario_responses_reordered scenario_matrix).
Proof.
  apply (scoring_order_independent scenario_responses scenario_responses_reordered
           scenario_matrix).
  right. split; [|split].
  - repeat constructor; simpl; intuition discriminate.
  - repeat constructor; simpl; intuition discriminate.
  - intros qa. simpl. tauto.
Defined.

(** C8, as the specification words it, fails -- the set of recorded pairs
    does not determine the scores: the answer Q1 = "Yes" stored once
    credits O1 with 5; saved again by a [saveResponse] whose delete is
    refused it is stored twice, the recorded pairs form the same set, and
    O1 is credited with 10. *)
Lemma scoring_counts_repeats :
  let once := Store.selectResponses Store.stored_once "S1" in
  let twice := Store.selectResponses Store.stored_twice "S1" in
  pairs once = [("Q1", "Yes")]
  /\ pairs twice = [("Q1", "Yes"); ("Q1", "Yes")]
  /\ (forall qa, In qa (pairs once) <-> In qa (pairs twice))
  /\ useCaseScores once scenario_matrix = [("O1", 5)]
  /\ useCaseScores twice scenario_matrix = [("O1", 10)]
  /\ ~ (forall i, get (useCaseScores once scenario_matrix) i
                  = get (useCaseScores twice scenario_matrix) i).
Proof.
  cbv zeta.
  split; [reflexivity|]. split; [reflexivity|]. split.
  { intros qa. cbn. tauto. }
  split; [reflexivity|]. split; [reflexivity|].
  intros H. specialize (H "O1"). discriminate H.
Qed.

(** ** Adding a rule *)

Lemma weightOrOne_pos (r : MatrixRow) : 0 <= weight r -> 1 <= weightOrOne r.
Proof.
  unfold weightOrOne. destruct (weight r =? 0) eqn:E; [lia|].
  apply Z.eqb_neq in E. lia.
Qed.

Lemma sumZ_app (l l' : list Z) : sumZ (l ++ l') = sumZ l + sumZ l'.
Proof.
  unfold sumZ. induction l as [|x l IH]; cbn [app fold_right]; lia.
Qed.

Section AddRule.
Variable weightOf : MatrixRow -> Z.
Variables (before after : list MatrixRow) (r : MatrixRow).
Hypothesis weight_nonneg : 0 <= weightOf r.

Lemma creditOfPair_add (i : string) (qa : string * string) :
  creditOfPair weightOf (before ++ r :: after) i qa
  = creditOfPair weightOf (before ++ after) i qa
    + (if ((rule_question_id r =? fst qa)%string && (triggering_answer r =? snd qa)%string)
          && (use_case_id r =? i)%string
       then weightOf r else 0).
Proof.
  unfold creditOfPair, creditsTo, matches.
  rewrite !filter_app, !map_app, !sumZ_app. cbn [filter].
  destruct ((rule_question_id r =? fst qa)%string && (triggering_answer r =? snd qa)%string);
    cbn [filter andb]; [|lia].
  destruct (use_case_id r =? i)%string; unfold sumZ; cbn [map fold_right]; lia.
Qed.

Lemma total_as_pairs (decision_matrix : list MatrixRow) (i : string)
    (ps : list (string * string)) :
  sumZ (map weightOf
         (creditsTo i (flat_map (fun qa => matches decision_matrix (fst qa) (snd qa)) ps)))
  = sumZ (map (creditOfPair weightOf decision_matrix i) ps).
Proof.
  induction ps as [|qa ps IH]; [reflexivity|].
  cbn [flat_map map]. unfold creditsTo in *. rewrite filter_app, map_app, sumZ_app, IH.
  unfold sumZ. cbn [fold_right]. reflexivity.
Qed.

Lemma total_add_le (i : string) (ps : list (string * string)) :
  sumZ (map (creditOfPair weightOf (before ++ after) i) ps)
  <= sumZ (map (creditOfPair weightOf (before ++ r :: after) i) ps).
Proof.
  induction ps as [|qa ps IH]; [unfold sumZ; simpl; lia|].
  unfold sumZ in *. cbn [map fold_right]. rewrite (creditOfPair_add i qa).
  destruct (_ && _); lia.
Qed.

Lemma total_add_matching (ps : list (string * string)) :
  In (rule_question_id r, triggering_answer r) ps ->
  sumZ (map (creditOfPair weightOf (before ++ after) (use_case_id r)) ps) + weightOf r
  <= sumZ (map (creditOfPair weightOf (before ++ r :: after) (use_case_id r)) ps).
Proof.
  induction ps as [|qa ps IH]; [contradiction|].
  intros [E|Hin]; unfold sumZ in *; cbn [map fold_right];
    rewrite (creditOfPair_add (use_case_id r) qa).
  - subst qa. cbn [fst snd]. rewrite !String.eqb_refl. cbn [andb].
    pose proof (total_add_le (use_case_id r) ps) as H. unfold sumZ in H. lia.
  - specialize (IH Hin). destruct (_ && _); lia.
Qed.

End AddRule.

Lemma scoreIn_as_pairs (weightOf : MatrixRow -> Z) responses decision_matrix (i : string) :
  scoreIn (scoreLoop weightOf responses decision_matrix) i
  = sumZ (map (creditOfPair weightOf decision_matrix i) (pairs responses)).
Proof.
  rewrite scoreIn_scoreLoop. unfold hits. apply total_as_pairs.
Qed.

(** C9 -- adding to the decision matrix one rule (of weight at least 0,
    which the code reads as at least 1) that matches a recorded answer
    lowers no offering's accumulated score, keeps every entry of the score
    map in place, and raises the score of the rule's own offering by at
    least the rule's weight. *)
Theorem matching_rule_monotone
    (responses : list Response) (before after : list MatrixRow) (r : MatrixRow) :
  0 <= weight r ->
  In (rule_question_id r, triggering_answer r) (pairs responses) ->
  (forall i,
      scoreIn (useCaseScores responses (before ++ after)) i
      <= scoreIn (useCaseScores responses (before ++ r :: after)) i)
  /\ (forall i,
        get (useCaseScores responses (before ++ after)) i <> None ->
        get (useCaseScores responses (before ++ r :: after)) i <> None)
  /\ scoreIn (useCaseScores responses (before ++ after)) (use_case_id r) + weightOrOne r
     <= scoreIn (useCaseScores responses (before ++ r :: after)) (use_case_id r)
  /\ 1 <= weightOrOne r.
Proof.
  intros Hw Hin. pose proof (weightOrOne_pos r Hw) as Hpos.
  assert (Hnn : 0 <= weightOrOne r) by lia.
  unfold useCaseScores. split; [|split; [|split; [|exact Hpos]]].
  - intros i. rewrite !scoreIn_as_pairs. now apply total_add_le.
  - intros i. rewrite !get_scoreLoop.
    destruct (creditsTo i (hits responses (before ++ after))) as [|m ms] eqn:E;
      [congruence|]. intros _.
    destruct (creditsTo i (hits responses (before ++ r :: after))) as [|m' ms'] eqn:E';
      [|discriminate].
    exfalso. assert (In m (creditsTo i (hits responses (before ++ after)))) as Hm
      by (rewrite E; now left).
    unfold creditsTo in Hm. apply filter_In in Hm. destruct Hm as [Hm Ei].
    apply In_hits in Hm. destruct Hm as [Hm Hqa].
    assert (In m (creditsTo i (hits responses (before ++ r :: after)))) as Hm'.
    { unfold creditsTo. apply filter_In. split; [|exact Ei]. apply In_hits.
      split; [|exact Hqa]. apply in_app_or in Hm. apply in_or_app.
      destruct Hm; [now left | right; now right]. }
    rewrite E' in Hm'. contradiction.
  - rewrite !scoreIn_as_pairs. now apply total_add_matching.
Qed.

Lemma matching_rule_monotone_witness :
  (forall i,
      scoreIn (useCaseScores scenario_responses ([] ++ scenario_matrix)) i
      <= scoreIn (useCaseScores scenario_responses
                                ([] ++ scenario_added_rule :: scenario_matrix)) i)
  /\ (forall i,
        get (useCaseScores scenario_responses ([] ++ scenario_matrix)) i <> None ->
        get (useCaseScores scenario_responses ([] ++ scenario_added_rule :: scenario_matrix)) i
        <> None)
  /\ scoreIn (useCaseScores scenario_responses ([] ++ scenario_matrix))
             (use_case_id scenario_added_rule)
     + weightOrOne scenario_added_rule
     <= scoreIn (useCaseScores scenario_responses ([] ++ scenario_added_rule :: scenario_matrix))
                (use_case_id scenario_added_rule)
  /\ 1 <= weightOrOne scenario_added_rule.
Proof.
  apply (matching_rule_monotone scenario_responses [] scenario_matrix scenario_added_rule).
  - simpl. lia.
  - simpl. right. left. reflexivity.
Defined.

End ScoringFacts.

(* ================================================================== *)
(** * Facts about binary64 numbers *)
(* ================================================================== *)

Module NumberFacts.
Import JS.

(** ** Dividing a number by itself *)

Lemma SFdiv_core_self (m : positive) (e : Z) :
  SFdiv_core_binary prec emax (Zpos m) e (Zpos m) e = (2 ^ 53, -53, loc_Exact).
Proof.
  unfold SFdiv_core_binary.
  replace (Zdigits2 (Zpos m) + e - (Zdigits2 (Zpos m) + e)) with 0 by lia.
  replace (e - e) with 0 by lia.
  change (Z.min (fexp prec emax 0) 0) with (-53).
  change (0 - -53) with 53.
  cbv beta iota zeta.
  rewrite Z.shiftl_mul_pow2 by lia.
  assert (H : Z.div_eucl (Zpos m * 2 ^ 53) (Zpos m) = (2 ^ 53, 0)).
  { pose proof (Z.div_mul (2 ^ 53) (Zpos m) ltac:(lia)) as Hq.
    pose proof (Z.mod_mul (2 ^ 53) (Zpos m) ltac:(lia)) as Hr.
    rewrite (Z.mul_comm (2 ^ 53)) in Hq, Hr.
    unfold Z.div in Hq. unfold Z.modulo in Hr.
    destruct (Z.div_eucl (Zpos m * 2 ^ 53) (Zpos m)) as [q r]. now subst. }
  rewrite H. unfold new_location.
  destruct (Z.even (Zpos m)); reflexivity.
Qed.

(** A positive finite number divided by itself is exactly 1. *)
Lemma div_self (x : float) (m : positive) (e : Z) :
  Prim2SF x = S754_finite false m e -> PrimFloat.div x x = PrimFloat.one.
Proof.
  intros H. apply Prim2SF_inj. rewrite div_spec, H.
  unfold SF64div, SFdiv. rewrite SFdiv_core_self. vm_compute. reflexivity.
Qed.

(** ** Integers below 2^53 are positive finite numbers *)

Lemma binary_round_aux_canonical (mz : positive) (ez : Z) :
  fexp prec emax (Zpos (digits2_pos mz) + ez) = ez -> ez <= 971 ->
  binary_round_aux prec emax false (Zpos mz) ez loc_Exact = S754_finite false mz ez.
Proof.
  intros H Hle. unfold binary_round_aux, shr_fexp. cbn [Zdigits2 shr_record_of_loc].
  rewrite H, Z.sub_diag.
  cbn [shr shr_m loc_of_shr_record round_nearest_even Zdigits2 shr_record_of_loc].
  rewrite H, Z.sub_diag. cbn [shr shr_m].
  change (emax - prec) with 971. apply Z.leb_le in Hle. now rewrite Hle.
Qed.

Lemma digits2_pos_lower (p : positive) : 2 ^ Zpos (digits2_pos p) <= 2 * Zpos p.
Proof.
  induction p as [p IH|p IH|]; cbn [digits2_pos].
  - rewrite Pos2Z.inj_succ, Z.pow_succ_r by lia. lia.
  - rewrite Pos2Z.inj_succ, Z.pow_succ_r by lia. lia.
  - reflexivity.
Qed.

Lemma digits2_pos_iter_xO (p k : positive) :
  digits2_pos (Pos.iter xO p k) = (digits2_pos p + k)%positive.
Proof.
  induction k as [|k IH] using Pos.peano_ind.
  - simpl. now rewrite Pos.add_1_r.
  - rewrite Pos.iter_succ. cbn [digits2_pos]. rewrite IH. now rewrite Pos.add_succ_r.
Qed.

Lemma fexp_small (d : Z) : 1 <= d <= 53 -> fexp prec emax d = d - 53.
Proof.
  intros H. unfold fexp, SpecFloat.emin. change prec with 53. change emax with 1024. lia.
Qed.

Lemma binary_round_small (p : positive) :
  Zpos p < 2 ^ 53 ->
  exists m e, binary_round prec emax false p 0 = S754_finite false m e.
Proof.
  intros Hp. pose proof (digits2_pos_lower p) as Hd.
  assert (Zpos (digits2_pos p) <= 53) as Hd53.
  { destruct (Z_le_gt_dec (Zpos (digits2_pos p)) 53) as [H|H]; [exact H|].
    assert (2 ^ 54 <= 2 ^ Zpos (digits2_pos p)) by (apply Z.pow_le_mono_r; lia).
    change (2 ^ 54) with (2 * 2 ^ 53) in *. lia. }
  unfold binary_round. rewrite Z.add_0_r, fexp_small by lia. unfold shl_align.
  destruct (Zpos (digits2_pos p) - 53 - 0) as [|k|k] eqn:Ek; try lia.
  - exists p, 0. apply binary_round_aux_canonical; [|lia].
    rewrite Z.add_0_r, fexp_small by lia. lia.
  - exists (Pos.iter xO p k), (Zpos (digits2_pos p) - 53).
    apply binary_round_aux_canonical; [|lia].
    rewrite digits2_pos_iter_xO.
    replace (Zpos (digits2_pos p + k) + (Zpos (digits2_pos p) - 53))
      with (Zpos (digits2_pos p)) by lia.
    apply fexp_small. lia.
Qed.

Lemma num_positive_finite (s : Z) :
  1 <= s < 2 ^ 53 -> exists m e, Prim2SF (num s) = S754_finite false m e.
Proof.
  intros Hs. destruct s as [|p|p]; try lia. unfold num.
  rewrite of_uint63_spec.
  assert (Uint63Axioms.to_Z (Uint63.of_Z (Zpos p)) = Zpos p) as ->.
  { pose proof (Uint63.of_Z_spec (Zpos p)) as H. rewrite Z.mod_small in H; [exact H|].
    split; [lia|]. change Uint63.wB with (2 ^ 63).
    assert (2 ^ 53 < 2 ^ 63) by reflexivity. lia. }
  cbn [binary_normalize]. apply binary_round_small. lia.
Qed.

(** ** Maxima *)

Lemma Math_max_ge (x : Z) (xs : list Z) :
  x <= Math_max x xs /\ Forall (fun y => y <= Math_max x xs) xs.
Proof.
  unfold Math_max. revert x. induction xs as [|y xs IH]; intros x; simpl.
  - split; [lia | constructor].
  - destruct (IH (Z.max x y)) as [H1 H2]. split; [lia|].
    constructor; [lia | exact H2].
Qed.

Lemma Math_max_In (x : Z) (xs : list Z) : In (Math_max x xs) (x :: xs).
Proof.
  unfold Math_max. revert x. induction xs as [|y xs IH]; intros x; simpl.
  - now left.
  - destruct (IH (Z.max x y)) as [H|H].
    + rewrite <- H. destruct (Z.max_spec x y) as [[_ ->]|[_ ->]]; tauto.
    + right. now right.
Qed.

End NumberFacts.

(* ================================================================== *)
(** * Binary64 arithmetic: quotient, product and rounding of integers *)
(* ================================================================== *)

Module FloatFacts.
Import JS NumberFacts Rounding.

(** ** Shifting and rounding a located value *)

Lemma shr_1_located (mrs : shr_record) (N M : Z) :
  0 <= shr_m mrs -> located mrs N M ->
  located (shr_1 mrs) N (2 * M) /\ 0 <= shr_m (shr_1 mrs).
Proof.
  destruct mrs as [m r s]. unfold located. cbn [shr_m shr_r shr_s]. intros Hm [HM [Hb Hl]].
  destruct m as [|p|p]; [| |lia].
  - revert Hl. destruct r, s; cbn [shr_1 orb shr_m shr_r shr_s]; intros Hl; lia.
  - destruct p as [p|p|].
    + revert Hl. destruct r, s; cbn [shr_1 orb shr_m shr_r shr_s]; intros Hl;
        rewrite Pos2Z.inj_xI in *; lia.
    + revert Hl. destruct r, s; cbn [shr_1 orb shr_m shr_r shr_s]; intros Hl;
        rewrite Pos2Z.inj_xO in *; lia.
    + revert Hl. destruct r, s; cbn [shr_1 orb shr_m shr_r shr_s]; intros Hl; lia.
Qed.

Lemma iter_shr_1_located (n : positive) :
  forall (mrs : shr_record) (N M : Z),
    0 <= shr_m mrs -> located mrs N M ->
    located (iter_pos shr_1 n mrs) N (2 ^ Zpos n * M)
    /\ 0 <= shr_m (iter_pos shr_1 n mrs).
Proof.
  induction n as [n IH|n IH|]; intros mrs N M Hm Hl; cbn [iter_pos].
  - destruct (shr_1_located _ _ _ Hm Hl) as [H1 H1'].
    destruct (IH _ _ _ H1' H1) as [H2 H2'].
    destruct (IH _ _ _ H2' H2) as [H3 H3'].
    split; [|exact H3'].
    replace (2 ^ Zpos n~1 * M) with (2 ^ Zpos n * (2 ^ Zpos n * (2 * M))); [exact H3|].
    replace (Zpos n~1) with (Zpos n + Zpos n + 1) by lia.
    rewrite !Z.pow_add_r, Z.pow_1_r by lia. ring.
  - destruct (IH _ _ _ Hm Hl) as [H2 H2'].
    destruct (IH _ _ _ H2' H2) as [H3 H3'].
    split; [|exact H3'].
    replace (2 ^ Zpos n~0 * M) with (2 ^ Zpos n * (2 ^ Zpos n * M)); [exact H3|].
    replace (Zpos n~0) with (Zpos n + Zpos n) by lia.
    rewrite Z.pow_add_r by lia. ring.
  - change (2 ^ 1) with 2. now apply shr_1_located.
Qed.

Lemma round_located (mrs : shr_record) (N M : Z) :
  located mrs N M ->
  let m := round_nearest_even (shr_m mrs) (loc_of_shr_record mrs) in
  shr_m mrs <= m <= shr_m mrs + 1
  /\ 2 * (m * M) - M <= 2 * N <= 2 * (m * M) + M.
Proof.
  destruct mrs as [m r s]. unfold located. cbn [shr_m shr_r shr_s]. intros [HM [Hb Hl]].
  revert Hl. destruct r, s; cbn [loc_of_shr_record round_nearest_even shr_m];
    intros Hl; try destruct (Z.even m); lia.
Qed.


Lemma digits2_pos_upper (p : positive) : Zpos p < 2 ^ Zpos (digits2_pos p).
Proof.
  induction p as [p IH|p IH|]; cbn [digits2_pos].
  - rewrite Pos2Z.inj_succ, Z.pow_succ_r, Pos2Z.inj_xI by lia. lia.
  - rewrite Pos2Z.inj_succ, Z.pow_succ_r, Pos2Z.inj_xO by lia. lia.
  - reflexivity.
Qed.

Lemma digits2_pos_eq (p : positive) (d : Z) :
  2 ^ (d - 1) <= Zpos p < 2 ^ d -> 1 <= d -> Zpos (digits2_pos p) = d.
Proof.
  intros [Hlo Hhi] Hd.
  pose proof (digits2_pos_lower p) as Hl. pose proof (digits2_pos_upper p) as Hu.
  assert (Zpos (digits2_pos p) < d + 1).
  { apply (Z.pow_lt_mono_r_iff 2); [lia | lia|].
    rewrite (Z.pow_add_r 2 d 1), Z.pow_1_r by lia. lia. }
  assert (d - 1 < Zpos (digits2_pos p)).
  { apply (Z.pow_lt_mono_r_iff 2); [lia | lia | lia]. }
  lia.
Qed.

Lemma fexp_normal (e : Z) : -1021 <= e -> fexp prec emax e = e - 53.
Proof.
  intros H. unfold fexp, SpecFloat.emin. change prec with 53. change emax with 1024. lia.
Qed.

Lemma shr_m_of_loc (m : Z) (l : location) : shr_m (shr_record_of_loc m l) = m.
Proof. now destruct l as [|[]]. Qed.

Lemma loc_of_loc (m : Z) (l : location) : loc_of_shr_record (shr_record_of_loc m l) = l.
Proof. now destruct l as [|[]]. Qed.

Lemma located_bounds (mrs : shr_record) (N M : Z) :
  located mrs N M -> 0 < M /\ shr_m mrs * M <= N < (shr_m mrs + 1) * M.
Proof. intros [H1 [H2 _]]. now split. Qed.

(** Rounding to nearest of a positive value of at least 53 digits. *)
Lemma binary_round_aux_spec (mx ex N M b : Z) (lx : location) :
  2 ^ 52 <= mx < 2 ^ b ->
  located (shr_record_of_loc mx lx) N M ->
  -1074 <= ex -> ex + b <= 1023 ->
  exists m n,
    binary_round_aux prec emax false mx ex lx = S754_finite false m (ex + n)
    /\ 0 <= n <= b - 52
    /\ 2 ^ 52 <= Zpos m < 2 ^ 53
    /\ 2 * (Zpos m * (2 ^ n * M)) - 2 ^ n * M <= 2 * N
       <= 2 * (Zpos m * (2 ^ n * M)) + 2 ^ n * M.
Proof.
  intros [Hlo Hhi] Hloc Hex Hexb.
  assert (H52 : 0 < 2 ^ 52) by reflexivity.
  destruct mx as [|p|p]; try lia.
  set (d := Zpos (digits2_pos p)).
  pose proof (digits2_pos_lower p) as Hdl. pose proof (digits2_pos_upper p) as Hdu.
  fold d in Hdl, Hdu.
  assert (Hd : 53 <= d <= b).
  { split.
    - assert (52 < d); [|lia]. apply (Z.pow_lt_mono_r_iff 2); lia.
    - assert (d < b + 1); [|lia]. apply (Z.pow_lt_mono_r_iff 2); [lia | |].
      + destruct b; try lia. simpl in Hhi. lia. 
      + rewrite (Z.pow_add_r 2 b 1), Z.pow_1_r; try lia.
        destruct b; try lia. simpl in Hhi. lia. }
  set (n := d - 53).
  assert (Hn : 0 <= n) by (unfold n; lia).
  assert (Hpow : 2 ^ d = 2 ^ 53 * 2 ^ n /\ 2 ^ (d - 1) = 2 ^ 52 * 2 ^ n /\ 0 < 2 ^ n).
  { split; [|split].
    - replace d with (53 + n) by (unfold n; lia). now rewrite Z.pow_add_r by lia.
    - replace (d - 1) with (52 + n) by (unfold n; lia). now rewrite Z.pow_add_r by lia.
    - apply Z.pow_pos_nonneg; lia. }
  destruct Hpow as [Hpd [Hpd1 Hpn]].
  destruct (located_bounds _ _ _ Hloc) as [HM Hb0]. rewrite shr_m_of_loc in Hb0.
  assert (Hs1 : exists mrs',
             shr (shr_record_of_loc (Zpos p) lx) ex n = (mrs', ex + n)
             /\ located mrs' N (2 ^ n * M) /\ 0 <= shr_m mrs').
  { destruct n as [|k|k] eqn:En; try lia.
    - exists (shr_record_of_loc (Zpos p) lx). cbn [shr]. rewrite Z.add_0_r.
      split; [reflexivity|]. rewrite Z.pow_0_r, Z.mul_1_l.
      split; [exact Hloc|]. rewrite shr_m_of_loc. lia.
    - exists (iter_pos shr_1 k (shr_record_of_loc (Zpos p) lx)). cbn [shr].
      split; [reflexivity|]. apply iter_shr_1_located; [|exact Hloc].
      rewrite shr_m_of_loc. lia. }
  destruct Hs1 as [mrs' [Es1 [Hl1 Hm1]]].
  destruct (located_bounds _ _ _ Hl1) as [HT Hb1].
  pose proof (round_located _ _ _ Hl1) as Hr. cbv zeta in Hr.
  set (m1 := shr_m mrs') in *.
  set (m2 := round_nearest_even m1 (loc_of_shr_record mrs')) in *.
  destruct Hr as [Hm2 Hbnd].
  set (T := 2 ^ n * M) in *.
  assert (Hm1b : 2 ^ 52 <= m1 < 2 ^ 53).
  { split.
    - assert (2 ^ 52 * T < (m1 + 1) * T) as X.
      { unfold T. rewrite Z.mul_assoc, <- Hpd1.
        apply Z.le_lt_trans with (Zpos p * M); [|lia].
        apply Z.mul_le_mono_nonneg_r; lia. }
      apply Z.mul_lt_mono_pos_r in X; lia.
    - assert (m1 * T < 2 ^ 53 * T) as X.
      { unfold T at 2. rewrite Z.mul_assoc, <- Hpd.
        apply Z.le_lt_trans with N; [lia|].
        apply Z.lt_le_trans with ((Zpos p + 1) * M); [lia|].
        apply Z.mul_le_mono_nonneg_r; lia. }
      apply Z.mul_lt_mono_pos_r in X; lia. }
  unfold binary_round_aux, shr_fexp. cbn [Zdigits2]. fold d.
  rewrite fexp_normal by lia.
  replace (d + ex - 53 - ex) with n by (unfold n; lia).
  rewrite Es1. fold m1. fold m2.
  assert (H53 : 2 ^ 53 = 9007199254740992) by reflexivity.
  destruct (Z.eq_dec m2 (2 ^ 53)) as [E2|E2].
  - rewrite E2. exists (Z.to_pos (2 ^ 52)), (n + 1).
    change (Zdigits2 (2 ^ 53)) with 54.
    rewrite fexp_normal by lia.
    replace (54 + (ex + n) - 53 - (ex + n)) with 1 by lia.
    cbn [shr]. change (iter_pos shr_1 1 (shr_record_of_loc (2 ^ 53) loc_Exact))
      with {| shr_m := 2 ^ 52; shr_r := false; shr_s := false |}.
    cbn [shr_m]. change (2 ^ 52) with (Zpos (Z.to_pos (2 ^ 52))) at 1.
    cbv beta iota.
    change (emax - prec) with 971.
    assert ((ex + n + 1 <=? 971) = true) as -> by (apply Z.leb_le; unfold n; lia).
    split; [f_equal; lia|]. split; [unfold n; lia|].
    split; [change (Zpos (Z.to_pos (2 ^ 52))) with (2 ^ 52); lia|].
    change (Zpos (Z.to_pos (2 ^ 52))) with (2 ^ 52).
    rewrite Z.pow_add_r, Z.pow_1_r by lia. fold T in Hbnd |- *.
    rewrite E2 in Hbnd.
    replace (2 ^ 52 * (2 ^ n * 2 * M)) with (2 ^ 53 * T)
      by (unfold T; change (2 ^ 53) with (2 ^ 52 * 2); ring).
    replace (2 ^ n * 2 * M) with (2 * T) by (unfold T; ring). lia.
  - assert (Hm2b : 2 ^ 52 <= m2 < 2 ^ 53) by lia.
    destruct m2 as [|p2|p2] eqn:Em2; try lia.
    exists p2, n. cbn [Zdigits2].
    rewrite (digits2_pos_eq p2 53) by (change (53 - 1) with 52; lia).
    rewrite fexp_normal by lia.
    replace (53 + (ex + n) - 53 - (ex + n)) with 0 by lia.
    cbn [shr shr_record_of_loc shr_m].
    change (emax - prec) with 971.
    assert ((ex + n <=? 971) = true) as -> by (apply Z.leb_le; unfold n; lia).
    split; [reflexivity|]. split; [unfold n; lia|]. split; [lia|]. exact Hbnd.
Qed.


(** ** Integers as binary64 numbers *)

Lemma iter_xO_value (p k : positive) : Zpos (Pos.iter xO p k) = Zpos p * 2 ^ Zpos k.
Proof.
  induction k as [|k IH] using Pos.peano_ind.
  - cbn [Pos.iter]. rewrite Pos2Z.inj_xO, Z.pow_1_r. lia.
  - rewrite Pos.iter_succ, Pos2Z.inj_xO, IH, Pos2Z.inj_succ, Z.pow_succ_r by lia. ring.
Qed.

Lemma num_spec (s : Z) :
  1 <= s < 2 ^ 53 ->
  exists m k,
    Prim2SF (num s) = S754_finite false m (- k)
    /\ 0 <= k /\ Zpos m = s * 2 ^ k /\ 2 ^ 52 <= Zpos m < 2 ^ 53.
Proof.
  intros Hs. destruct s as [|p|p]; try lia. unfold num.
  rewrite of_uint63_spec.
  assert (Uint63Axioms.to_Z (Uint63.of_Z (Zpos p)) = Zpos p) as ->.
  { pose proof (Uint63.of_Z_spec (Zpos p)) as H. rewrite Z.mod_small in H; [exact H|].
    split; [lia|]. change Uint63.wB with (2 ^ 63).
    assert (2 ^ 53 < 2 ^ 63) by reflexivity. lia. }
  cbn [binary_normalize].
  pose proof (digits2_pos_lower p) as Hd. pose proof (digits2_pos_upper p) as Hu.
  assert (Zpos (digits2_pos p) <= 53) as Hd53.
  { destruct (Z_le_gt_dec (Zpos (digits2_pos p)) 53) as [H|H]; [exact H|].
    assert (2 ^ 54 <= 2 ^ Zpos (digits2_pos p)) by (apply Z.pow_le_mono_r; lia).
    change (2 ^ 54) with (2 * 2 ^ 53) in *. lia. }
  unfold binary_round. rewrite Z.add_0_r, fexp_small by lia. unfold shl_align.
  destruct (Zpos (digits2_pos p) - 53 - 0) as [|k|k] eqn:Ek; try lia.
  - exists p, 0. rewrite binary_round_aux_canonical; [|rewrite Z.add_0_r, fexp_small; lia|lia].
    split; [reflexivity|]. split; [lia|]. split; [rewrite Z.pow_0_r; lia|].
    replace (Zpos (digits2_pos p)) with 53 in * by lia.
    change (2 ^ 53) with (2 * 2 ^ 52) in *. lia.
  - exists (Pos.iter xO p k), (Zpos k).
    assert (Hdig : digits2_pos (Pos.iter xO p k) = 53%positive).
    { rewrite digits2_pos_iter_xO. lia. }
    rewrite binary_round_aux_canonical.
    + replace (Zpos (digits2_pos p) - 53) with (- Zpos k) by lia.
      split; [reflexivity|]. split; [lia|]. split; [apply iter_xO_value|].
      pose proof (digits2_pos_lower (Pos.iter xO p k)) as Hl'.
      pose proof (digits2_pos_upper (Pos.iter xO p k)) as Hu'.
      rewrite Hdig in Hl', Hu'. change (2 ^ 53) with (2 * 2 ^ 52) in *. lia.
    + rewrite Hdig. replace (53 + (Zpos (digits2_pos p) - 53)) with (Zpos (digits2_pos p)) by lia.
      apply fexp_small. lia.
    + lia.
Qed.

(** ** The location that the division computes *)

Lemma new_location_located (n q r : Z) :
  0 < n -> 0 <= r < n ->
  located (shr_record_of_loc q (new_location n r)) (n * q + r) n.
Proof.
  intros Hn Hr. unfold new_location, new_location_even, new_location_odd.
  destruct (Z.even n) eqn:Ev.
  - destruct (Z.eqb_spec r 0) as [E|E].
    + unfold located; cbn [shr_record_of_loc shr_m shr_r shr_s]; lia.
    + destruct (Z.compare_spec (2 * r) n) as [C|C|C]; unfold located; cbn [shr_record_of_loc shr_m shr_r shr_s]; lia.
  - destruct (Z.eqb_spec r 0) as [E|E].
    + unfold located; cbn [shr_record_of_loc shr_m shr_r shr_s]; lia.
    + assert (Hodd : Z.odd n = true) by (rewrite <- Z.negb_even, Ev; reflexivity).
      apply Z.odd_spec in Hodd. destruct Hodd as [h Hh].
      destruct (Z.compare_spec (2 * r + 1) n) as [C|C|C]; unfold located; cbn [shr_record_of_loc shr_m shr_r shr_s]; lia.
Qed.


(** ** Quotient and product of binary64 numbers with full mantissas *)

Lemma SFdiv_spec (ms mD : positive) (ks kD : Z) :
  2 ^ 52 <= Zpos ms < 2 ^ 53 -> 2 ^ 52 <= Zpos mD < 2 ^ 53 ->
  0 <= kD <= ks -> ks <= 52 ->
  exists mq n,
    SFdiv prec emax (S754_finite false ms (- ks)) (S754_finite false mD (- kD))
    = S754_finite false mq (kD - ks - 53 + n)
    /\ 0 <= n <= 2
    /\ 2 ^ 52 <= Zpos mq < 2 ^ 53
    /\ 2 * (Zpos mq * (2 ^ n * Zpos mD)) - 2 ^ n * Zpos mD <= 2 * (Zpos ms * 2 ^ 53)
       <= 2 * (Zpos mq * (2 ^ n * Zpos mD)) + 2 ^ n * Zpos mD.
Proof.
  intros Hms HmD Hk Hks.
  unfold SFdiv, SFdiv_core_binary. cbn [Zdigits2 xorb].
  rewrite (digits2_pos_eq ms 53), (digits2_pos_eq mD 53)
    by (try change (53 - 1) with 52; lia).
  replace (53 + - ks - (53 + - kD)) with (kD - ks) by lia.
  replace (- ks - - kD) with (kD - ks) by lia.
  rewrite fexp_normal by lia.
  rewrite Z.min_l by lia.
  replace (kD - ks - (kD - ks - 53)) with 53 by lia.
  cbv beta iota zeta. rewrite Z.shiftl_mul_pow2 by lia.
  pose proof (Z_div_mod (Zpos ms * 2 ^ 53) (Zpos mD) ltac:(lia)) as Hdiv.
  destruct (Z.div_eucl (Zpos ms * 2 ^ 53) (Zpos mD)) as [q0 r].
  destruct Hdiv as [Hq Hr].
  assert (H52 : 2 ^ 52 = 4503599627370496) by reflexivity.
  assert (H53 : 2 ^ 53 = 9007199254740992) by reflexivity.
  assert (H54 : 2 ^ 54 = 18014398509481984) by reflexivity.
  assert (Hq0 : 2 ^ 52 <= q0 < 2 ^ 54).
  { rewrite H52, H53, H54 in *. split; nia. }
  destruct (binary_round_aux_spec q0 (kD - ks - 53) (Zpos ms * 2 ^ 53) (Zpos mD) 54
              (new_location (Zpos mD) r)) as [mq [n [E [Hn [Hmq Hb]]]]].
  - exact Hq0.
  - rewrite Hq. apply new_location_located; lia.
  - lia.
  - lia.
  - exists mq, n. split; [exact E|]. split; [lia|]. split; [exact Hmq | exact Hb].
Qed.

Lemma SFmul_spec (mq m100 : positive) (eq e100 : Z) :
  2 ^ 52 <= Zpos mq < 2 ^ 53 -> 2 ^ 52 <= Zpos m100 < 2 ^ 53 ->
  -1074 <= eq + e100 -> eq + e100 <= 0 ->
  exists mp n,
    SFmul prec emax (S754_finite false mq eq) (S754_finite false m100 e100)
    = S754_finite false mp (eq + e100 + n)
    /\ 0 <= n <= 54
    /\ 2 ^ 52 <= Zpos mp < 2 ^ 53
    /\ 2 * (Zpos mp * 2 ^ n) - 2 ^ n <= 2 * (Zpos mq * Zpos m100)
       <= 2 * (Zpos mp * 2 ^ n) + 2 ^ n.
Proof.
  intros Hmq Hm100 Hlo Hhi. unfold SFmul. cbn [xorb]. rewrite Pos2Z.inj_mul.
  assert (H52 : 2 ^ 52 = 4503599627370496) by reflexivity.
  assert (H53 : 2 ^ 53 = 9007199254740992) by reflexivity.
  assert (H106 : 2 ^ 106 = 9007199254740992 * 9007199254740992) by reflexivity.
  destruct (binary_round_aux_spec (Zpos mq * Zpos m100) (eq + e100)
              (Zpos mq * Zpos m100) 1 106 loc_Exact) as [mp [n [E [Hn [Hmp Hb]]]]].
  - rewrite H52, H53, H106 in *. split; nia.
  - unfold located. cbn [shr_record_of_loc shr_m shr_r shr_s]. lia.
  - exact Hlo.
  - lia.
  - exists mp, n. split; [exact E|]. split; [lia|]. split; [exact Hmp|].
    rewrite !Z.mul_1_r in Hb. exact Hb.
Qed.


(** ** The percentage against the exact quotient *)

Lemma num_100 :
  Prim2SF (num 100) = S754_finite false (Z.to_pos (100 * 2 ^ 46)) (-46).
Proof. vm_compute. reflexivity. Qed.

Lemma percent_zero (D : Z) : 1 <= D < 2 ^ 53 -> Roadmap.percent 0 D = Some 0.
Proof.
  intros HD. destruct (num_spec D HD) as [mD [kD [ED _]]].
  unfold Roadmap.percent, Math_round. rewrite mul_spec, div_spec, ED, num_100.
  reflexivity.
Qed.

Lemma round_of_bounds (V U R : Z) : 0 < U -> U * R <= V < U * (R + 1) -> V / U = R.
Proof.
  intros HU H. symmetry. apply (Z.div_unique V U R (V - U * R)); lia.
Qed.

Lemma no_tie_bounds (U V G R WD X2 X200 Y W : Z) :
  0 < G -> U * G = 2 * WD -> V * G = X2 + WD ->
  X200 - Y <= X2 <= X200 + Y -> Y < W ->
  2 * WD * R + W <= X200 + WD -> X200 + WD <= 2 * WD * (R + 1) - W ->
  U * R <= V < U * (R + 1).
Proof.
  intros HG EU EV HX HY Hlo Hhi. split.
  - apply (proj2 (Z.mul_le_mono_pos_r _ _ G HG)).
    replace (U * R * G) with (U * G * R) by ring. rewrite EU, EV. lia.
  - apply (proj2 (Z.mul_lt_mono_pos_r G _ _ HG)).
    replace (U * (R + 1) * G) with (U * G * (R + 1)) by ring. rewrite EU, EV. lia.
Qed.

Lemma tie_bounds (U V G R WD X2 X200 Y : Z) :
  0 < G -> U * G = 2 * WD -> V * G = X2 + WD ->
  X200 - Y <= X2 <= X200 + Y -> Y < 2 * WD ->
  X200 + WD = 2 * WD * R ->
  U * (R - 1) <= V < U * (R + 1).
Proof.
  intros HG EU EV HX HY E. split.
  - apply (proj2 (Z.mul_le_mono_pos_r _ _ G HG)).
    replace (U * (R - 1) * G) with (U * G * (R - 1)) by ring. rewrite EU, EV. lia.
  - apply (proj2 (Z.mul_lt_mono_pos_r G _ _ HG)).
    replace (U * (R + 1) * G) with (U * G * (R + 1)) by ring. rewrite EU, EV. lia.
Qed.

Lemma percent_close (s D : Z) :
  0 <= s <= D -> 1 <= D <= 2 ^ 42 ->
  Roadmap.percent s D = Some (Roadmap.spec_relevance s D)
  \/ (Roadmap.halfway s D = true
      /\ Roadmap.percent s D = Some (Roadmap.spec_relevance s D - 1)).
Proof.
  intros Hs HD.
  assert (H42 : 2 ^ 42 = 4398046511104) by reflexivity.
  assert (H52 : 2 ^ 52 = 4503599627370496) by reflexivity.
  assert (H53 : 2 ^ 53 = 9007199254740992) by reflexivity.
  assert (H54 : 2 ^ 54 = 18014398509481984) by reflexivity.
  destruct (Z.eq_dec s 0) as [->|Hs0].
  { left. rewrite percent_zero by lia. unfold Roadmap.spec_relevance, Roadmap.roundHalfUp.
    f_equal. symmetry. apply Z.div_small. lia. }
  destruct (num_spec s ltac:(lia)) as [ms [ks [Es [Hks0 [Vs Bs]]]]].
  destruct (num_spec D ltac:(lia)) as [mD [kD [ED [HkD0 [VD BD]]]]].
  assert (Hpks : 0 < 2 ^ ks) by (apply Z.pow_pos_nonneg; lia).
  assert (HpkD : 0 < 2 ^ kD) by (apply Z.pow_pos_nonneg; lia).
  (* the exponents *)
  assert (Hkk : kD <= ks).
  { destruct (Z_le_gt_dec kD ks) as [H|H]; [exact H|]. exfalso.
    assert (2 ^ (ks + 1) <= 2 ^ kD) as X by (apply Z.pow_le_mono_r; lia).
    rewrite Z.pow_add_r, Z.pow_1_r in X by lia.
    assert (s * 2 ^ kD <= D * 2 ^ kD) by (apply Z.mul_le_mono_nonneg_r; lia).
    assert (s * (2 ^ ks * 2) <= s * 2 ^ kD) by (apply Z.mul_le_mono_nonneg_l; lia).
    lia. }
  assert (Hks52 : ks <= 52).
  { destruct (Z_le_gt_dec ks 52) as [H|H]; [exact H|]. exfalso.
    assert (2 ^ 53 <= 2 ^ ks) as X by (apply Z.pow_le_mono_r; lia).
    assert (1 * 2 ^ ks <= s * 2 ^ ks) by (apply Z.mul_le_mono_nonneg_r; lia).
    lia. }
  set (t := ks - kD).
  assert (Ht : 0 <= t) by (unfold t; lia).
  assert (Ept : 2 ^ ks = 2 ^ kD * 2 ^ t).
  { unfold t. rewrite <- Z.pow_add_r by lia. f_equal. lia. }
  assert (Hpt : 0 < 2 ^ t) by (apply Z.pow_pos_nonneg; lia).
  (* the quotient *)
  destruct (SFdiv_spec ms mD ks kD Bs BD ltac:(lia) Hks52)
    as [mq [n1 [Eq [Hn1 [Bq Qb]]]]].
  (* the product *)
  assert (B100 : 2 ^ 52 <= Zpos (Z.to_pos (100 * 2 ^ 46)) < 2 ^ 53)
    by (vm_compute; split; [discriminate | reflexivity]).
  destruct (SFmul_spec mq (Z.to_pos (100 * 2 ^ 46)) (kD - ks - 53 + n1) (-46) Bq B100
              ltac:(lia) ltac:(lia)) as [mp [n2 [Ep [Hn2 [Bp Pb]]]]].
  change (Zpos (Z.to_pos (100 * 2 ^ 46))) with (100 * 2 ^ 46) in Pb.
  (* the rounded product *)
  set (k := t + 99 - n1 - n2).
  assert (Hk : 43 <= k) by (unfold k; lia).
  assert (Epct : Roadmap.percent s D = Some ((2 * Zpos mp + 2 ^ k) / 2 ^ (k + 1))).
  { unfold Roadmap.percent, Math_round.
    rewrite mul_spec, div_spec, Es, ED, num_100.
    unfold SF64mul, SF64div. rewrite Eq, Ep.
    replace (kD - ks - 53 + n1 + -46 + n2) with (- k) by (unfold k, t; lia).
    destruct k as [|kp|kp] eqn:Ekp; try lia. reflexivity. }
  rewrite Epct.
  set (a := 2 ^ n1) in *. set (b := 2 ^ n2) in *.
  assert (Ha : 1 <= a <= 4).
  { unfold a. split; [apply (Z.pow_le_mono_r 2 0 n1); lia|].
    change 4 with (2 ^ 2). apply Z.pow_le_mono_r; lia. }
  assert (Hb : 1 <= b <= 2 ^ 54).
  { unfold b. split; [apply (Z.pow_le_mono_r 2 0 n2); lia|].
    apply Z.pow_le_mono_r; lia. }
  set (W := 2 ^ (t + 99)).
  assert (HW : W = 2 ^ k * (a * b)).
  { unfold W, a, b. rewrite <- !Z.pow_add_r by lia. f_equal. unfold k. lia. }
  assert (HW99 : 2 ^ 99 <= W) by (unfold W; apply Z.pow_le_mono_r; lia).
  assert (HWt : W = 2 ^ t * (2 ^ 53 * 2 ^ 46)).
  { unfold W. rewrite <- !Z.pow_add_r by lia. f_equal; lia. }
  assert (Hpk : 0 < 2 ^ k) by (apply Z.pow_pos_nonneg; lia).
  set (mq' := Zpos mq) in *. set (mp' := Zpos mp) in *.
  set (ms' := Zpos ms) in *. set (mD' := Zpos mD) in *.
  (* the error of the product against 100 * s / D, scaled by W * D *)
  assert (EmsD : ms' * D = s * 2 ^ t * mD').
  { rewrite Vs, VD, Ept. ring. }
  set (Y := a * D * (100 * 2 ^ 46 + b)).
  assert (HY : Y < W).
  { assert (Y <= 4 * 2 ^ 42 * (100 * 2 ^ 46 + 2 ^ 54)).
    { unfold Y. apply Z.mul_le_mono_nonneg; try lia.
      apply Z.mul_le_mono_nonneg; lia. }
    assert (4 * 2 ^ 42 * (100 * 2 ^ 46 + 2 ^ 54) < 2 ^ 99) by reflexivity.
    lia. }
  assert (Herr : 200 * (s * W) - Y <= 2 * (mp' * (a * b) * D) <= 200 * (s * W) + Y).
  { assert (Q1 : 2 * (mq' * a * (100 * 2 ^ 46) * D) * mD' - a * (100 * 2 ^ 46) * D * mD'
                 <= 200 * (s * W) * mD'
                 <= 2 * (mq' * a * (100 * 2 ^ 46) * D) * mD' + a * (100 * 2 ^ 46) * D * mD').
    { assert (200 * (s * W) * mD' = 2 * (ms' * 2 ^ 53) * (D * (100 * 2 ^ 46))) as ->.
      { rewrite HWt.
        replace (2 * (ms' * 2 ^ 53) * (D * (100 * 2 ^ 46)))
          with (200 * (ms' * D) * (2 ^ 53 * 2 ^ 46)) by ring.
        rewrite EmsD. ring. }
      assert (0 <= D * (100 * 2 ^ 46)) as Hpos by lia.
      destruct Qb as [Ql Qu].
      apply (Z.mul_le_mono_nonneg_r _ _ _ Hpos) in Ql.
      apply (Z.mul_le_mono_nonneg_r _ _ _ Hpos) in Qu.
      split; [eapply Z.le_trans; [|exact Ql] | eapply Z.le_trans; [exact Qu|]];
        apply Z.eq_le_incl; ring. }
    assert (Q2 : 2 * (mq' * a * (100 * 2 ^ 46) * D) - a * (100 * 2 ^ 46) * D
                 <= 200 * (s * W)
                 <= 2 * (mq' * a * (100 * 2 ^ 46) * D) + a * (100 * 2 ^ 46) * D).
    { assert (HmD : 0 < mD') by (unfold mD'; lia).
      destruct Q1 as [Q1l Q1u]. split.
      - apply (proj2 (Z.mul_le_mono_pos_r _ _ mD' HmD)).
        eapply Z.le_trans; [|exact Q1l]. apply Z.eq_le_incl; ring.
      - apply (proj2 (Z.mul_le_mono_pos_r _ _ mD' HmD)).
        eapply Z.le_trans; [exact Q1u|]. apply Z.eq_le_incl; ring. }
    assert (P2 : 2 * (mp' * (a * b) * D) - a * b * D
                 <= 2 * (mq' * a * (100 * 2 ^ 46) * D)
                 <= 2 * (mp' * (a * b) * D) + a * b * D).
    { assert (0 <= a * D) as Hpos by lia.
      destruct Pb as [Pl Pu].
      apply (Z.mul_le_mono_nonneg_r _ _ _ Hpos) in Pl.
      apply (Z.mul_le_mono_nonneg_r _ _ _ Hpos) in Pu.
      split; [eapply Z.le_trans; [|eapply Z.le_trans; [exact Pl|]]
             | eapply Z.le_trans; [|eapply Z.le_trans; [exact Pu|]]];
        apply Z.eq_le_incl; ring. }
    assert (EY : Y = a * (100 * 2 ^ 46) * D + a * b * D) by (unfold Y; ring).
    lia. }
  (* the two roundings *)
  unfold Roadmap.spec_relevance, Roadmap.roundHalfUp, Roadmap.halfway.
  set (A := 2 * (100 * s) + D). set (R := A / (2 * D)).
  pose proof (Z.div_mod A (2 * D) ltac:(lia)) as HA.
  pose proof (Z.mod_pos_bound A (2 * D) ltac:(lia)) as HAm.
  fold R in HA.
  set (G := a * b * D).
  assert (HG : 0 < G) by (unfold G; apply Z.mul_pos_pos; [apply Z.mul_pos_pos|]; lia).
  set (V := 2 * mp' + 2 ^ k). set (U := 2 ^ (k + 1)).
  assert (HU : U = 2 * 2 ^ k) by (unfold U; rewrite Z.pow_add_r, Z.pow_1_r by lia; ring).
  assert (EUG : U * G = 2 * (W * D)) by (rewrite HU, HW; unfold G; ring).
  assert (EVG : V * G = 2 * (mp' * (a * b) * D) + W * D) by (unfold V; rewrite HW; unfold G; ring).
  assert (EWA : W * A = 200 * (s * W) + W * D) by (unfold A; ring).
  assert (HWpos : 0 < W) by lia.
  assert (EWD : W <= W * D).
  { replace W with (W * 1) at 1 by ring. apply Z.mul_le_mono_nonneg_l; lia. }
  clearbody V U G W A R. clear - HG EUG EVG EWA Herr HY HWpos EWD HA HAm HD.
  destruct (Z.eqb_spec (A mod (2 * D)) 0) as [Tie|NoTie].
  - (* a tie: the exact value is R - 1/2 *)
    assert (EWA' : 200 * (s * W) + W * D = 2 * (W * D) * R).
    { rewrite <- EWA. replace A with (2 * D * R) by lia. ring. }
    destruct (tie_bounds U V G R (W * D) _ _ Y HG EUG EVG Herr ltac:(lia) EWA')
      as [Hlow Hup].
    destruct (Z_lt_le_dec V (U * R)) as [C|C].
    + right. split; [reflexivity|]. f_equal. apply round_of_bounds; [lia|].
      replace (R - 1 + 1) with R by lia. lia.
    + left. f_equal. apply round_of_bounds; lia.
  - left. f_equal. apply round_of_bounds; [lia|].
    assert (HwA : W * (2 * D * R + 1) <= W * A <= W * (2 * D * R + 2 * D - 1)).
    { split; apply Z.mul_le_mono_nonneg_l; lia. }
    destruct HwA as [HwA1 HwA2].
    apply (no_tie_bounds U V G R (W * D) _ _ Y W HG EUG EVG Herr HY).
    + rewrite <- EWA. eapply Z.le_trans; [|exact HwA1]. apply Z.eq_le_incl; ring.
    + rewrite <- EWA. eapply Z.le_trans; [exact HwA2|]. apply Z.eq_le_incl; ring.
Qed.

End FloatFacts.

(* ================================================================== *)
(** * Properties of the roadmap and of the relevance badge *)
(* ================================================================== *)

Module RoadmapSpec.
Import JS JSFacts NumberFacts Catalog Roadmap.

(** ** The denominator *)

Lemma maxScore_email (useCases : list UseCase) :
  emailMaxScore useCases = maxScore useCases.
Proof. now destruct useCases. Qed.

Lemma maxScore_spec (useCases : list UseCase) :
  1 <= maxScore useCases
  /\ (forall uc, In uc useCases -> score uc <= maxScore useCases)
  /\ (maxScore useCases = 1
      \/ exists uc, In uc useCases /\ score uc = maxScore useCases).
Proof.
  destruct useCases as [|u l].
  - simpl. split; [lia|]. split; [contradiction | now left].
  - unfold maxScore, Math_max_spread. cbn [map app].
    set (xs := map score l ++ [1]).
    destruct (Math_max_ge (score u) xs) as [Hu Hxs].
    rewrite Forall_forall in Hxs.
    split; [apply Hxs, in_or_app; right; now left|].
    split.
    + intros uc [<-|Hin]; [exact Hu|].
      apply Hxs, in_or_app. left. now apply in_map.
    + destruct (Math_max_In (score u) xs) as [H|H].
      * right. exists u. split; [now left | exact H].
      * apply in_app_or in H. destruct H as [H|[H|[]]].
        -- apply in_map_iff in H. destruct H as [uc [E Huc]].
           right. exists uc. split; [now right | exact E].
        -- left. now rewrite <- H.
Qed.

(** A safe positive integer is 100% of itself. *)
Lemma percent_self (s : Z) : 1 <= s < 2 ^ 53 -> percent s s = Some 100.
Proof.
  intros Hs. destruct (num_positive_finite s Hs) as [m [e H]].
  unfold percent. rewrite (div_self _ _ _ H). vm_compute. reflexivity.
Qed.

Lemma relevanceBadgeHtml_clamped (s D : Z) :
  1 <= D -> relevanceBadgeHtml s D = percent s D.
Proof.
  intros H. unfold relevanceBadgeHtml, Math_max. simpl. now rewrite Z.max_l by lia.
Qed.

Lemma mapM_In {A B : Type} (f : A -> option B) (l : list A) (ys : list B) (y : B) :
  mapM f l = Some ys -> In y ys -> exists x, In x l /\ f x = Some y.
Proof.
  revert ys. induction l as [|x l IH]; intros ys; simpl.
  - intros [= <-] [].
  - destruct (f x) as [y0|] eqn:Fx; [|discriminate].
    destruct (mapM f l) as [ys0|]; [|discriminate].
    intros [= <-] [<-|Hin].
    + exists x. split; [now left | exact Fx].
    + destruct (IH ys0 eq_refl Hin) as [x' [Hx' Fx']]. exists x'. split; [now right | exact Fx'].
Qed.

Lemma In_emailLines (D : Z) (subUCs : list UseCase) (line : EmailLine) :
  In line (emailLines D subUCs) ->
  In (line_uc line) subUCs /\ line_pct line = relevanceBadgeHtml (score (line_uc line)) D.
Proof.
  unfold emailLines. intros H. apply in_app_or in H.
  destruct H as [H|H]; apply in_map_iff in H; destruct H as [uc [<- Huc]]; simpl;
    (split; [|reflexivity]); rewrite <- (firstn_skipn 3 subUCs); apply in_or_app; tauto.
Qed.

(** Every badge of the page is computed against [maxScore]. *)
Lemma pageRoadmap_badges (allUseCases : list UseCase) r ph gs sub lines uc pct :
  pageRoadmap allUseCases = Some r ->
  In (ph, gs) r -> In (sub, lines) gs -> In (uc, pct) lines ->
  pct = percent (score uc) (maxScore allUseCases).
Proof.
  unfold pageRoadmap. destruct (roadmap allUseCases) as [ps|]; [|discriminate].
  intros [= <-] Hp Hg Hl.
  apply in_map_iff in Hp. destruct Hp as [p [[= <- <-] _]].
  apply in_map_iff in Hg. destruct Hg as [g [[= <- <-] _]].
  apply in_map_iff in Hl. destruct Hl as [u [[= <- <-] _]].
  reflexivity.
Qed.

(** Every badge of the e-mail is computed against the same number. *)
Lemma buildEmailHtml_badges (useCases : list UseCase) r ph gs sub lines line :
  buildEmailHtml useCases = Some r ->
  In (ph, gs) r -> In (sub, lines) gs -> In line lines ->
  line_pct line = percent (score (line_uc line)) (maxScore useCases).
Proof.
  unfold buildEmailHtml. destruct (groupInto _ useCases empty) as [grouped|]; [|discriminate].
  destruct (mapM _ phaseOrder) as [blocks|] eqn:M; [|discriminate].
  intros [= <-] Hp Hg Hl. apply in_concat in Hp. destruct Hp as [block [Hb Hp]].
  destruct (mapM_In _ _ _ _ M Hb) as [k [_ Hk]]. unfold emailPhase in Hk.
  destruct (get grouped k) as [[|u phaseUCs]|]; try (injection Hk as <-; contradiction).
  destruct (groupInto subKey (u :: phaseUCs) empty) as [subGroups|]; [|discriminate].
  injection Hk as <-. destruct Hp as [[= <- <-]|[]].
  apply in_map_iff in Hg. destruct Hg as [g [[= <- <-] _]].
  apply In_emailLines in Hl. destruct Hl as [_ ->].
  rewrite maxScore_email. apply relevanceBadgeHtml_clamped, maxScore_spec.
Qed.

(** ** The grouping loop *)

Section GroupInto.
Variable keyOf : UseCase -> string.

Lemma get_groupInto (ucs : list UseCase) (groups0 groups : Record (list UseCase))
    (k : string) :
  groupInto keyOf ucs groups0 = Some groups ->
  get groups k =
  match membersOf keyOf k ucs with
  | [] => get groups0 k
  | l => Some (match get groups0 k with Some ms => ms | None => [] end ++ l)
  end.
Proof.
  revert groups0. induction ucs as [|uc ucs IH]; intros groups0; simpl.
  - now intros [= <-].
  - assert (Step : forall ms0,
               (match get groups0 (keyOf uc) with Some ms => ms | None => [] end) = ms0 ->
               groupInto keyOf ucs (set groups0 (keyOf uc) (ms0 ++ [uc])) = Some groups ->
               get groups k =
               match (if (keyOf uc =? k)%string then uc :: membersOf keyOf k ucs
                      else membersOf keyOf k ucs) with
               | [] => get groups0 k
               | l => Some (match get groups0 k with Some ms => ms | None => [] end ++ l)
               end).
    { intros ms0 E0 H. rewrite (IH _ H).
      destruct (keyOf uc =? k)%string eqn:E.
      - apply String.eqb_eq in E. rewrite <- E in *. rewrite get_set_same, E0.
        destruct (membersOf keyOf (keyOf uc) ucs); [reflexivity|].
        now rewrite <- app_assoc.
      - apply String.eqb_neq in E. now rewrite (get_set_other _ _ _ _ E). }
    unfold membersOf at 1. cbn [filter]. fold (membersOf keyOf k ucs).
    destruct (get groups0 (keyOf uc)) as [ms|] eqn:G.
    + intros H. exact (Step ms eq_refl H).
    + destruct (inherited (keyOf uc)); [discriminate|].
      intros H. exact (Step [] eq_refl H).
Qed.

Lemma keys_groupInto (ucs : list UseCase) (groups0 groups : Record (list UseCase)) :
  groupInto keyOf ucs groups0 = Some groups ->
  map fst groups = map fst groups0 ++ firstOccurrences (map fst groups0) (map keyOf ucs).
Proof.
  revert groups0. induction ucs as [|uc ucs IH]; intros groups0; simpl.
  - intros [= <-]. now rewrite app_nil_r.
  - destruct (get groups0 (keyOf uc)) as [ms|] eqn:G.
    + intros H. rewrite (IH _ H), keys_set, G.
      assert (In (keyOf uc) (map fst groups0)) as Hin.
      { destruct (in_dec string_dec (keyOf uc) (map fst groups0)) as [X|X]; [exact X|].
        apply get_None_not_In in X. congruence. }
      apply existsb_eqb_In in Hin. now rewrite Hin.
    + destruct (inherited (keyOf uc)); [discriminate|].
      intros H. rewrite (IH _ H), keys_set, G.
      assert (existsb (String.eqb (keyOf uc)) (map fst groups0) = false) as ->.
      { apply get_None_not_In in G. destruct (existsb _ _) eqn:E; [|reflexivity].
        apply existsb_eqb_In in E. contradiction. }
      now rewrite <- app_assoc.
Qed.

Lemma NoDup_keys_groupInto (ucs : list UseCase) (groups0 groups : Record (list UseCase)) :
  groupInto keyOf ucs groups0 = Some groups ->
  NoDup (map fst groups0) -> NoDup (map fst groups).
Proof.
  revert groups0. induction ucs as [|uc ucs IH]; intros groups0; simpl.
  - now intros [= <-].
  - destruct (get groups0 (keyOf uc)) as [ms|].
    + intros H Hnd. apply (IH _ H). now apply NoDup_keys_set.
    + destruct (inherited (keyOf uc)); [discriminate|].
      intros H Hnd. apply (IH _ H). now apply NoDup_keys_set.
Qed.

(** The loop completes when no key names an inherited member. *)
Lemma groupInto_completes (ucs : list UseCase) (groups0 : Record (list UseCase)) :
  Forall (fun uc => inherited (keyOf uc) = false) ucs ->
  exists groups, groupInto keyOf ucs groups0 = Some groups.
Proof.
  revert groups0. induction ucs as [|uc ucs IH]; intros groups0 H; simpl.
  - now exists groups0.
  - inversion H as [|? ? Huc Hucs]; subst. rewrite Huc.
    destruct (get groups0 (keyOf uc)); now apply IH.
Qed.

(** Started from the empty object, the loop yields one entry per key that
    occurs, holding the use cases of that key in their order. *)
Lemma In_groupInto (ucs : list UseCase) (groups : Record (list UseCase))
    (k : string) (members : list UseCase) :
  groupInto keyOf ucs empty = Some groups ->
  In (k, members) groups <-> members = membersOf keyOf k ucs /\ members <> [].
Proof.
  intros H. pose proof (get_groupInto ucs empty groups k H) as G. simpl in G.
  pose proof (NoDup_keys_groupInto ucs empty groups H (NoDup_nil _)) as Hnd.
  split.
  - intros Hin. apply (In_get_Some _ _ _ Hnd) in Hin. rewrite Hin in G.
    destruct (membersOf keyOf k ucs); [discriminate|]. injection G as ->.
    split; [reflexivity | discriminate].
  - intros [-> Hne]. apply get_Some_In. rewrite G.
    destruct (membersOf keyOf k ucs); [congruence | reflexivity].
Qed.

End GroupInto.

(** ** The roadmap of the results page *)

Lemma byGroupMaxDesc_sorted (l : list (string * list UseCase)) :
  StronglySorted
    (fun a b => Math_max_spread (map score (snd b)) <= Math_max_spread (map score (snd a)))
    (Array_sort byGroupMaxDesc l).
Proof.
  apply (ScoringFacts.StronglySorted_impl (precedes byGroupMaxDesc)).
  - unfold precedes, byGroupMaxDesc. intros x y. lia.
  - apply Array_sort_sorted; unfold precedes, byGroupMaxDesc; intros; lia.
Qed.

Lemma nonempty_filter {A : Type} (p : A -> bool) (l : list A) :
  (0 <? List.length (filter p l))%nat = existsb p l.
Proof.
  induction l as [|x l IH]; [reflexivity|]. simpl. destruct (p x); [reflexivity | exact IH].
Qed.

Lemma roadmapPhase_spec (allUseCases : list UseCase) (ph : Phase) (p : PhaseGroup) :
  roadmapPhase allUseCases ph = Some p ->
  phase p = ph
  /\ total p = List.length (filter (inPhase (key ph)) allUseCases)
  /\ StronglySorted
       (fun a b => Math_max_spread (map score (snd b)) <= Math_max_spread (map score (snd a)))
       (groups p)
  /\ (forall sub members,
        In (sub, members) (groups p) <->
        members = membersOf subKey sub (filter (inPhase (key ph)) allUseCases)
        /\ members <> []).
Proof.
  unfold roadmapPhase.
  destruct (groupInto subKey (filter (inPhase (key ph)) allUseCases) empty) as [g|] eqn:G;
    [|discriminate].
  intros [= <-]. cbn [phase total groups].
  split; [reflexivity|]. split; [reflexivity|]. split; [apply byGroupMaxDesc_sorted|].
  intros sub members. rewrite In_Array_sort, In_Object_entries.
  now apply In_groupInto.
Qed.

Lemma roadmap_keys (allUseCases : list UseCase) (l : list Phase) (ps : list PhaseGroup) :
  mapM (roadmapPhase allUseCases) l = Some ps ->
  map (fun p => key (phase p)) (filter (fun p => (0 <? total p)%nat) ps)
  = filter (fun k => existsb (inPhase k) allUseCases) (map key l).
Proof.
  revert ps. induction l as [|ph l IH]; intros ps; simpl.
  - now intros [= <-].
  - destruct (roadmapPhase allUseCases ph) as [p|] eqn:P; [|discriminate].
    destruct (mapM (roadmapPhase allUseCases) l) as [ps'|]; [|discriminate].
    intros [= <-]. destruct (roadmapPhase_spec _ _ _ P) as [Hph [Htot _]].
    assert (Hc : (0 <? total p)%nat = existsb (inPhase (key ph)) allUseCases)
      by (rewrite Htot; apply nonempty_filter).
    cbn [filter map]. rewrite Hc.
    destruct (existsb (inPhase (key ph)) allUseCases); cbn [map];
      rewrite (IH ps' eq_refl), ?Hph; reflexivity.
Qed.

Lemma roadmap_groups (allUseCases : list UseCase) (r : list PhaseGroup) (p : PhaseGroup) :
  roadmap allUseCases = Some r -> In p r ->
  (0 < total p)%nat
  /\ total p = List.length (filter (inPhase (key (phase p))) allUseCases)
  /\ StronglySorted
       (fun a b => Math_max_spread (map score (snd b)) <= Math_max_spread (map score (snd a)))
       (groups p)
  /\ (forall sub members,
        In (sub, members) (groups p) <->
        members = membersOf subKey sub (filter (inPhase (key (phase p))) allUseCases)
        /\ members <> []).
Proof.
  unfold roadmap. destruct (mapM (roadmapPhase allUseCases) phases) as [ps|] eqn:M;
    [|discriminate].
  intros [= <-] Hp. apply filter_In in Hp. destruct Hp as [Hp Hpos].
  destruct (mapM_In _ _ _ _ M Hp) as [ph [_ Hph]].
  destruct (roadmapPhase_spec _ _ _ Hph) as [E [Htot [Hsorted Hmem]]]. subst ph.
  split; [now apply Nat.ltb_lt|]. split; [exact Htot|]. split; [exact Hsorted | exact Hmem].
Qed.

(** The page lists the phases that hold a use case, in the order A, B, C;
    within a phase the sub-category groups are in descending order of
    their highest score, and a group holds the use cases of its
    sub-category in the order of the result list. *)
Theorem roadmap_structure (allUseCases : list UseCase) (r : list PhaseGroup) :
  roadmap allUseCases = Some r ->
  map (fun p => key (phase p)) r
  = filter (fun k => existsb (inPhase k) allUseCases) ["A"; "B"; "C"]
  /\ (forall p, In p r ->
        (0 < total p)%nat
        /\ total p = List.length (filter (inPhase (key (phase p))) allUseCases)
        /\ StronglySorted
             (fun a b => Math_max_spread (map score (snd b))
                         <= Math_max_spread (map score (snd a)))
             (groups p)
        /\ (forall sub members,
              In (sub, members) (groups p) <->
              members = membersOf subKey sub (filter (inPhase (key (phase p))) allUseCases)
              /\ members <> [])).
Proof.
  intros Hr. split.
  - unfold roadmap in Hr.
    destruct (mapM (roadmapPhase allUseCases) phases) as [ps|] eqn:M; [|discriminate].
    injection Hr as <-. exact (roadmap_keys _ _ _ M).
  - intros p Hp. exact (roadmap_groups _ _ _ Hr Hp).
Qed.

Lemma roadmap_structure_witness :
  map (fun p => key (phase p))
      [ {| phase := {| key := "A"; label := "Phase 1: Quick Wins" |};
           groups := [("Data", [O3; O5]); ("Security", [O4])];
           total := 3 |} ]
  = filter (fun k => existsb (inPhase k) [O3; O4; O5]) ["A"; "B"; "C"].
Proof.
  apply (roadmap_structure [O3; O4; O5]). reflexivity.
Defined.

(** ** The roadmap of the e-mail *)

Lemma existsb_membersOf (keyOf : UseCase -> string) (k : string) (ucs : list UseCase) :
  existsb (fun uc => (keyOf uc =? k)%string) ucs
  = match membersOf keyOf k ucs with [] => false | _ => true end.
Proof.
  unfold membersOf. induction ucs as [|uc ucs IH]; [reflexivity|]. simpl.
  destruct (keyOf uc =? k)%string; [reflexivity | exact IH].
Qed.

Lemma map_line_uc_emailLines (D : Z) (subUCs : list UseCase) :
  map line_uc (emailLines D subUCs) = subUCs.
Proof.
  unfold emailLines. rewrite map_app, !map_map. cbn [line_uc].
  rewrite !map_id. apply firstn_skipn.
Qed.

(** What one round of the phase loop appends. *)
Lemma emailPhase_spec (D : Z) (useCases : list UseCase)
    (grouped : Record (list UseCase)) (k : string)
    (block : list (string * list (string * list EmailLine))) :
  groupInto phaseKeyOf useCases empty = Some grouped ->
  emailPhase D grouped k = Some block ->
  (membersOf phaseKeyOf k useCases = [] /\ block = [])
  \/ (membersOf phaseKeyOf k useCases <> []
      /\ exists subGroups,
           groupInto subKey (membersOf phaseKeyOf k useCases) empty = Some subGroups
           /\ block = [(k, map (fun g => (fst g, emailLines D (snd g)))
                               (Object_entries subGroups))]).
Proof.
  intros G. unfold emailPhase. rewrite (get_groupInto _ _ _ _ k G). simpl.
  destruct (membersOf phaseKeyOf k useCases) as [|u l] eqn:E.
  - intros [= <-]. now left.
  - destruct (groupInto subKey (u :: l) empty) as [subGroups|]; [|discriminate].
    intros [= <-]. right. split; [discriminate|]. now exists subGroups.
Qed.

Lemma email_keys (D : Z) (useCases : list UseCase) (grouped : Record (list UseCase))
    (l : list string) (blocks : list (list (string * list (string * list EmailLine)))) :
  groupInto phaseKeyOf useCases empty = Some grouped ->
  mapM (emailPhase D grouped) l = Some blocks ->
  map fst (List.concat blocks)
  = filter (fun k => existsb (fun uc => (phaseKeyOf uc =? k)%string) useCases) l.
Proof.
  intros G. revert blocks. induction l as [|k l IH]; intros blocks; simpl.
  - now intros [= <-].
  - destruct (emailPhase D grouped k) as [block|] eqn:P; [|discriminate].
    destruct (mapM (emailPhase D grouped) l) as [blocks'|]; [|discriminate].
    intros [= <-]. cbn [List.concat]. rewrite map_app, (IH blocks' eq_refl).
    rewrite existsb_membersOf.
    destruct (emailPhase_spec _ _ _ _ _ G P) as [[-> ->]|[Hne [sg [_ ->]]]].
    + reflexivity.
    + destruct (membersOf phaseKeyOf k useCases); [congruence | reflexivity].
Qed.

Lemma email_blocks (useCases : list UseCase)
    (r : list (string * list (string * list EmailLine)))
    (ph : string) (gs : list (string * list EmailLine)) :
  buildEmailHtml useCases = Some r -> In (ph, gs) r ->
  (forall sub lines,
      In (sub, lines) gs <->
      lines = emailLines (maxScore useCases)
                (membersOf subKey sub (membersOf phaseKeyOf ph useCases))
      /\ lines <> [])
  /\ (Forall (fun uc => is_index (subKey uc) = false) useCases ->
      map fst gs = firstOccurrences [] (map subKey (membersOf phaseKeyOf ph useCases))).
Proof.
  unfold buildEmailHtml.
  destruct (groupInto phaseKeyOf useCases empty) as [grouped|] eqn:G; [|discriminate].
  destruct (mapM _ phaseOrder) as [blocks|] eqn:M; [|discriminate].
  intros [= <-] Hin. apply in_concat in Hin. destruct Hin as [block [Hb Hin]].
  destruct (mapM_In _ _ _ _ M Hb) as [k [_ Hk]].
  destruct (emailPhase_spec _ _ _ _ _ G Hk) as [[_ ->]|[Hne [sg [Hsg ->]]]]; [contradiction|].
  destruct Hin as [[= <- <-]|[]]. rewrite maxScore_email. split.
  - intros sub lines. rewrite in_map_iff. split.
    + intros [[sub' members] [[= <- <-] Hg]]. apply (proj1 (In_Object_entries _ _)) in Hg.
      apply (proj1 (In_groupInto _ _ _ _ _ Hsg)) in Hg. destruct Hg as [-> Hmem].
      split; [reflexivity|]. intros E.
      apply (f_equal (map line_uc)) in E. rewrite map_line_uc_emailLines in E.
      simpl in E. contradiction.
    + intros [-> Hlines].
      exists (sub, membersOf subKey sub (membersOf phaseKeyOf k useCases)).
      split; [reflexivity|].
      apply (proj2 (In_Object_entries _ _)), (proj2 (In_groupInto _ _ _ _ _ Hsg)).
      split; [reflexivity|]. intros E. rewrite E in Hlines. now apply Hlines.
  - intros Hidx. rewrite map_map.
    rewrite (map_ext _ fst) by reflexivity.
    rewrite Object_entries_creation_order.
    + now rewrite (keys_groupInto _ _ _ _ Hsg).
    + rewrite (keys_groupInto _ _ _ _ Hsg). simpl. apply Forall_forall. intros x Hx.
      apply In_firstOccurrences, in_map_iff in Hx. destruct Hx as [uc [<- Huc]].
      unfold membersOf in Huc. apply filter_In in Huc.
      rewrite Forall_forall in Hidx. now apply Hidx.
Qed.

(** The e-mail lists the phases that hold a use case, in the order A, B,
    C, a use case without phase counting for B; a sub-category block holds
    the use cases of its sub-category in the order of the result list; the
    blocks of a phase follow the key order of [Object.entries], which is
    the order of first appearance when no sub-category is named by an
    array index. *)
Theorem email_structure (useCases : list UseCase)
    (r : list (string * list (string * list EmailLine))) :
  buildEmailHtml useCases = Some r ->
  map fst r
  = filter (fun k => existsb (fun uc => (phaseKeyOf uc =? k)%string) useCases)
           ["A"; "B"; "C"]
  /\ (forall uc, engagement_category uc = None -> phaseKeyOf uc = "B")
  /\ (forall ph gs, In (ph, gs) r ->
        (forall sub lines,
            In (sub, lines) gs <->
            lines = emailLines (maxScore useCases)
                      (membersOf subKey sub (membersOf phaseKeyOf ph useCases))
            /\ lines <> [])
        /\ (Forall (fun uc => is_index (subKey uc) = false) useCases ->
            map fst gs
            = firstOccurrences [] (map subKey (membersOf phaseKeyOf ph useCases)))).
Proof.
  intros Hr. split; [|split].
  - unfold buildEmailHtml in Hr.
    destruct (groupInto phaseKeyOf useCases empty) as [grouped|] eqn:G; [|discriminate].
    destruct (mapM _ phaseOrder) as [blocks|] eqn:M; [|discriminate].
    injection Hr as <-. exact (email_keys _ _ _ _ _ G M).
  - intros uc E. unfold phaseKeyOf. now rewrite E.
  - intros ph gs Hin. exact (email_blocks _ _ _ _ Hr Hin).
Qed.

Lemma email_structure_witness :
  map fst [ ("A", [ ("Data", emailLines 10 [O3; O5]); ("Security", emailLines 10 [O4]) ]) ]
  = filter (fun k => existsb (fun uc => (phaseKeyOf uc =? k)%string) [O3; O4; O5])
           ["A"; "B"; "C"].
Proof.
  apply (email_structure [O3; O4; O5]). vm_compute. reflexivity.
Defined.

(** ** Groups of a list in descending score order *)

Lemma Math_max_head (x : Z) (xs : list Z) :
  Forall (fun y => y <= x) xs -> Math_max x xs = x.
Proof.
  unfold Math_max. induction 1 as [|y xs Hy _ IH]; simpl; [reflexivity|].
  now rewrite Z.max_l by lia.
Qed.

Lemma Math_max_spread_le (b : Z) (l : list Z) :
  l <> [] -> Forall (fun y => y <= b) l -> Math_max_spread l <= b.
Proof.
  destruct l as [|x xs]; [congruence|]. intros _ H.
  inversion H as [|? ? Hx Hxs]; subst. unfold Math_max_spread.
  destruct (Math_max_In x xs) as [<-|Hin]; [exact Hx|].
  rewrite Forall_forall in Hxs. now apply Hxs.
Qed.

Lemma firstOccurrences_not_seen (seen l : list string) (k : string) :
  In k (firstOccurrences seen l) -> ~ In k seen.
Proof.
  revert seen. induction l as [|x l IH]; intros seen; simpl; [tauto|].
  destruct (existsb (String.eqb x) seen) eqn:E.
  - apply IH.
  - intros [<-|H].
    + intros Hin. apply existsb_eqb_In in Hin. congruence.
    + intros Hin. apply (IH _ H). apply in_or_app. now left.
Qed.

Lemma StronglySorted_ext_in {A : Type} (R S : A -> A -> Prop) (l : list A) :
  (forall x y, In x l -> In y l -> R x y -> S x y) ->
  StronglySorted R l -> StronglySorted S l.
Proof.
  intros H Hs. induction Hs as [|x l Hl IH Hx]; constructor.
  - apply IH. intros a b Ha Hb. apply H; now right.
  - rewrite Forall_forall in *. intros y Hy. apply H; [now left | now right | now apply Hx].
Qed.

Lemma StronglySorted_map {A B : Type} (f : A -> B) (R : B -> B -> Prop) (l : list A) :
  StronglySorted R (map f l) -> StronglySorted (fun a b => R (f a) (f b)) l.
Proof.
  induction l as [|x l IH]; simpl; intros H; [constructor|].
  inversion H as [|? ? Hl Hx]; subst. constructor; [now apply IH|].
  rewrite Forall_forall in *. intros y Hy. apply Hx. now apply in_map.
Qed.

Lemma StronglySorted_filter {A : Type} (R : A -> A -> Prop) (p : A -> bool) (l : list A) :
  StronglySorted R l -> StronglySorted R (filter p l).
Proof.
  induction 1 as [|x l Hl IH Hx]; simpl; [constructor|].
  destruct (p x); [|exact IH]. constructor; [exact IH|].
  rewrite Forall_forall in *. intros y Hy. apply filter_In in Hy. now apply Hx.
Qed.

Section GroupsDescending.
Variable keyOf : UseCase -> string.

Lemma groupMax_other (x : UseCase) (ucs : list UseCase) (k : string) :
  keyOf x <> k -> groupMax keyOf k (x :: ucs) = groupMax keyOf k ucs.
Proof.
  intros H. unfold groupMax, membersOf. simpl.
  apply String.eqb_neq in H. now rewrite H.
Qed.

Lemma groupMax_bound (ucs : list UseCase) (k : string) (b : Z) :
  In k (map keyOf ucs) -> Forall (fun u => score u <= b) ucs ->
  groupMax keyOf k ucs <= b.
Proof.
  intros Hk Hb. unfold groupMax. apply Math_max_spread_le.
  - apply in_map_iff in Hk. destruct Hk as [u [E Hu]].
    assert (In u (membersOf keyOf k ucs)) as Hin.
    { unfold membersOf. apply filter_In. split; [exact Hu | now apply String.eqb_eq]. }
    intros N. apply (f_equal (@List.length Z)) in N. rewrite length_map in N.
    destruct (membersOf keyOf k ucs); [contradiction | discriminate].
  - rewrite Forall_forall in *. intros y Hy. apply in_map_iff in Hy.
    destruct Hy as [u [<- Hu]]. unfold membersOf in Hu. apply filter_In in Hu.
    now apply Hb.
Qed.

(** In a list in descending score order, the keys in their order of first
    appearance are in descending order of their highest score. *)
Lemma firstOccurrences_by_groupMax (ucs : list UseCase) (seen : list string) :
  StronglySorted (fun a b => score b <= score a) ucs ->
  StronglySorted (fun k1 k2 => groupMax keyOf k2 ucs <= groupMax keyOf k1 ucs)
                 (firstOccurrences seen (map keyOf ucs)).
Proof.
  intros Hs. revert seen. induction Hs as [|x ucs Hucs IH Hx]; intros seen; simpl;
    [constructor|].
  assert (Hrest : forall seen',
             In (keyOf x) seen' ->
             StronglySorted
               (fun k1 k2 => groupMax keyOf k2 (x :: ucs) <= groupMax keyOf k1 (x :: ucs))
               (firstOccurrences seen' (map keyOf ucs))).
  { intros seen' Hseen. eapply StronglySorted_ext_in; [|apply (IH seen')].
    intros k1 k2 H1 H2 H.
    assert (forall k, In k (firstOccurrences seen' (map keyOf ucs)) -> keyOf x <> k) as Hne.
    { intros k Hk E. subst k. exact (firstOccurrences_not_seen _ _ _ Hk Hseen). }
    now rewrite !groupMax_other by (apply Hne; assumption). }
  destruct (existsb (String.eqb (keyOf x)) seen) eqn:E.
  - apply Hrest. now apply existsb_eqb_In.
  - constructor.
    + apply Hrest. apply in_or_app. right. now left.
    + apply Forall_forall. intros k Hk.
      assert (keyOf x <> k) as Hne.
      { intros Ek. subst k. apply (firstOccurrences_not_seen _ _ _ Hk).
        apply in_or_app. right. now left. }
      rewrite (groupMax_other _ _ _ Hne).
      assert (groupMax keyOf (keyOf x) (x :: ucs) = score x) as ->.
      { unfold groupMax, membersOf. simpl. rewrite String.eqb_refl. simpl.
        apply Math_max_head. apply Forall_forall. intros y Hy.
        apply in_map_iff in Hy. destruct Hy as [u [<- Hu]]. apply filter_In in Hu.
        rewrite Forall_forall in Hx. now apply Hx. }
      apply groupMax_bound; [exact (In_firstOccurrences _ _ _ Hk) | exact Hx].
Qed.

End GroupsDescending.

(** When the result list is in descending score order and no sub-category
    is named by an array index, the sub-category blocks of every phase of
    the e-mail are in descending order of their highest score. *)
Theorem email_groups_descending (useCases : list UseCase)
    (r : list (string * list (string * list EmailLine))) :
  buildEmailHtml useCases = Some r ->
  StronglySorted (fun a b => score b <= score a) useCases ->
  Forall (fun uc => is_index (subKey uc) = false) useCases ->
  forall ph gs, In (ph, gs) r ->
    StronglySorted
      (fun a b => Math_max_spread (map score (map line_uc (snd b)))
                  <= Math_max_spread (map score (map line_uc (snd a))))
      gs.
Proof.
  intros Hr Hsorted Hidx ph gs Hin.
  destruct (email_blocks _ _ _ _ Hr Hin) as [Hmem Hkeys].
  specialize (Hkeys Hidx).
  pose proof (firstOccurrences_by_groupMax subKey (membersOf phaseKeyOf ph useCases) []
                (StronglySorted_filter _ _ _ Hsorted)) as S.
  rewrite <- Hkeys in S. apply StronglySorted_map in S.
  eapply StronglySorted_ext_in; [|exact S].
  intros [sub1 lines1] [sub2 lines2] H1 H2. cbn [fst snd].
  apply Hmem in H1. apply Hmem in H2. destruct H1 as [-> _]. destruct H2 as [-> _].
  now rewrite !map_line_uc_emailLines.
Qed.

Lemma email_groups_descending_witness :
  StronglySorted
    (fun a b => Math_max_spread (map score (map line_uc (snd b)))
                <= Math_max_spread (map score (map line_uc (snd a))))
    [ ("Data", emailLines 10 [O3; O5]); ("Security", emailLines 10 [O4]) ].
Proof.
  apply (email_groups_descending [O3; O4; O5]
           [("A", [ ("Data", emailLines 10 [O3; O5]); ("Security", emailLines 10 [O4]) ])]
           eq_refl) with (ph := "A").
  - repeat constructor; vm_compute; discriminate.
  - repeat constructor.
  - left. reflexivity.
Defined.

(** ** The scenarios *)

(** C1 -- for the rules (Q1, "Yes", O1, 5), (Q2, "X", O1, 2),
    (Q2, "Y", O2, 3) and the answers Q1 = "Yes", Q2 = ["X"; "Y"], the
    answers expand to three (question, value) pairs, O1 accumulates 7 and
    O2 accumulates 3, both pass the threshold 3, the output order is
    O1, O2, and the badges show 100 and 43 on the page and in the e-mail. *)
Theorem weighted_scenario :
  Scoring.pairs Scoring.scenario_responses = [("Q1", "Yes"); ("Q2", "X"); ("Q2", "Y")]
  /\ Scoring.MIN_SCORE = 3
  /\ get (Scoring.useCaseScores Scoring.scenario_responses Scoring.scenario_matrix) "O1"
     = Some 7
  /\ get (Scoring.useCaseScores Scoring.scenario_responses Scoring.scenario_matrix) "O2"
     = Some 3
  /\ Scoring.sortedEntries Scoring.scenario_responses Scoring.scenario_matrix
     = [("O1", 7); ("O2", 3)]
  /\ (let result :=
        Scoring.recommendedUseCases Scoring.scenario_catalog
          Scoring.scenario_responses Scoring.scenario_matrix in
      map (fun uc => (id uc, score uc)) result = [("O1", 7); ("O2", 3)]
      /\ map (fun uc => RelevanceBadge (score uc) (maxScore result)) result
         = [Some 100; Some 43]
      /\ map (fun uc => relevanceBadgeHtml (score uc) (emailMaxScore result)) result
         = [Some 100; Some 43]).
Proof.
  repeat split; vm_compute; reflexivity.
Qed.

(** C6, on the results page -- a use case whose phase was never set is in
    no phase group of the page: the page filters on
    [engagement_category === phase.key], which fails for [null].  For a
    scoring output that holds one such use case the roadmap of the page is
    empty, while the e-mail files the use case under B. *)
Theorem page_roadmap_drops_unphased :
  map (fun uc => (id uc, engagement_category uc, score uc)) unphased = [("U1", None, 5)]
  /\ roadmap unphased = Some []
  /\ pageRoadmap unphased = Some []
  /\ option_map
       (map (fun p => (fst p, map (fun g => (fst g, map (fun l => id (line_uc l)) (snd g)))
                                  (snd p))))
       (buildEmailHtml unphased)
     = Some [("B", [("APIs", ["U1"])])]
  /\ (forall allUseCases r p g uc,
        roadmap allUseCases = Some r -> In p r -> In g (groups p) -> In uc (snd g) ->
        engagement_category uc = Some (key (phase p))).
Proof.
  split; [reflexivity|]. split; [reflexivity|]. split; [reflexivity|].
  split; [vm_compute; reflexivity|].
  intros allUseCases r p [sub members] uc Hr Hp Hg Huc.
  destruct (roadmap_groups _ _ _ Hr Hp) as [_ [_ [_ Hmem]]].
  apply Hmem in Hg. destruct Hg as [-> _]. simpl in Huc.
  unfold membersOf in Huc. apply filter_In in Huc. destruct Huc as [Huc _].
  apply filter_In in Huc. destruct Huc as [_ Hphase]. unfold inPhase in Hphase.
  destruct (engagement_category uc) as [c|]; [|discriminate].
  apply String.eqb_eq in Hphase. now subst.
Qed.

(** C7, in the e-mail -- the sub-category blocks are emitted in the key
    order of [Object.entries], without the sort by highest score that the
    page applies.  For a scoring output with the sub-categories "7"
    (score 5) and "3" (score 4) the e-mail shows "3" first, the page "7".
    For the use cases O3, O4, O5 both show "Data" with O3, O5 and then
    "Security". *)
Theorem email_groups_in_key_order :
  map (fun uc => (id uc, sub_category uc, score uc)) numbered
  = [("N7", "7", 5); ("N3", "3", 4)]
  /\ option_map (map (fun p => (fst p, map fst (snd p)))) (buildEmailHtml numbered)
     = Some [("A", ["3"; "7"])]
  /\ option_map (map (fun p => (key (phase p), map fst (groups p)))) (roadmap numbered)
     = Some [("A", ["7"; "3"])]
  /\ option_map (map (fun p => (key (phase p), groups p))) (roadmap [O3; O4; O5])
     = Some [("A", [("Data", [O3; O5]); ("Security", [O4])])]
  /\ option_map
       (map (fun p => (fst p, map (fun g => (fst g, map line_uc (snd g))) (snd p))))
       (buildEmailHtml [O3; O4; O5])
     = Some [("A", [("Data", [O3; O5]); ("Security", [O4])])].
Proof.
  repeat split; vm_compute; reflexivity.
Qed.

(** ** The relevance percentage *)

Lemma pageRoadmap_member (allUseCases : list UseCase) r ph gs sub lines uc pct :
  pageRoadmap allUseCases = Some r ->
  In (ph, gs) r -> In (sub, lines) gs -> In (uc, pct) lines ->
  In uc allUseCases.
Proof.
  unfold pageRoadmap. destruct (roadmap allUseCases) as [ps|] eqn:Hr; [|discriminate].
  intros [= <-] Hp Hg Hl.
  apply in_map_iff in Hp. destruct Hp as [p [[= <- <-] Hp]].
  apply in_map_iff in Hg. destruct Hg as [g [[= <- <-] Hg]].
  apply in_map_iff in Hl. destruct Hl as [u [[= <- <-] Hu]].
  destruct (roadmap_groups _ _ _ Hr Hp) as [_ [_ [_ Hmem]]].
  destruct g as [k members]. apply Hmem in Hg. destruct Hg as [-> _].
  cbn [snd] in Hu. unfold membersOf in Hu.
  apply filter_In in Hu. destruct Hu as [Hu _].
  apply filter_In in Hu. now destruct Hu.
Qed.

Lemma buildEmailHtml_member (useCases : list UseCase) r ph gs sub lines line :
  buildEmailHtml useCases = Some r ->
  In (ph, gs) r -> In (sub, lines) gs -> In line lines ->
  In (line_uc line) useCases.
Proof.
  intros Hr Hp Hg Hl. destruct (email_blocks _ _ _ _ Hr Hp) as [Hmem _].
  apply Hmem in Hg. destruct Hg as [-> _]. apply In_emailLines in Hl.
  destruct Hl as [Hl _]. unfold membersOf in Hl.
  apply filter_In in Hl. destruct Hl as [Hl _].
  apply filter_In in Hl. now destruct Hl.
Qed.

(** C5, as the code has it -- the badge of an offering is computed
    against [D], the maximum score of the whole result set clamped to at
    least 1, the same number on the page and in the e-mail, in every phase
    and every sub-category.  For scores from 0 and a maximum of at most
    2^42 the badge is round(100 * score / D), unless 100 * score / D lies
    exactly halfway between two integers: there the binary64 value of
    [(score / D) * 100] can fall below the half, and the badge is that
    rounding or the integer below it.  A top-scoring offering whose score
    is a positive integer below 2^53 -- every scoring output, which holds
    scores of at least 3 -- shows exactly 100. *)
Theorem relevance_percentage (useCases : list UseCase) :
  emailMaxScore useCases = maxScore useCases
  /\ 1 <= maxScore useCases
  /\ (forall uc, In uc useCases -> score uc <= maxScore useCases)
  /\ (maxScore useCases = 1
      \/ exists uc, In uc useCases /\ score uc = maxScore useCases)
  /\ (forall r ph gs sub lines uc pct,
        pageRoadmap useCases = Some r ->
        In (ph, gs) r -> In (sub, lines) gs -> In (uc, pct) lines ->
        0 <= score uc -> maxScore useCases <= 2 ^ 42 ->
        pct = Some (spec_relevance (score uc) (maxScore useCases))
        \/ (halfway (score uc) (maxScore useCases) = true
            /\ pct = Some (spec_relevance (score uc) (maxScore useCases) - 1)))
  /\ (forall r ph gs sub lines line,
        buildEmailHtml useCases = Some r ->
        In (ph, gs) r -> In (sub, lines) gs -> In line lines ->
        0 <= score (line_uc line) -> maxScore useCases <= 2 ^ 42 ->
        line_pct line = Some (spec_relevance (score (line_uc line)) (maxScore useCases))
        \/ (halfway (score (line_uc line)) (maxScore useCases) = true
            /\ line_pct line
               = Some (spec_relevance (score (line_uc line)) (maxScore useCases) - 1)))
  /\ (forall score D,
        0 <= score <= D -> 1 <= D <= 2 ^ 42 ->
        RelevanceBadge score D = relevanceBadgeHtml score D
        /\ (RelevanceBadge score D = Some (spec_relevance score D)
            \/ (halfway score D = true
                /\ RelevanceBadge score D = Some (spec_relevance score D - 1))))
  /\ (forall top,
        In top useCases ->
        (forall uc, In uc useCases -> score uc <= score top) ->
        1 <= score top < 2 ^ 53 ->
        RelevanceBadge (score top) (maxScore useCases) = Some 100
        /\ relevanceBadgeHtml (score top) (emailMaxScore useCases) = Some 100)
  /\ (forall use_cases responses decision_matrix top,
        useCases = Scoring.recommendedUseCases use_cases responses decision_matrix ->
        In top useCases ->
        (forall uc, In uc useCases -> score uc <= score top) ->
        score top < 2 ^ 53 ->
        RelevanceBadge (score top) (maxScore useCases) = Some 100
        /\ relevanceBadgeHtml (score top) (emailMaxScore useCases) = Some 100).
Proof.
  pose proof (maxScore_spec useCases) as [Hone [Hle Hin]].
  assert (Htop : forall top,
             In top useCases ->
             (forall uc, In uc useCases -> score uc <= score top) ->
             1 <= score top < 2 ^ 53 ->
             RelevanceBadge (score top) (maxScore useCases) = Some 100
             /\ relevanceBadgeHtml (score top) (emailMaxScore useCases) = Some 100).
  { intros top Htop Hmax Hs.
    assert (maxScore useCases = score top) as E.
    { destruct Hin as [H1|[uc [Huc Euc]]].
      - specialize (Hle top Htop). lia.
      - specialize (Hle top Htop). specialize (Hmax uc Huc). lia. }
    rewrite maxScore_email, relevanceBadgeHtml_clamped by exact Hone.
    unfold RelevanceBadge. rewrite E. split; now apply percent_self. }
  split; [apply maxScore_email|]. split; [exact Hone|]. split; [exact Hle|].
  split; [exact Hin|]. split; [|split; [|split; [|split; [exact Htop|]]]].
  - intros r ph gs sub lines uc pct Hr Hp Hg Hl Hs HD.
    rewrite (pageRoadmap_badges _ _ _ _ _ _ _ _ Hr Hp Hg Hl).
    apply FloatFacts.percent_close; [|lia]. split; [exact Hs|].
    apply Hle. exact (pageRoadmap_member _ _ _ _ _ _ _ _ Hr Hp Hg Hl).
  - intros r ph gs sub lines line Hr Hp Hg Hl Hs HD.
    rewrite (buildEmailHtml_badges _ _ _ _ _ _ _ Hr Hp Hg Hl).
    apply FloatFacts.percent_close; [|lia]. split; [exact Hs|].
    apply Hle. exact (buildEmailHtml_member _ _ _ _ _ _ _ Hr Hp Hg Hl).
  - intros s D Hs HD. rewrite relevanceBadgeHtml_clamped by lia. split; [reflexivity|].
    now apply FloatFacts.percent_close.
  - intros use_cases responses decision_matrix top -> Htopin Hmax Hlt.
    apply Htop; [exact Htopin | exact Hmax |].
    apply ScoringFacts.In_recommendedUseCases in Htopin. destruct Htopin as [Hid Hs].
    apply ScoringFacts.In_sortedIds in Hid. destruct Hid as [s [Hs' Hmin]].
    assert (s = score top) by congruence. unfold Scoring.MIN_SCORE in Hmin. lia.
Qed.

(** C5, as the specification words it, fails -- eight answers and a
    decision matrix that credits one offering with 40 and another with 23
    give a result set in which the exact value of 100 * 23 / 40 is 57.5,
    halfway between 57 and 58, which rounds to 58; the code divides
    first, 23 / 40 is no binary64 number, the product falls just below
    57.5, and the badge shows 57 on the page and in the e-mail. *)
Lemma relevance_tie_rounds_down :
  let result :=
    Scoring.recommendedUseCases Scoring.tie_catalog Scoring.tie_responses Scoring.tie_matrix in
  map (fun uc => (id uc, score uc)) result = [("S40", 40); ("S23", 23)]
  /\ maxScore result = 40
  /\ map (fun uc => RelevanceBadge (score uc) (maxScore result)) result
     = [Some 100; Some 57]
  /\ map (fun uc => relevanceBadgeHtml (score uc) (emailMaxScore result)) result
     = [Some 100; Some 57]
  /\ map (fun uc => spec_relevance (score uc) (maxScore result)) result = [100; 58]
  /\ map (fun uc => halfway (score uc) (maxScore result)) result = [false; true]
  /\ ~ (forall uc, In uc result ->
          RelevanceBadge (score uc) (maxScore result)
          = Some (spec_relevance (score uc) (maxScore result))).
Proof.
  cbv zeta.
  split; [reflexivity|]. split; [reflexivity|].
  split; [vm_compute; reflexivity|]. split; [vm_compute; reflexivity|].
  split; [vm_compute; reflexivity|]. split; [vm_compute; reflexivity|].
  intros H.
  specialize (H (withScore (row "S23" "Data" "Analytics" (Some "A")) 23)).
  assert (Some 57 = Some 58) as X; [|discriminate X].
  apply H. right. left. reflexivity.
Qed.

(** Why the maximum is bounded: from about 2^45 on, the error of the two
    binary64 operations can carry the product across a half that the
    exact value does not reach. *)
Lemma relevance_beyond_bound :
  percent 32342547072691 40682449148039 = Some 80
  /\ spec_relevance 32342547072691 40682449148039 = 79
  /\ halfway 32342547072691 40682449148039 = false.
Proof. repeat split; vm_compute; reflexivity. Qed.

End RoadmapSpec.

(* ================================================================== *)
(** * Properties of the table [responses] *)
(* ================================================================== *)

Module StoreSpec.
Import JS JSFacts Questionnaire Store.

Lemma sameKey_new (sid q : string) (a : AnswerValue) :
  sameKey sid q {| submission_id := sid; question_id := q; answer := a |} = true.
Proof. unfold sameKey. simpl. now rewrite !String.eqb_refl. Qed.

Lemma filter_none {A : Type} (p : A -> bool) (l : list A) :
  filter p (filter (fun x => negb (p x)) l) = [].
Proof.
  induction l as [|x l IH]; [reflexivity|]. simpl.
  destruct (p x) eqn:E; simpl; [exact IH | now rewrite E].
Qed.

Lemma filter_idem {A : Type} (p : A -> bool) (l : list A) :
  filter p (filter p l) = filter p l.
Proof.
  induction l as [|x l IH]; [reflexivity|]. simpl.
  destruct (p x) eqn:E; simpl; [now rewrite E, IH | exact IH].
Qed.

Lemma others_after_delete (responses : list ResponseRow) (sid q : string) (delete : Reply) :
  filter (fun r => negb (sameKey sid q r)) (deleteResponse responses sid q delete)
  = filter (fun r => negb (sameKey sid q r)) responses.
Proof. destruct delete; [apply filter_idem | reflexivity]. Qed.

Lemma key_after_delete (responses : list ResponseRow) (sid q : string) (delete : Reply) :
  filter (sameKey sid q) (deleteResponse responses sid q delete)
  = match delete with
    | Applied => []
    | Refused => filter (sameKey sid q) responses
    end.
Proof. destruct delete; [apply filter_none | reflexivity]. Qed.

(** [saveResponse] never touches the rows of another submission or
    question, and returns exactly when the insert is accepted.  The rows
    it leaves for the submission and the question are the old ones, none
    when the delete took effect, followed by the new one when the insert
    was accepted: exactly one row, holding the answer, when both calls
    take effect; one row more than before when the delete is refused;
    none, the previous answer being lost, when the delete took effect and
    the insert was refused.  After any earlier save for the question, a
    save whose two calls take effect leaves the table that it alone would
    have left. *)
Theorem saveResponse_replaces (responses : list ResponseRow) (sid q : string)
    (a : AnswerValue) (delete insert : Reply) :
  filter (fun r => negb (sameKey sid q r)) (table (saveResponse responses sid q a delete insert))
  = filter (fun r => negb (sameKey sid q r)) responses
  /\ (returned (saveResponse responses sid q a delete insert) = true <-> insert = Applied)
  /\ filter (sameKey sid q) (table (saveResponse responses sid q a delete insert))
     = match delete with
       | Applied => []
       | Refused => filter (sameKey sid q) responses
       end
       ++ match insert with
          | Applied => [ {| submission_id := sid; question_id := q; answer := a |} ]
          | Refused => []
          end
  /\ filter (sameKey sid q) (table (saveResponse responses sid q a Applied Applied))
     = [ {| submission_id := sid; question_id := q; answer := a |} ]
  /\ (forall b earlier,
        table (saveResponse (table (saveResponse responses sid q b earlier Applied))
                            sid q a Applied Applied)
        = table (saveResponse responses sid q a Applied Applied)).
Proof.
  split; [|split; [|split; [|split]]].
  - unfold saveResponse. cbv zeta. destruct insert; cbn [table].
    + rewrite filter_app, others_after_delete. cbn [filter].
      now rewrite sameKey_new, app_nil_r.
    + apply others_after_delete.
  - destruct insert; cbn; split; congruence.
  - unfold saveResponse. cbv zeta. destruct insert; cbn [table].
    + rewrite filter_app, key_after_delete. cbn [filter]. now rewrite sameKey_new.
    + now rewrite key_after_delete, app_nil_r.
  - unfold saveResponse. cbn [table deleteResponse].
    rewrite filter_app, filter_none. cbn [filter app]. now rewrite sameKey_new.
  - intros b earlier. unfold saveResponse. cbn [table deleteResponse]. f_equal.
    rewrite filter_app, others_after_delete. cbn [filter].
    now rewrite sameKey_new, app_nil_r.
Qed.



Lemma lastAnswer_none (l : list Scoring.Response) (q : string) :
  (forall r, In r l -> Scoring.question_id r <> q) -> lastAnswer l q = None.
Proof.
  induction l as [|r l IH]; intros H; [reflexivity|]. simpl.
  rewrite IH by (intros r' Hr'; apply H; now right).
  destruct (Scoring.question_id r =? q)%string eqn:E; [|reflexivity].
  apply String.eqb_eq in E. exfalso. apply (H r); [now left | exact E].
Qed.





End StoreSpec.

(* ================================================================== *)
(** * Properties of the navigation *)
(* ================================================================== *)

Module FlowSpec.
Import JS JSFacts Questionnaire QuestionnaireSpec Flow.

Lemma at_index_Some {A : Type} (l : list A) (i : Z) (x : A) :
  at_index l i = Some x -> 0 <= i < Z.of_nat (List.length l).
Proof.
  unfold at_index. destruct (i <? 0) eqn:E; [discriminate|]. intros H.
  apply Z.ltb_ge in E. assert (nth_error l (Z.to_nat i) <> None) as Hn by congruence.
  apply nth_error_Some in Hn. lia.
Qed.

Lemma at_index_inRange {A : Type} (l : list A) (i : Z) :
  0 <= i < Z.of_nat (List.length l) -> exists x, at_index l i = Some x.
Proof.
  intros H. unfold at_index. destruct (i <? 0) eqn:E; [apply Z.ltb_lt in E; lia|].
  destruct (nth_error l (Z.to_nat i)) as [x|] eqn:En; [now exists x|].
  apply nth_error_None in En. lia.
Qed.

Lemma at_index_None {A : Type} (l : list A) (i : Z) :
  at_index l i = None <-> ~ (0 <= i < Z.of_nat (List.length l)).
Proof.
  split.
  - intros H Hr. destruct (at_index_inRange l i Hr) as [x Hx]. congruence.
  - intros H. destruct (at_index l i) as [x|] eqn:E; [|reflexivity].
    apply at_index_Some in E. contradiction.
Qed.

Lemma length_nil_iff {A : Type} (l : list A) : Z.of_nat (List.length l) = 0 <-> l = [].
Proof. destruct l; simpl; split; intros H; try reflexivity; try discriminate; lia. Qed.

(** The effect that follows a change of the answers puts an index that
    ran past the end of a non-empty visible list on its last question, so
    that a question is shown again; it leaves an index in range where it
    is, as it leaves every index when no question is visible (and then no
    question is shown); running it again changes nothing. *)
Theorem clampEffect_spec (st : State) :
  (visible st <> [] -> 0 <= currentIndex st ->
     inRange (clampEffect st)
     /\ (Z.of_nat (List.length (visible st)) <= currentIndex st ->
         isLastQuestion (clampEffect st) = true))
  /\ (inRange st -> clampEffect st = st)
  /\ (visible st = [] -> clampEffect st = st /\ currentQ st = None)
  /\ clampEffect (clampEffect st) = clampEffect st
  /\ flatQuestions (clampEffect st) = flatQuestions st
  /\ answers (clampEffect st) = answers st.
Proof.
  pose proof (length_nil_iff (visible st)) as Hnil.
  assert (Hin : inRange st -> clampEffect st = st).
  { unfold clampEffect, inRange. intros H.
    assert ((Z.of_nat (List.length (visible st)) <=? currentIndex st) = false) as ->
      by (apply Z.leb_gt; lia).
    reflexivity. }
  assert (Hempty : visible st = [] -> clampEffect st = st).
  { unfold clampEffect. intros H. rewrite H. cbn [List.length Z.of_nat].
    now rewrite andb_false_r. }
  assert (Hclamp : visible st <> [] -> 0 <= currentIndex st -> inRange (clampEffect st)).
  { intros Hne H0. unfold clampEffect.
    destruct ((Z.of_nat (List.length (visible st)) <=? currentIndex st)
              && (0 <? Z.of_nat (List.length (visible st)))) eqn:E.
    - apply andb_prop in E. destruct E as [E1 E2]. apply Z.ltb_lt in E2.
      unfold inRange. change (visible (withIndex st _)) with (visible st).
      cbn [currentIndex withIndex]. lia.
    - apply andb_false_iff in E. unfold inRange.
      destruct E as [E|E]; [apply Z.leb_gt in E; lia|]. apply Z.ltb_ge in E.
      assert (Z.of_nat (List.length (visible st)) = 0) as H by lia.
      apply Hnil in H. contradiction. }
  split; [|split; [exact Hin|split; [|split; [|split]]]].
  - intros Hne H0. split; [now apply Hclamp|]. intros Hge. unfold clampEffect.
    assert (0 < Z.of_nat (List.length (visible st))) as Hpos.
    { destruct (visible st); [contradiction | simpl; lia]. }
    assert ((Z.of_nat (List.length (visible st)) <=? currentIndex st) = true) as ->
      by (apply Z.leb_le; lia).
    assert ((0 <? Z.of_nat (List.length (visible st))) = true) as ->
      by (apply Z.ltb_lt; lia).
    cbn [andb]. unfold isLastQuestion.
    change (visible (withIndex st _)) with (visible st).
    cbn [currentIndex withIndex]. apply Z.eqb_refl.
  - intros H. split; [now apply Hempty|]. unfold currentQ. apply at_index_None.
    rewrite H. simpl. lia.
  - destruct ((Z.of_nat (List.length (visible st)) <=? currentIndex st)
              && (0 <? Z.of_nat (List.length (visible st)))) eqn:E.
    + assert (clampEffect st = withIndex st (Z.of_nat (List.length (visible st)) - 1)) as ->
        by (unfold clampEffect; now rewrite E).
      apply andb_prop in E. destruct E as [_ E2]. apply Z.ltb_lt in E2.
      unfold clampEffect. change (visible (withIndex st _)) with (visible st).
      cbn [currentIndex withIndex].
      assert ((Z.of_nat (List.length (visible st))
                 <=? Z.of_nat (List.length (visible st)) - 1) = false) as ->
        by (apply Z.leb_gt; lia).
      reflexivity.
    + assert (clampEffect st = st) as Hs by (unfold clampEffect; now rewrite E).
      now rewrite !Hs.
  - unfold clampEffect. now destruct (_ && _).
  - unfold clampEffect. now destruct (_ && _).
Qed.

Lemma currentQ_inRange (st : State) : inRange st <-> currentQ st <> None.
Proof.
  unfold currentQ, inRange. split.
  - intros H. destruct (at_index_inRange _ _ H) as [x Hx]. congruence.
  - intros H. destruct (at_index (visible st) (currentIndex st)) as [x|] eqn:E;
      [|contradiction]. now apply at_index_Some in E.
Qed.

(** From a state that shows a question: [handlePrevious] stays in range;
    [handleNext] does nothing exactly when the question has no answer,
    and otherwise saves the answer of the question shown, under the
    submission; when the save returns, whether or not its delete took
    effect, it then moves one question forward, staying in range and
    keeping the answers, unless the question is the last visible one, in
    which case alone it completes; when the save throws it shows the
    error and stays; the Next button, which is disabled while the answer
    is empty, never saves an empty string or an empty selection. *)
Theorem handleNext_spec (submissionId : string) (responses : list Store.ResponseRow)
    (st : State) (delete insert : Store.Reply) :
  inRange st ->
  inRange (handlePrevious st)
  /\ (handleNext submissionId responses st delete insert = Ignored
      <-> currentAnswer st = None)
  /\ (forall fq a, currentQ st = Some fq -> currentAnswer st = Some a ->
        handleNext submissionId responses st delete Store.Applied
        = (if isLastQuestion st
           then Completed
                  (Store.table (Store.saveResponse responses submissionId (questionId fq) a
                                                   delete Store.Applied))
           else Advanced
                  (Store.table (Store.saveResponse responses submissionId (questionId fq) a
                                                   delete Store.Applied))
                  (withIndex st (currentIndex st + 1)))
        /\ handleNext submissionId responses st delete Store.Refused
           = Failed (Store.table (Store.saveResponse responses submissionId (questionId fq) a
                                                     delete Store.Refused)))
  /\ (isLastQuestion st = false ->
        inRange (withIndex st (currentIndex st + 1))
        /\ visible (withIndex st (currentIndex st + 1)) = visible st)
  /\ (forall saved,
        clickNext submissionId responses st delete insert = Completed saved
        \/ (exists st', clickNext submissionId responses st delete insert = Advanced saved st')
        \/ clickNext submissionId responses st delete insert = Failed saved ->
        exists fq a,
          currentQ st = Some fq
          /\ saved = Store.table (Store.saveResponse responses submissionId (questionId fq) a
                                                     delete insert)
          /\ a <> Scalar "" /\ a <> Multi []).
Proof.
  intros Hr.
  assert (Hlast : isLastQuestion st
                  = negb (currentIndex st <? Z.of_nat (List.length (visible st)) - 1)).
  { unfold isLastQuestion, inRange in *.
    destruct (currentIndex st =? _) eqn:E1, (currentIndex st <? _) eqn:E2;
      try reflexivity;
      rewrite ?Z.eqb_eq, ?Z.eqb_neq, ?Z.ltb_lt, ?Z.ltb_ge in *; lia. }
  destruct (at_index_inRange _ _ Hr) as [cq Hcq]. fold (currentQ st) in Hcq.
  assert (Hnext : forall a ins, currentAnswer st = Some a ->
            handleNext submissionId responses st delete ins
            = match ins with
              | Store.Applied =>
                  if isLastQuestion st
                  then Completed
                         (Store.table (Store.saveResponse responses submissionId
                                         (questionId cq) a delete ins))
                  else Advanced
                         (Store.table (Store.saveResponse responses submissionId
                                         (questionId cq) a delete ins))
                         (withIndex st (currentIndex st + 1))
              | Store.Refused =>
                  Failed (Store.table (Store.saveResponse responses submissionId
                                         (questionId cq) a delete ins))
              end).
  { intros a ins Ha. unfold handleNext. rewrite Hcq, Ha, Hlast. cbv zeta.
    destruct ins; cbn [Store.saveResponse Store.returned Store.table]; [|reflexivity].
    now destruct (currentIndex st <? _). }
  split; [|split; [|split; [|split]]].
  - unfold handlePrevious, inRange in *. destruct (0 <? currentIndex st) eqn:E;
      [|exact Hr]. apply Z.ltb_lt in E.
    change (visible (withIndex st (currentIndex st - 1))) with (visible st).
    cbn [currentIndex withIndex]. lia.
  - split.
    + intros H. destruct (currentAnswer st) as [a|] eqn:Ha; [|reflexivity].
      rewrite (Hnext a insert eq_refl) in H.
      destruct insert; [now destruct (isLastQuestion st) | discriminate].
    + intros H. unfold handleNext. now rewrite Hcq, H.
  - intros fq a Hfq Ha. assert (fq = cq) by congruence. subst fq.
    split; [exact (Hnext a Store.Applied Ha) | exact (Hnext a Store.Refused Ha)].
  - intros Hl. rewrite Hlast in Hl. apply negb_false_iff, Z.ltb_lt in Hl.
    split; [|reflexivity]. unfold inRange in *.
    change (visible (withIndex st (currentIndex st + 1))) with (visible st).
    cbn [currentIndex withIndex]. lia.
  - intros saved H. unfold clickNext in H. unfold isAnswered in H.
    destruct (currentAnswer st) as [a|] eqn:Ha.
    2:{ destruct H as [H|[[st' H]|H]]; discriminate. }
    exists cq, a. split; [exact Hcq|].
    assert (Hne : a <> Scalar "" /\ a <> Multi []).
    { destruct a as [s|l].
      - destruct (String.eqb_spec s ""); cbn [negb] in H.
        + destruct H as [H|[[st' H]|H]]; discriminate.
        + split; congruence.
      - destruct l; cbn in H.
        + destruct H as [H|[[st' H]|H]]; discriminate.
        + split; congruence. }
    split; [|exact Hne].
    assert (Hb : (match a with
                  | Multi l => (0 <? List.length l)%nat
                  | Scalar s => negb (s =? "")%string
                  end) = true).
    { destruct a as [s|l].
      - destruct (String.eqb_spec s ""); [|reflexivity]. subst. now destruct Hne.
      - destruct l; [now destruct Hne | reflexivity]. }
    rewrite Hb, (Hnext a insert eq_refl) in H.
    destruct insert; [destruct (isLastQuestion st)|];
      destruct H as [H|[[st' H]|H]]; congruence.
Qed.

Lemma handleNext_spec_witness :
  inRange session
  /\ inRange (handlePrevious session)
  /\ (handleNext "S1" [] session Store.Refused Store.Applied = Ignored
      <-> currentAnswer session = None).
Proof.
  assert (H : inRange session) by (unfold inRange; vm_compute; split; [discriminate | reflexivity]).
  split; [exact H|].
  pose proof (handleNext_spec "S1" [] session Store.Refused Store.Applied H) as [H1 [H2 _]].
  split; [exact H1 | exact H2].
Defined.

(** ** Answering the question shown *)

Lemma controller_condition (fq : FlatQuestion) (c : string) :
  controller fq = Some c <-> exists required, condition (question fq) = Some (c, required).
Proof.
  unfold controller. destruct (condition (question fq)) as [[c' r]|]; split.
  - intros H. exists r. congruence.
  - intros [r' H]. congruence.
  - discriminate.
  - intros [r' H]. discriminate.
Qed.

Lemma isVisible_frame (a a' : Record AnswerValue) (fq : FlatQuestion) :
  (forall c, controller fq = Some c -> get a' c = get a c) ->
  isVisible a' fq = isVisible a fq.
Proof.
  intros H. destruct (condition (question fq)) as [[c r]|] eqn:Ec.
  - assert (Hc : controller fq = Some c) by (apply controller_condition; now exists r).
    specialize (H c Hc). apply condition_Some in Ec. destruct Ec as [E1 [E2 _]].
    unfold isVisible. cbv zeta. now rewrite E1, E2, H.
  - now rewrite !isVisible_unconditional.
Qed.

Lemma meets_dec (a : AnswerValue) (required : string) :
  (match a with
   | Multi l => includes l required
   | Scalar s => (s =? required)%string
   end) = true <-> meets a required.
Proof.
  destruct a as [s|l]; simpl.
  - apply String.eqb_eq.
  - apply includes_In.
Qed.

(** Answering the question shown writes its answer and no other.  It
    leaves the visibility of every question that is not conditioned on
    the question shown as it was, and makes a question conditioned on it
    visible exactly when the new answer is, or contains, the required
    value. *)
Theorem handleAnswerChange_visibility (st : State) (value : AnswerValue)
    (cq fq : FlatQuestion) :
  currentQ st = Some cq ->
  get (answers (handleAnswerChange st value)) (questionId cq) = Some value
  /\ (forall q, q <> questionId cq ->
        get (answers (handleAnswerChange st value)) q = get (answers st) q)
  /\ (controller fq <> Some (questionId cq) ->
        isVisible (answers (handleAnswerChange st value)) fq = isVisible (answers st) fq)
  /\ (forall required,
        condition (question fq) = Some (questionId cq, required) ->
        (isVisible (answers (handleAnswerChange st value)) fq = true
         <-> meets value required)).
Proof.
  intros Hcq. unfold handleAnswerChange. rewrite Hcq. cbn [answers withAnswers].
  fold (questionId cq).
  split; [apply get_set_same|]. split; [|split].
  - intros q Hq. apply get_set_other. congruence.
  - intros Hc. apply isVisible_frame. intros c Ec. apply get_set_other. congruence.
  - intros required Ec. rewrite (isVisible_conditional _ _ _ _ Ec), get_set_same. split.
    + intros [a [Ha Hm]]. congruence.
    + intros Hm. now exists value.
Qed.

Lemma handleAnswerChange_visibility_witness :
  currentQ session = Some Q1
  /\ (isVisible (answers (handleAnswerChange session (Scalar "No"))) Q2 = true
      <-> meets (Scalar "No") "Yes")
  /\ isVisible (answers (handleAnswerChange session (Scalar "No"))) Q3
     = isVisible (answers session) Q3.
Proof.
  assert (H : currentQ session = Some Q1) by reflexivity.
  split; [exact H|].
  pose proof (handleAnswerChange_visibility session (Scalar "No") Q1 Q2 H) as [_ [_ [_ H2]]].
  pose proof (handleAnswerChange_visibility session (Scalar "No") Q1 Q3 H) as [_ [_ [H3 _]]].
  split; [apply H2; reflexivity | apply H3; discriminate].
Defined.

Lemma In_filter_nth {A : Type} (p : A -> bool) (l : list A) (n : nat) (x : A) :
  nth_error (filter p l) n = Some x -> In x l.
Proof. intros H. apply nth_error_In in H. now apply filter_In in H. Qed.

Lemma prefix_stays (a : Record AnswerValue) (value : AnswerValue) (cq : FlatQuestion)
    (l : list FlatQuestion) :
  forall (earlier : list string) (n : nat),
    refersBack earlier l ->
    NoDup (map questionId l) ->
    ~ In (questionId cq) earlier ->
    nth_error (filter (isVisible a) l) n = Some cq ->
    firstn (S n) (filter (isVisible (set a (questionId cq) value)) l)
    = firstn (S n) (filter (isVisible a) l).
Proof.
  induction l as [|fq l IH]; intros earlier n Hb Hnd Hne Hn.
  - destruct n; discriminate.
  - cbn [refersBack] in Hb. destruct Hb as [Hc Hb].
    cbn [map] in Hnd. apply NoDup_cons_iff in Hnd. destruct Hnd as [Hfq Hnd].
    assert (Hsame : isVisible (set a (questionId cq) value) fq = isVisible a fq).
    { apply isVisible_frame. intros c Ec. rewrite Ec in Hc. apply get_set_other.
      intros E. apply Hne. now rewrite E. }
    assert (Hlater : In cq l -> ~ In (questionId cq) (earlier ++ [questionId fq])).
    { intros Hin Hi. apply in_app_or in Hi. destruct Hi as [Hi|[Hi|[]]]; [now apply Hne|].
      apply Hfq. rewrite Hi. now apply in_map. }
    cbn [filter] in *. rewrite Hsame. destruct (isVisible a fq).
    + destruct n as [|n]; [reflexivity|]. cbn [nth_error] in Hn.
      cbn [firstn]. f_equal.
      apply (IH (earlier ++ [questionId fq]) n Hb Hnd); [|exact Hn].
      apply Hlater. eapply In_filter_nth, Hn.
    + apply (IH (earlier ++ [questionId fq]) n Hb Hnd); [|exact Hn].
      apply Hlater. eapply In_filter_nth, Hn.
Qed.

Lemma nth_error_firstn_S {A : Type} (l : list A) (n : nat) :
  nth_error (firstn (S n) l) n = nth_error l n.
Proof.
  revert l. induction n as [|n IH]; intros [|x l]; try reflexivity.
  cbn [firstn nth_error]. apply (IH l).
Qed.

(** When every condition names a question placed strictly earlier and no
    two questions share an id, answering the question shown keeps it the
    question shown: the visible questions up to and including it stay
    what they were, so the index still designates it and the way back
    with Previous is unchanged. *)
Theorem handleAnswerChange_keeps_current (st : State) (value : AnswerValue)
    (cq : FlatQuestion) :
  refersBack [] (flatQuestions st) ->
  NoDup (map questionId (flatQuestions st)) ->
  currentQ st = Some cq ->
  firstn (S (Z.to_nat (currentIndex st))) (visible (handleAnswerChange st value))
  = firstn (S (Z.to_nat (currentIndex st))) (visible st)
  /\ currentQ (handleAnswerChange st value) = Some cq
  /\ inRange (handleAnswerChange st value)
  /\ clampEffect (handleAnswerChange st value) = handleAnswerChange st value.
Proof.
  intros Hb Hnd Hcq.
  assert (Hst : handleAnswerChange st value
                = withAnswers st (set (answers st) (questionId cq) value)).
  { unfold handleAnswerChange. now rewrite Hcq. }
  assert (Hn : nth_error (visible st) (Z.to_nat (currentIndex st)) = Some cq
               /\ (currentIndex st <? 0) = false).
  { unfold currentQ, at_index in Hcq. destruct (currentIndex st <? 0); [discriminate|].
    now split. }
  destruct Hn as [Hn Hpos].
  assert (Hpre : firstn (S (Z.to_nat (currentIndex st))) (visible (handleAnswerChange st value))
                 = firstn (S (Z.to_nat (currentIndex st))) (visible st)).
  { rewrite Hst. unfold visible, visibleQuestions. cbn [flatQuestions answers withAnswers].
    apply (prefix_stays _ _ _ _ [] _ Hb Hnd); [intros [] | exact Hn]. }
  assert (Hcur : currentQ (handleAnswerChange st value) = Some cq).
  { unfold currentQ, at_index.
    assert (currentIndex (handleAnswerChange st value) = currentIndex st) as ->
      by now rewrite Hst.
    rewrite Hpos, <- nth_error_firstn_S, Hpre, nth_error_firstn_S. exact Hn. }
  assert (Hr : inRange (handleAnswerChange st value)).
  { apply currentQ_inRange. congruence. }
  split; [exact Hpre|]. split; [exact Hcur|]. split; [exact Hr|].
  unfold clampEffect, inRange in *.
  assert ((Z.of_nat (List.length (visible (handleAnswerChange st value)))
             <=? currentIndex (handleAnswerChange st value)) = false) as ->
    by (apply Z.leb_gt; lia).
  reflexivity.
Qed.

Lemma handleAnswerChange_keeps_current_witness :
  refersBack [] (flatQuestions session)
  /\ NoDup (map questionId (flatQuestions session))
  /\ currentQ (handleAnswerChange session (Scalar "No")) = Some Q1.
Proof.
  assert (Hb : refersBack [] (flatQuestions session)).
  { simpl. repeat split. now left. }
  assert (Hnd : NoDup (map questionId (flatQuestions session))).
  { simpl. repeat constructor; simpl; intuition discriminate. }
  split; [exact Hb|]. split; [exact Hnd|].
  apply (handleAnswerChange_keeps_current session (Scalar "No") Q1 Hb Hnd eq_refl).
Defined.

(** ** The checkbox toggle *)

(** Toggling an option of a checkbox question flips whether the option is
    selected and leaves every other option as it was; the selection it
    gives holds no option twice when the selection it got held none
    twice, as does every selection built by toggles from the empty one;
    a newly selected option comes last. *)
Theorem toggleOption_spec (value : list string) (option : string) :
  (In option (toggleOption value option) <-> ~ In option value)
  /\ (forall other, other <> option ->
        (In other (toggleOption value option) <-> In other value))
  /\ (NoDup value -> NoDup (toggleOption value option))
  /\ (forall options, NoDup (fold_left toggleOption options []))
  /\ (~ In option value -> toggleOption value option = value ++ [option]).
Proof.
  assert (Hnd : forall v o, NoDup v -> NoDup (toggleOption v o)).
  { intros v o H. unfold toggleOption. destruct (includes v o) eqn:E.
    - now apply NoDup_filter.
    - apply NoDup_app; [exact H | repeat constructor; intros [] |].
      intros x Hx [Ho|[]]. subst x. apply includes_In in Hx. congruence. }
  split; [|split; [|split; [apply Hnd|split]]].
  - unfold toggleOption. destruct (includes value option) eqn:E.
    + apply includes_In in E. rewrite filter_In, String.eqb_refl. simpl.
      split; [intros [_ H]; discriminate | intros H; contradiction].
    + assert (~ In option value) as Hn by (rewrite <- includes_In; congruence).
      rewrite in_app_iff. simpl. tauto.
  - intros other Hne. unfold toggleOption. destruct (includes value option).
    + rewrite filter_In. apply String.eqb_neq in Hne. rewrite Hne. simpl. tauto.
    + rewrite in_app_iff. simpl. split; [intros [H|[H|[]]]; congruence | tauto].
  - intros options. assert (H : NoDup (@nil string)) by constructor.
    revert H. generalize (@nil string). induction options as [|o os IH]; intros v H.
    + exact H.
    + cbn [fold_left]. apply IH, Hnd, H.
  - intros Hn. unfold toggleOption. destruct (includes value option) eqn:E; [|reflexivity].
    apply includes_In in E. contradiction.
Qed.

(** ** The progress bar *)

(** On the last visible question the progress bar shows 100. *)
Theorem progress_complete (st : State) :
  Z.of_nat (List.length (visible st)) < 2 ^ 53 ->
  inRange st ->
  isLastQuestion st = true ->
  progress st = Some 100.
Proof.
  intros Hlen Hr Hl. unfold isLastQuestion in Hl. apply Z.eqb_eq in Hl.
  unfold progress. rewrite Hl.
  replace (Z.of_nat (List.length (visible st)) - 1 + 1)
    with (Z.of_nat (List.length (visible st))) by lia.
  apply (RoadmapSpec.percent_self (Z.of_nat (List.length (visible st)))).
  unfold inRange in Hr. lia.
Qed.

Lemma progress_complete_witness :
  progress (withIndex session 2) = Some 100.
Proof.
  apply (progress_complete (withIndex session 2)).
  - vm_compute. reflexivity.
  - unfold inRange. vm_compute. split; [discriminate | reflexivity].
  - vm_compute. reflexivity.
Defined.


(** ** The flat list of questions *)

Lemma StronglySorted_app {A : Type} (R : A -> A -> Prop) (l l' : list A) :
  StronglySorted R l -> StronglySorted R l' ->
  (forall x y, In x l -> In y l' -> R x y) ->
  StronglySorted R (l ++ l').
Proof.
  intros Hl Hl' H. induction Hl as [|x l Hl IH Hx]; [exact Hl'|].
  cbn [app]. constructor.
  - apply IH. intros a b Ha Hb. apply H; [now right | exact Hb].
  - apply Forall_app. split; [exact Hx|]. apply Forall_forall. intros y Hy.
    apply H; [now left | exact Hy].
Qed.

Lemma StronglySorted_strict {A : Type} (f : A -> Z) (l : list A) :
  StronglySorted (fun a b => f a <= f b) l -> NoDup (map f l) ->
  StronglySorted (fun a b => f a < f b) l.
Proof.
  induction 1 as [|x l Hl IH Hx]; intros Hnd; [constructor|].
  cbn [map] in Hnd. apply NoDup_cons_iff in Hnd. destruct Hnd as [Hn Hnd].
  constructor; [now apply IH|]. rewrite Forall_forall in *. intros y Hy.
  specialize (Hx y Hy). assert (f x <> f y); [|lia].
  intros E. apply Hn. rewrite E. now apply in_map.
Qed.

Lemma sorted_by_order {A : Type} (f : A -> Z) (l : list A) :
  StronglySorted (fun a b => f a <= f b) (Array_sort (fun a b => f a - f b) l).
Proof.
  apply (ScoringFacts.StronglySorted_impl (precedes (fun a b => f a - f b))).
  - unfold precedes. intros x y. lia.
  - apply Array_sort_sorted; unfold precedes; intros; lia.
Qed.

(** The flat list holds every question of every section once, under the
    title of its section.  When no two sections have the same [order],
    the questions come by ascending section order and, within a section,
    by ascending question order. *)
Theorem flatten_order (sections : list SectionRow) :
  NoDup (map section_order sections) ->
  Permutation (flatten sections)
    (flat_map (fun section =>
                 map (fun q => {| question := q; sectionTitle := title section |})
                     (questions section)) sections)
  /\ map question (flatten sections) = map snd (Notions.flattenTagged sections)
  /\ StronglySorted Notions.inFlowOrder (Notions.flattenTagged sections).
Proof.
  intros Hnd. split; [|split].
  - unfold flatten.
    eapply perm_trans;
      [apply Permutation_flat_map, Array_sort_perm|].
    induction sections as [|s l IH]; [constructor|]. cbn [flat_map].
    apply Permutation_app.
    + apply Permutation_map, Array_sort_perm.
    + apply IH. cbn [map] in Hnd. now apply NoDup_cons_iff in Hnd.
  - unfold flatten, Notions.flattenTagged.
    induction (Array_sort _ sections) as [|s l IH]; [reflexivity|].
    cbn [flat_map]. rewrite !map_app, IH, !map_map. reflexivity.
  - unfold Notions.flattenTagged.
    assert (Hs : StronglySorted (fun a b => section_order a < section_order b)
                   (Array_sort (fun a b => section_order a - section_order b) sections)).
    { apply StronglySorted_strict; [apply sorted_by_order|].
      eapply Permutation_NoDup; [|exact Hnd].
      apply Permutation_map, Permutation_sym, Array_sort_perm. }
    induction Hs as [|s l Hl IH Hx]; [constructor|]. cbn [flat_map].
    apply StronglySorted_app; [|exact IH|].
    + pose proof (sorted_by_order order (questions s)) as Hq.
      induction Hq as [|q qs Hqs IHq Hq]; [constructor|]. cbn [map].
      constructor; [exact IHq|]. rewrite Forall_forall in *. intros y Hy.
      apply in_map_iff in Hy. destruct Hy as [q' [<- Hq']].
      right. cbn [fst snd]. split; [reflexivity | now apply Hq].
    + intros x y Hx' Hy. apply in_map_iff in Hx'. destruct Hx' as [q [<- _]].
      apply in_flat_map in Hy. destruct Hy as [s' [Hs' Hy]].
      apply in_map_iff in Hy. destruct Hy as [q' [<- _]].
      left. cbn [fst]. rewrite Forall_forall in Hx. now apply Hx.
Qed.

Lemma flatten_order_witness :
  NoDup (map section_order [priorities; landscape])
  /\ StronglySorted Notions.inFlowOrder (Notions.flattenTagged [priorities; landscape]).
Proof.
  assert (H : NoDup (map section_order [priorities; landscape])).
  { simpl. repeat constructor; simpl; intuition discriminate. }
  split; [exact H|]. apply (flatten_order [priorities; landscape] H).
Defined.

End FlowSpec.

(* ================================================================== *)
(** * Further properties of the scoring *)
(* ================================================================== *)

Module RankingSpec.
Import JS JSFacts Catalog Scoring ScoringFacts.

Lemma creditsTo_matches (i q a : string) (dm : list MatrixRow) :
  creditsTo i (matches dm q a)
  = filter (fun m => (rule_question_id m =? q)%string && (triggering_answer m =? a)%string)
           (creditsTo i dm).
Proof.
  unfold creditsTo, matches. induction dm as [|m dm IH]; [reflexivity|]. cbn [filter].
  destruct ((rule_question_id m =? q)%string && (triggering_answer m =? a)%string) eqn:E1,
           (use_case_id m =? i)%string eqn:E2; cbn [filter]; rewrite ?E1, ?E2, IH; reflexivity.
Qed.

Lemma sumZ_filter_add (w c : MatrixRow -> Z) (p : MatrixRow -> bool) (l : list MatrixRow) :
  sumZ (map w (filter p l)) + sumZ (map (fun m => w m * c m) l)
  = sumZ (map (fun m => w m * ((if p m then 1 else 0) + c m)) l).
Proof.
  unfold sumZ. induction l as [|m l IH]; [reflexivity|]. cbn [filter map fold_right].
  destruct (p m); cbn [map fold_right]; lia.
Qed.

Lemma sumZ_map_zero (w : MatrixRow -> Z) (l : list MatrixRow) :
  sumZ (map (fun m => w m * 0) l) = 0.
Proof. unfold sumZ. induction l as [|m l IH]; cbn [map fold_right]; lia. Qed.

Lemma pairs_as_sum (w : MatrixRow -> Z) (dm : list MatrixRow) (i : string)
    (ps : list (string * string)) :
  sumZ (map (creditOfPair w dm i) ps)
  = sumZ (map (fun m => w m * Notions.timesRecorded ps m) (creditsTo i dm)).
Proof.
  induction ps as [|qa ps IH].
  - cbn [map]. unfold Notions.timesRecorded. cbn [filter List.length Z.of_nat].
    now rewrite sumZ_map_zero.
  - cbn [map]. change (sumZ (?x :: ?l)) with (x + sumZ l). rewrite IH.
    unfold creditOfPair. rewrite creditsTo_matches, sumZ_filter_add.
    f_equal. apply map_ext. intros m. f_equal.
    unfold Notions.timesRecorded. cbn [filter].
    destruct ((rule_question_id m =? fst qa)%string && (triggering_answer m =? snd qa)%string);
      cbn [List.length]; lia.
Qed.

(** The score of an offering is the sum, over the rules of the decision
    matrix that name it, of the weight of the rule (1 for a weight of 0)
    times the number of recorded answer values that trigger the rule: a
    value recorded twice counts twice, and rule rows that are equal count
    once each.  The unweighted revisions count the triggers alone. *)
Theorem score_closed_form (responses : list Response) (decision_matrix : list MatrixRow)
    (i : string) :
  scoreIn (useCaseScores responses decision_matrix) i
  = sumZ (map (fun m => weightOrOne m * Notions.timesRecorded (pairs responses) m)
              (creditsTo i decision_matrix))
  /\ scoreIn (legacyScores responses decision_matrix) i
     = sumZ (map (fun m => 1 * Notions.timesRecorded (pairs responses) m)
                 (creditsTo i decision_matrix))
  /\ (get (useCaseScores responses decision_matrix) i = None
      <-> forall m, In m (creditsTo i decision_matrix) ->
                    Notions.timesRecorded (pairs responses) m = 0).
Proof.
  split; [|split].
  - unfold useCaseScores. rewrite scoreIn_as_pairs. apply pairs_as_sum.
  - unfold legacyScores. rewrite scoreIn_as_pairs. apply pairs_as_sum.
  - unfold useCaseScores. rewrite get_scoreLoop.
    assert (H : creditsTo i (hits responses decision_matrix) = []
                <-> forall m, In m (creditsTo i decision_matrix) ->
                              Notions.timesRecorded (pairs responses) m = 0).
    { split.
      - intros E m Hm. unfold Notions.timesRecorded.
        destruct (filter _ (pairs responses)) as [|qa l] eqn:F; [reflexivity|]. exfalso.
        assert (Hqa : In qa (filter
                 (fun qa => (rule_question_id m =? fst qa)%string
                            && (triggering_answer m =? snd qa)%string) (pairs responses)))
          by (rewrite F; now left).
        apply filter_In in Hqa. destruct Hqa as [Hqa Eqa]. apply andb_prop in Eqa.
        destruct Eqa as [E1 E2]. apply String.eqb_eq in E1. apply String.eqb_eq in E2.
        unfold creditsTo in Hm. apply filter_In in Hm. destruct Hm as [Hm Ei].
        assert (Hin : In m (creditsTo i (hits responses decision_matrix))).
        { unfold creditsTo. apply filter_In. split; [|exact Ei].
          apply In_hits. split; [exact Hm|]. rewrite E1, E2. now destruct qa. }
        rewrite E in Hin. exact Hin.
      - intros H. destruct (creditsTo i (hits responses decision_matrix)) as [|m l] eqn:E;
          [reflexivity|]. exfalso.
        assert (Hin : In m (creditsTo i (hits responses decision_matrix)))
          by (rewrite E; now left).
        unfold creditsTo in Hin. apply filter_In in Hin. destruct Hin as [Hh Ei].
        apply In_hits in Hh. destruct Hh as [Hm Hp].
        assert (Hc : In m (creditsTo i decision_matrix))
          by (unfold creditsTo; apply filter_In; now split).
        specialize (H m Hc). unfold Notions.timesRecorded in H.
        assert (Hf : In (rule_question_id m, triggering_answer m)
                   (filter (fun qa => (rule_question_id m =? fst qa)%string
                                      && (triggering_answer m =? snd qa)%string)
                           (pairs responses))).
        { apply filter_In. split; [exact Hp|]. cbn [fst snd]. now rewrite !String.eqb_refl. }
        destruct (filter _ (pairs responses)); [exact Hf | simpl in H; lia]. }
    rewrite <- H. destruct (creditsTo i (hits responses decision_matrix)); split;
      congruence.
Qed.

Lemma hits_nil_matrix (responses : list Response) : hits responses [] = [].
Proof.
  unfold hits. induction (pairs responses) as [|qa l IH]; [reflexivity|].
  cbn [flat_map]. now rewrite IH.
Qed.

(** The recommended use cases name no id twice, whatever the catalog
    holds; each is the first catalog row of its id, carrying its score,
    and its id is one of the sorted ids.  Without responses, without
    rules or without catalog rows nothing is recommended. *)
Theorem recommendedUseCases_rows (use_cases : list UseCase) (responses : list Response)
    (decision_matrix : list MatrixRow) :
  NoDup (map id (recommendedUseCases use_cases responses decision_matrix))
  /\ (forall uc, In uc (recommendedUseCases use_cases responses decision_matrix) ->
        exists row,
          find (fun u => (id u =? id uc)%string) use_cases = Some row
          /\ uc = withScore row (scoreIn (useCaseScores responses decision_matrix) (id uc))
          /\ In (id uc) (sortedIds responses decision_matrix))
  /\ recommendedUseCases use_cases [] decision_matrix = []
  /\ recommendedUseCases use_cases responses [] = []
  /\ recommendedUseCases [] responses decision_matrix = [].
Proof.
  split; [|split; [|split; [|split]]].
  - rewrite ids_recommendedUseCases. apply NoDup_filter, NoDup_sortedIds.
  - intros uc Huc. pose proof (In_recommendedUseCases _ _ _ _ Huc) as [Hid Hs].
    unfold recommendedUseCases in Huc. apply in_flat_map in Huc.
    destruct Huc as [i [Hi Huc]].
    destruct (find _ (filter _ use_cases)) as [row|] eqn:F; [|contradiction].
    destruct Huc as [E|[]].
    assert (Ei : id uc = i).
    { rewrite <- E, id_withScore. apply find_some in F. destruct F as [_ F].
      now apply String.eqb_eq in F. }
    subst i. exists row. split; [|split; [|exact Hid]].
    + rewrite <- F. symmetry. apply find_filter. intros u Hu.
      apply String.eqb_eq in Hu. apply existsb_exists. exists (id uc).
      split; [exact Hi | now apply String.eqb_eq].
    + unfold scoreIn. rewrite Hs. pose proof (f_equal score E) as Hx.
      cbn [score withScore] in Hx. rewrite <- Hx. symmetry. exact E.
  - reflexivity.
  - unfold recommendedUseCases, sortedIds, sortedEntries, useCaseScores.
    rewrite scoreLoop_hits, hits_nil_matrix. reflexivity.
  - unfold recommendedUseCases. cbn [filter find].
    induction (sortedIds responses decision_matrix) as [|i l IH]; [reflexivity|].
    cbn [flat_map]. exact IH.
Qed.

Lemma StronglySorted_app_inv {A : Type} (R : A -> A -> Prop) (l l' : list A) :
  StronglySorted R (l ++ l') -> forall x y, In x l -> In y l' -> R x y.
Proof.
  induction l as [|a l IH]; intros H x y Hx Hy; [destruct Hx|].
  cbn [app] in H. inversion H as [|? ? Hl Ha]; subst. destruct Hx as [<-|Hx].
  - rewrite Forall_forall in Ha. apply Ha, in_or_app. now right.
  - now apply IH.
Qed.

(** The first results page shows at most five offerings: the first five
    of the ranking of all credited offerings by descending number of
    matches, so that no offering left out has more matches than one
    shown.  The ranking holds each credited offering once, with its
    number of matches, which is at least 1. *)
Theorem legacy_top_five (responses : list Response) (decision_matrix : list MatrixRow) :
  (List.length (legacySortedEntries responses decision_matrix) <= 5)%nat
  /\ (forall kept dropped,
        In kept (legacySortedEntries responses decision_matrix) ->
        In dropped (skipn 5 (legacyAllEntries responses decision_matrix)) ->
        snd dropped <= snd kept)
  /\ NoDup (map fst (legacyAllEntries responses decision_matrix))
  /\ (forall i s,
        In (i, s) (legacyAllEntries responses decision_matrix) <->
        s = Z.of_nat (List.length (creditsTo i (hits responses decision_matrix)))
        /\ 1 <= s).
Proof.
  assert (Hlen : forall l : list MatrixRow,
             sumZ (map (fun _ => 1) l) = Z.of_nat (List.length l)).
  { unfold sumZ. induction l as [|m l IH]; [reflexivity|].
    cbn [map fold_right List.length]. lia. }
  split; [|split; [|split]].
  - unfold legacySortedEntries. rewrite length_firstn. lia.
  - intros kept dropped Hk Hd. unfold legacySortedEntries in Hk.
    assert (S : StronglySorted (fun x y => snd y <= snd x)
                  (legacyAllEntries responses decision_matrix)).
    { unfold legacyAllEntries.
      apply (StronglySorted_impl (precedes byScoreDesc)).
      - unfold precedes, byScoreDesc. intros x y. lia.
      - apply Array_sort_sorted; unfold precedes, byScoreDesc; intros; lia. }
    rewrite <- (firstn_skipn 5 (legacyAllEntries responses decision_matrix)) in S.
    exact (StronglySorted_app_inv _ _ _ S kept dropped Hk Hd).
  - unfold legacyAllEntries. eapply Permutation_NoDup.
    + apply Permutation_map, Permutation_sym, Array_sort_perm.
    + eapply Permutation_NoDup.
      * apply Permutation_map, Permutation_sym, Object_entries_perm.
      * apply NoDup_keys_scoreLoop.
  - intros i s. unfold legacyAllEntries. rewrite In_Array_sort, In_Object_entries.
    unfold legacyScores. split.
    + intros H. apply In_get_Some in H; [|apply NoDup_keys_scoreLoop].
      rewrite get_scoreLoop in H.
      destruct (creditsTo i (hits responses decision_matrix)) as [|m l] eqn:E;
        [discriminate|].
      assert (s = sumZ (map (fun _ : MatrixRow => 1) (m :: l))) as -> by congruence.
      rewrite Hlen. split; [reflexivity|]. cbn [List.length]. lia.
    + intros [-> Hs]. apply get_Some_In. rewrite get_scoreLoop.
      destruct (creditsTo i (hits responses decision_matrix)) as [|m l] eqn:E.
      * simpl in Hs. lia.
      * now rewrite Hlen.
Qed.

End RankingSpec.

(* ================================================================== *)
(** * What the roadmaps show, and when building them raises *)
(* ================================================================== *)

Module RenderSpec.
Import JS JSFacts Catalog Roadmap RoadmapSpec.

(** ** The grouping loop loses and repeats nothing *)

Lemma members_set_some {V : Type} (o : Record (list V)) (k : string) (ms : list V) (u : V) :
  get o k = Some ms ->
  Permutation (flat_map snd (set o k (ms ++ [u]))) (flat_map snd o ++ [u]).
Proof.
  induction o as [|[k' v'] o IH]; cbn [get set]; [discriminate|].
  destruct (k' =? k)%string.
  - intros [= ->]. cbn [flat_map snd]. rewrite <- !app_assoc.
    apply Permutation_app_head, Permutation_app_comm.
  - intros H. cbn [flat_map snd]. rewrite <- app_assoc.
    apply Permutation_app_head, IH, H.
Qed.

Lemma members_set_none {V : Type} (o : Record (list V)) (k : string) (u : V) :
  get o k = None -> flat_map snd (set o k [u]) = flat_map snd o ++ [u].
Proof.
  induction o as [|[k' v'] o IH]; cbn [get set]; [reflexivity|].
  destruct (k' =? k)%string; [discriminate|].
  intros H. cbn [flat_map snd]. now rewrite IH, app_assoc.
Qed.

Lemma groupInto_members (keyOf : UseCase -> string) (ucs : list UseCase)
    (groups0 groups : Record (list UseCase)) :
  groupInto keyOf ucs groups0 = Some groups ->
  Permutation (flat_map snd groups) (flat_map snd groups0 ++ ucs).
Proof.
  revert groups0. induction ucs as [|uc ucs IH]; intros groups0; cbn [groupInto].
  - intros [= <-]. now rewrite app_nil_r.
  - destruct (get groups0 (keyOf uc)) as [ms|] eqn:G.
    + intros H. eapply perm_trans; [apply (IH _ H)|].
      change (uc :: ucs) with ([uc] ++ ucs). rewrite app_assoc.
      apply Permutation_app_tail, members_set_some, G.
    + destruct (inherited (keyOf uc)); [discriminate|].
      intros H. eapply perm_trans; [apply (IH _ H)|].
      rewrite (members_set_none _ _ _ G), <- app_assoc. reflexivity.
Qed.

(** ** When the grouping loop raises *)

Lemma groupInto_raises (keyOf : UseCase -> string) (ucs : list UseCase)
    (groups0 : Record (list UseCase)) :
  (forall k, In k (map fst groups0) -> inherited k = false) ->
  groupInto keyOf ucs groups0 = None <-> existsb (fun uc => inherited (keyOf uc)) ucs = true.
Proof.
  revert groups0. induction ucs as [|uc ucs IH]; intros groups0 Hown; cbn [groupInto existsb].
  - split; discriminate.
  - destruct (get groups0 (keyOf uc)) as [ms|] eqn:G.
    + assert (Hk : inherited (keyOf uc) = false).
      { apply Hown. destruct (in_dec string_dec (keyOf uc) (map fst groups0)) as [X|X];
          [exact X|]. apply get_None_not_In in X. congruence. }
      rewrite Hk. cbn [orb]. apply IH. intros k. rewrite keys_set, G. apply Hown.
    + destruct (inherited (keyOf uc)) eqn:Hk; [split; reflexivity|].
      cbn [orb]. apply IH. intros k. rewrite keys_set, G, in_app_iff.
      intros [H|[<-|[]]]; [now apply Hown | exact Hk].
Qed.

Lemma mapM_None {A B : Type} (f : A -> option B) (l : list A) :
  mapM f l = None <-> exists x, In x l /\ f x = None.
Proof.
  induction l as [|x l IH]; cbn [mapM].
  - split; [discriminate | intros [x [[] _]]].
  - destruct (f x) as [y|] eqn:Fx.
    + destruct (mapM f l) as [ys|].
      * split; [discriminate|]. intros [x' [[<-|Hx'] Fx']]; [congruence|].
        assert (Some ys = None) as H by (apply IH; now exists x'). discriminate.
      * split; [|reflexivity]. intros _. destruct (proj1 IH eq_refl) as [x' [Hx' Fx']].
        exists x'. split; [now right | exact Fx'].
    + split; [|reflexivity]. intros _. exists x. split; [now left | exact Fx].
Qed.

Lemma existsb_filter {A : Type} (p q : A -> bool) (l : list A) :
  existsb p (filter q l) = existsb (fun x => q x && p x) l.
Proof.
  induction l as [|x l IH]; [reflexivity|]. cbn [filter existsb].
  destruct (q x); cbn [existsb andb orb]; now rewrite IH.
Qed.

(** ** Filters over disjoint keys *)

Lemma filter_disjoint {A : Type} (p q : A -> bool) (l : list A) :
  (forall x, p x = true -> q x = true -> False) ->
  Permutation (filter p l ++ filter q l) (filter (fun x => p x || q x) l).
Proof.
  intros D. induction l as [|x l IH]; [constructor|]. cbn [filter].
  destruct (p x) eqn:P, (q x) eqn:Q; cbn [orb app].
  - destruct (D x P Q).
  - now constructor.
  - eapply perm_trans; [apply Permutation_sym, Permutation_middle|]. now constructor.
  - exact IH.
Qed.

Lemma filter_by_keys {A : Type} (holds : string -> A -> bool) (ks : list string)
    (l : list A) :
  (forall k k' x, holds k x = true -> holds k' x = true -> k = k') ->
  NoDup ks ->
  Permutation (flat_map (fun k => filter (holds k) l) ks)
              (filter (fun x => existsb (fun k => holds k x) ks) l).
Proof.
  intros D. induction 1 as [|k ks Hk Hnd IH]; cbn [flat_map existsb].
  - induction l as [|x l IHl]; [constructor | exact IHl].
  - eapply perm_trans; [apply Permutation_app_head, IH|].
    apply filter_disjoint. intros x Hx Hex. apply existsb_exists in Hex.
    destruct Hex as [k' [Hk' Hx']]. apply Hk. now rewrite (D k k' x Hx Hx').
Qed.

(** ** The results page *)

Lemma roadmapPhase_members (allUseCases : list UseCase) (ph : Phase) (p : PhaseGroup) :
  roadmapPhase allUseCases ph = Some p ->
  Permutation (flat_map snd (groups p)) (filter (inPhase (key ph)) allUseCases)
  /\ total p = List.length (filter (inPhase (key ph)) allUseCases).
Proof.
  unfold roadmapPhase.
  destruct (groupInto subKey (filter (inPhase (key ph)) allUseCases) empty) as [g|] eqn:G;
    [|discriminate].
  intros [= <-]. cbn [groups total]. split; [|reflexivity].
  eapply perm_trans; [apply Permutation_flat_map, Array_sort_perm|].
  eapply perm_trans; [apply Permutation_flat_map, Object_entries_perm|].
  exact (groupInto_members _ _ _ _ G).
Qed.

Lemma roadmap_members (allUseCases : list UseCase) (l : list Phase) (ps : list PhaseGroup) :
  mapM (roadmapPhase allUseCases) l = Some ps ->
  Permutation
    (flat_map (fun p => flat_map snd (groups p)) (filter (fun p => (0 <? total p)%nat) ps))
    (flat_map (fun k => filter (inPhase k) allUseCases) (map key l)).
Proof.
  revert ps. induction l as [|ph l IH]; intros ps; cbn [mapM map flat_map].
  - intros [= <-]. constructor.
  - destruct (roadmapPhase allUseCases ph) as [p|] eqn:P; [|discriminate].
    destruct (mapM (roadmapPhase allUseCases) l) as [ps'|]; [|discriminate].
    intros [= <-]. destruct (roadmapPhase_members _ _ _ P) as [Hm Ht].
    cbn [filter]. destruct (0 <? total p)%nat eqn:E.
    + cbn [flat_map]. apply Permutation_app; [exact Hm | now apply IH].
    + apply Nat.ltb_ge in E.
      destruct (filter (inPhase (key ph)) allUseCases) as [|u us];
        [|cbn [List.length] in Ht; lia].
      cbn [app]. now apply IH.
Qed.

Lemma inPhase_one (k k' : string) (uc : UseCase) :
  inPhase k uc = true -> inPhase k' uc = true -> k = k'.
Proof.
  unfold inPhase. destruct (engagement_category uc) as [c|]; [|discriminate].
  intros H H'. apply String.eqb_eq in H. apply String.eqb_eq in H'. congruence.
Qed.

(** Whenever the roadmap of the results page completes, the use cases it
    shows are, each as often as the result list holds it, the use cases of
    the list whose [engagement_category] is A, B or C, and no other; the
    count of a phase is the number of use cases shown under it. *)
Theorem roadmap_conserves (allUseCases : list UseCase) (r : list PhaseGroup) :
  roadmap allUseCases = Some r ->
  Permutation (flat_map (fun p => flat_map snd (groups p)) r)
              (filter Notions.phased allUseCases)
  /\ (forall uc, In uc (flat_map (fun p => flat_map snd (groups p)) r)
                 <-> In uc allUseCases /\ Notions.phased uc = true)
  /\ (forall p, In p r -> total p = List.length (flat_map snd (groups p))).
Proof.
  unfold roadmap. destruct (mapM (roadmapPhase allUseCases) phases) as [ps|] eqn:M;
    [|discriminate].
  intros [= <-].
  assert (HP : Permutation
                 (flat_map (fun p => flat_map snd (groups p))
                           (filter (fun p => (0 <? total p)%nat) ps))
                 (filter Notions.phased allUseCases)).
  { eapply perm_trans; [exact (roadmap_members _ _ _ M)|].
    apply (filter_by_keys inPhase (map key phases) allUseCases inPhase_one).
    cbn. repeat constructor; cbn; intuition discriminate. }
  split; [exact HP|]. split.
  - intros uc. rewrite <- filter_In. split; apply Permutation_in;
      [exact HP | apply Permutation_sym, HP].
  - intros p Hp. apply filter_In in Hp. destruct Hp as [Hp _].
    destruct (mapM_In _ _ _ _ M Hp) as [ph [_ Hph]].
    destruct (roadmapPhase_members _ _ _ Hph) as [Hm Ht].
    rewrite Ht. symmetry. apply Permutation_length, Hm.
Qed.

Lemma roadmap_conserves_witness :
  Permutation
    (flat_map (fun p => flat_map snd (groups p))
       [ {| phase := {| key := "A"; label := "Phase 1: Quick Wins" |};
            groups := [("Data", [O3; O5]); ("Security", [O4])];
            total := 3 |} ])
    (filter Notions.phased [O3; O4; O5]).
Proof.
  apply (roadmap_conserves [O3; O4; O5]). reflexivity.
Defined.

(** Building the roadmap of the results page raises exactly when a use
    case of phase A, B or C has a sub-category that names a member every
    object inherits, such as "constructor"; use cases outside the three
    phases are not grouped and cannot make it raise. *)
Theorem roadmap_raises_iff (allUseCases : list UseCase) :
  roadmap allUseCases = None
  <-> exists uc, In uc allUseCases /\ Notions.phased uc = true
                 /\ inherited (subKey uc) = true.
Proof.
  assert (Hph : forall ph, roadmapPhase allUseCases ph = None
                 <-> existsb (fun uc => inPhase (key ph) uc && inherited (subKey uc))
                             allUseCases = true).
  { intros ph. unfold roadmapPhase. rewrite <- existsb_filter.
    rewrite <- (groupInto_raises subKey _ empty) by (intros k []).
    now destruct (groupInto subKey (filter (inPhase (key ph)) allUseCases) empty). }
  unfold roadmap. split.
  - destruct (mapM (roadmapPhase allUseCases) phases) as [ps|] eqn:M; [discriminate|].
    intros _. apply mapM_None in M. destruct M as [ph [Hin Hn]].
    apply Hph, existsb_exists in Hn. destruct Hn as [uc [Huc E]].
    apply andb_prop in E. destruct E as [E1 E2].
    exists uc. split; [exact Huc|]. split; [|exact E2].
    unfold Notions.phased. apply existsb_exists. now exists ph.
  - intros [uc [Huc [Hp Hi]]]. unfold Notions.phased in Hp. apply existsb_exists in Hp.
    destruct Hp as [ph [Hin Hp]].
    assert (M : mapM (roadmapPhase allUseCases) phases = None).
    { apply mapM_None. exists ph. split; [exact Hin|]. apply Hph, existsb_exists.
      exists uc. split; [exact Huc|]. now rewrite Hp, Hi. }
    now rewrite M.
Qed.


(** ** The notification e-mail *)

Lemma lines_of_blocks (D : Z) (es : list (string * list UseCase)) :
  flat_map (fun g : string * list EmailLine => map line_uc (snd g))
           (map (fun g => (fst g, emailLines D (snd g))) es)
  = flat_map snd es.
Proof.
  induction es as [|e es IH]; [reflexivity|]. cbn [map flat_map snd].
  now rewrite map_line_uc_emailLines, IH.
Qed.

Lemma email_members (D : Z) (useCases : list UseCase) (grouped : Record (list UseCase))
    (l : list string) (blocks : list (list (string * list (string * list EmailLine)))) :
  groupInto phaseKeyOf useCases empty = Some grouped ->
  mapM (emailPhase D grouped) l = Some blocks ->
  Permutation
    (flat_map (fun b => flat_map (fun g : string * list EmailLine => map line_uc (snd g))
                                 (snd b))
              (List.concat blocks))
    (flat_map (fun k => filter (fun uc => (phaseKeyOf uc =? k)%string) useCases) l).
Proof.
  intros G. revert blocks. induction l as [|k l IH]; intros blocks; cbn [mapM flat_map].
  - intros [= <-]. constructor.
  - destruct (emailPhase D grouped k) as [block|] eqn:P; [|discriminate].
    destruct (mapM (emailPhase D grouped) l) as [blocks'|]; [|discriminate].
    intros [= <-]. cbn [List.concat]. rewrite flat_map_app.
    apply Permutation_app; [|now apply IH].
    fold (membersOf phaseKeyOf k useCases).
    destruct (emailPhase_spec _ _ _ _ _ G P) as [[-> ->]|[Hne [sg [Hsg ->]]]];
      [constructor|].
    cbn [flat_map snd]. rewrite app_nil_r, lines_of_blocks.
    eapply perm_trans; [apply Permutation_flat_map, Object_entries_perm|].
    exact (groupInto_members _ _ _ _ Hsg).
Qed.

Lemma emailLines_detail (D : Z) (subUCs : list UseCase) :
  Forall (fun line => line_detailed line = true) (firstn 3 (emailLines D subUCs))
  /\ Forall (fun line => line_detailed line = false) (skipn 3 (emailLines D subUCs)).
Proof.
  unfold emailLines. destruct subUCs as [|a [|b [|c l]]];
    cbn [firstn skipn map app]; split; repeat constructor.
  apply Forall_forall. intros line Hl. apply in_map_iff in Hl.
  now destruct Hl as [uc [<- _]].
Qed.

(** Whenever the roadmap of the e-mail completes, the use cases it lists
    are, each as often as the result list holds it, the use cases whose
    phase, B when unset, is A, B or C; in every sub-category block the
    first three entries are rendered in detail and the others compactly;
    the count in the header of the e-mail is the length of the result
    list, also when use cases of another phase are not listed. *)
Theorem email_conserves (useCases : list UseCase)
    (r : list (string * list (string * list EmailLine))) :
  buildEmailHtml useCases = Some r ->
  Permutation
    (flat_map (fun b => flat_map (fun g : string * list EmailLine => map line_uc (snd g))
                                 (snd b)) r)
    (filter Notions.emailPhased useCases)
  /\ (forall ph gs sub lines,
        In (ph, gs) r -> In (sub, lines) gs ->
        Forall (fun line => line_detailed line = true) (firstn 3 lines)
        /\ Forall (fun line => line_detailed line = false) (skipn 3 lines))
  /\ (forall capturedResponses email,
        Edge.buildEmail useCases capturedResponses = Some email ->
        Edge.roadmapBlocks email = r
        /\ Edge.useCaseCount email = List.length useCases).
Proof.
  intros Hr. split; [|split].
  - unfold buildEmailHtml in Hr.
    destruct (groupInto phaseKeyOf useCases empty) as [grouped|] eqn:G; [|discriminate].
    destruct (mapM _ phaseOrder) as [blocks|] eqn:M; [|discriminate].
    injection Hr as <-.
    eapply perm_trans; [exact (email_members _ _ _ _ _ G M)|].
    apply (filter_by_keys (fun k uc => (phaseKeyOf uc =? k)%string) phaseOrder useCases).
    + intros k k' uc H H'. apply String.eqb_eq in H. apply String.eqb_eq in H'. congruence.
    + cbn. repeat constructor; cbn; intuition discriminate.
  - intros ph gs sub lines Hb Hg.
    destruct (email_blocks _ _ _ _ Hr Hb) as [Hmem _].
    apply Hmem in Hg. destruct Hg as [-> _]. apply emailLines_detail.
  - intros crs email. unfold Edge.buildEmail. rewrite Hr.
    destruct (Edge.groupBySection crs empty); [|discriminate].
    intros [= <-]. now split.
Qed.

Lemma email_conserves_witness :
  Permutation
    (flat_map (fun b => flat_map (fun g : string * list EmailLine => map line_uc (snd g))
                                 (snd b))
       (match buildEmailHtml [O3; O4; O5] with Some r => r | None => [] end))
    (filter Notions.emailPhased [O3; O4; O5]).
Proof.
  apply (email_conserves [O3; O4; O5]). vm_compute. reflexivity.
Defined.

End RenderSpec.

(* ================================================================== *)
(** * The responses of the edge function *)
(* ================================================================== *)

Module EdgeSpec.
Import JS JSFacts Catalog Roadmap RoadmapSpec Edge.

Lemma emailPhase_raises (D : Z) (useCases : list UseCase)
    (grouped : Record (list UseCase)) (k : string) :
  groupInto phaseKeyOf useCases empty = Some grouped ->
  emailPhase D grouped k = None
  <-> exists uc, In uc useCases /\ phaseKeyOf uc = k /\ inherited (subKey uc) = true.
Proof.
  intros G. unfold emailPhase. rewrite (get_groupInto _ _ _ _ k G). cbn [get empty app].
  assert (Hm : forall uc, In uc (membersOf phaseKeyOf k useCases)
                          <-> In uc useCases /\ phaseKeyOf uc = k).
  { intros uc. unfold membersOf. rewrite filter_In. now rewrite String.eqb_eq. }
  destruct (membersOf phaseKeyOf k useCases) as [|u l] eqn:E.
  - split; [discriminate|]. intros [uc [Huc [Hk _]]].
    destruct (proj2 (Hm uc) (conj Huc Hk)).
  - pose proof (RenderSpec.groupInto_raises subKey (u :: l) empty) as R.
    rewrite existsb_exists in R.
    destruct (groupInto subKey (u :: l) empty) as [sg|].
    + split; [discriminate|]. intros [uc [Huc [Hk Hi]]].
      assert (@Some (Record (list UseCase)) sg = None) as X; [|discriminate].
      apply R; [intros k' []|]. exists uc. split; [|exact Hi]. apply Hm. now split.
    + split; [|reflexivity]. intros _.
      destruct (proj1 (R (fun k' (H : In k' []) => match H with end)) eq_refl)
        as [uc [Huc Hi]].
      apply Hm in Huc. destruct Huc as [Huc Hk]. now exists uc.
Qed.

Lemma buildEmailHtml_raises (useCases : list UseCase) :
  buildEmailHtml useCases = None
  <-> exists uc, In uc useCases
        /\ (inherited (phaseKeyOf uc) = true
            \/ (Notions.emailPhased uc = true /\ inherited (subKey uc) = true)).
Proof.
  unfold buildEmailHtml.
  pose proof (RenderSpec.groupInto_raises phaseKeyOf useCases empty
                (fun k (H : In k []) => match H with end)) as R.
  rewrite existsb_exists in R.
  destruct (groupInto phaseKeyOf useCases empty) as [grouped|] eqn:G.
  - assert (Hno : forall uc, In uc useCases -> inherited (phaseKeyOf uc) = false).
    { intros uc Huc. destruct (inherited (phaseKeyOf uc)) eqn:E; [|reflexivity].
      assert (Some grouped = None) as X by (apply R; now exists uc). discriminate. }
    pose proof (RenderSpec.mapM_None (emailPhase (emailMaxScore useCases) grouped) phaseOrder)
      as M.
    destruct (mapM _ phaseOrder) as [blocks|].
    + split; [discriminate|]. intros [uc [Huc [Hi|[Hp Hi]]]].
      * rewrite (Hno uc Huc) in Hi. discriminate.
      * assert (Some blocks = None) as X; [|discriminate].
        apply M. exists (phaseKeyOf uc). split.
        -- unfold Notions.emailPhased in Hp. now apply existsb_eqb_In in Hp.
        -- apply (emailPhase_raises _ _ _ _ G). now exists uc.
    + split; [|reflexivity]. intros _. destruct (proj1 M eq_refl) as [k [Hk Hn]].
      apply (emailPhase_raises _ _ _ _ G) in Hn. destruct Hn as [uc [Huc [Ek Hi]]].
      exists uc. split; [exact Huc|]. right. split; [|exact Hi].
      unfold Notions.emailPhased. apply existsb_eqb_In. now rewrite Ek.
  - split; [|reflexivity]. intros _. destruct (proj1 R eq_refl) as [uc [Huc Hi]].
    exists uc. split; [exact Huc | now left].
Qed.

Lemma groupBySection_raises (crs : list CapturedResponse)
    (bySection : Record (list CapturedResponse)) :
  (forall k, In k (map fst bySection) -> inherited k = false) ->
  groupBySection crs bySection = None
  <-> exists cr, In cr crs /\ inherited (sectionTitle cr) = true.
Proof.
  revert bySection. induction crs as [|cr crs IH]; intros o Hown; cbn [groupBySection].
  - split; [discriminate | intros [cr [[] _]]].
  - assert (Hstep : forall v, get o (sectionTitle cr) = None ->
               inherited (sectionTitle cr) = false ->
               forall k, In k (map fst (set o (sectionTitle cr) v)) -> inherited k = false).
    { intros v G Hk k. rewrite keys_set, G, in_app_iff.
      intros [H|[<-|[]]]; [now apply Hown | exact Hk]. }
    destruct (get o (sectionTitle cr)) as [ms|] eqn:G.
    + assert (Hk : inherited (sectionTitle cr) = false).
      { apply Hown. destruct (in_dec string_dec (sectionTitle cr) (map fst o)) as [X|X];
          [exact X|]. apply get_None_not_In in X. congruence. }
      rewrite IH by (intros k; rewrite keys_set, G; apply Hown).
      split; intros [c [Hc Hi]]; exists c; (split; [|exact Hi]).
      * now right.
      * destruct Hc as [<-|Hc]; [congruence | exact Hc].
    + destruct (inherited (sectionTitle cr)) eqn:Hk.
      * split; [|reflexivity]. intros _. exists cr. split; [now left | exact Hk].
      * rewrite IH by (apply Hstep; reflexivity).
        split; intros [c [Hc Hi]]; exists c; (split; [|exact Hi]).
        -- now right.
        -- destruct Hc as [<-|Hc]; [congruence | exact Hc].
Qed.

Lemma buildEmail_None (useCases : list UseCase) (capturedResponses : list CapturedResponse) :
  buildEmail useCases capturedResponses = None
  <-> (exists uc, In uc useCases
         /\ (inherited (phaseKeyOf uc) = true
             \/ (Notions.emailPhased uc = true /\ inherited (subKey uc) = true)))
      \/ (exists cr, In cr capturedResponses /\ inherited (sectionTitle cr) = true).
Proof.
  unfold buildEmail. rewrite <- buildEmailHtml_raises.
  rewrite <- (groupBySection_raises capturedResponses empty) by (intros k []).
  destruct (buildEmailHtml useCases) as [blocks|].
  - destruct (groupBySection capturedResponses empty) as [o|].
    + split; [discriminate | intros [H|H]; discriminate].
    + split; [now right | reflexivity].
  - split; [now left | reflexivity].
Qed.

Lemma emailBuildable_false (useCases : list UseCase)
    (capturedResponses : list CapturedResponse) :
  Notions.emailBuildable useCases capturedResponses = false
  <-> buildEmail useCases capturedResponses = None.
Proof.
  rewrite buildEmail_None. unfold Notions.emailBuildable.
  rewrite andb_false_iff. split.
  - intros [H|H].
    + left. destruct (forallb _ useCases) eqn:F in H; [discriminate|].
      clear H. induction useCases as [|uc l IH]; [discriminate|].
      cbn [forallb] in F. apply andb_false_iff in F. destruct F as [F|F].
      * exists uc. split; [now left|].
        destruct (inherited (phaseKeyOf uc)); [now left|]. right.
        destruct (Notions.emailPhased uc), (inherited (subKey uc)); try discriminate.
        now split.
      * destruct (IH F) as [u [Hu Hx]]. exists u. split; [now right | exact Hx].
    + right. induction capturedResponses as [|cr l IH]; [discriminate|].
      cbn [forallb] in H. apply andb_false_iff in H. destruct H as [H|H].
      * exists cr. split; [now left|]. now destruct (inherited (sectionTitle cr)).
      * destruct (IH H) as [c [Hc Hx]]. exists c. split; [now right | exact Hx].
  - intros [[uc [Huc Hx]]|[cr [Hcr Hx]]].
    + left. destruct (forallb _ useCases) eqn:F; [|reflexivity].
      rewrite forallb_forall in F. specialize (F uc Huc).
      destruct Hx as [Hx|[Hp Hx]]; rewrite ?Hp, Hx in F; [discriminate|].
      now destruct (inherited (phaseKeyOf uc)).
    + right. destruct (forallb _ capturedResponses) eqn:F; [|reflexivity].
      rewrite forallb_forall in F. specialize (F cr Hcr). now rewrite Hx in F.
Qed.

(** Building the e-mail raises exactly when a recommended use case has a
    phase that names a member every object inherits, or has phase A, B
    (also by default) or C and a sub-category that names one, or when an
    answered question lies in a section whose title names one. *)
Theorem buildEmail_raises_iff (useCases : list UseCase)
    (capturedResponses : list CapturedResponse) :
  (buildEmail useCases capturedResponses = None
   <-> (exists uc, In uc useCases
          /\ (inherited (phaseKeyOf uc) = true
              \/ (Notions.emailPhased uc = true /\ inherited (subKey uc) = true)))
       \/ (exists cr, In cr capturedResponses /\ inherited (sectionTitle cr) = true))
  /\ (buildEmail useCases capturedResponses = None
      <-> Notions.emailBuildable useCases capturedResponses = false).
Proof.
  split; [apply buildEmail_None | symmetry; apply emailBuildable_false].
Qed.

Lemma recommend_threshold (db : Db) (rs : list JoinedResponse) (uc : UseCase) :
  In uc (recommend db rs) -> Scoring.MIN_SCORE <= score uc.
Proof.
  unfold recommend. destruct (Scoring.sortedIds _ _); [intros []|].
  destruct (use_cases db) as [table|]; [|intros []].
  intros H. apply ScoringFacts.In_recommendedUseCases in H. destruct H as [Hid Hs].
  apply ScoringFacts.In_sortedIds in Hid. destruct Hid as [sc [Hs' Hmin]]. congruence.
Qed.

(** Whatever the mail service does, [serve] answers 200 exactly to a
    preflight request and to a request that names a submission that is
    found and whose responses are fetched, provided that the notification
    is not configured or the e-mail can be built; when the e-mail cannot
    be built the computed recommendation is lost and the answer is 500.
    Every answer is 200, 400, 404 or 500; an e-mail is handed over only
    with an answer of 200; a successful body holds the recommendation
    computed from the fetched responses, every use case of it with a
    score of at least the threshold, and one captured response per
    fetched response. *)
Theorem serve_status (req : Request) (env : Env) (db : Db) (send : SendOutcome) :
  (status (fst (serve req env db send)) = 200
   <-> method req = "OPTIONS"
       \/ exists submission_id found rs,
            json req = Some (Some submission_id) /\ submission_id <> ""
            /\ submission db = Some found /\ responses db = Some rs
            /\ (truthy (RESEND_API_KEY env) && truthy (ADMIN_EMAIL_ADDRESS env) = false
                \/ Notions.emailBuildable (recommend db rs) (map capture rs) = true))
  /\ In (status (fst (serve req env db send))) [200; 400; 404; 500]
  /\ (forall email, snd (serve req env db send) = Some email ->
        status (fst (serve req env db send)) = 200
        /\ truthy (RESEND_API_KEY env) && truthy (ADMIN_EMAIL_ADDRESS env) = true)
  /\ (forall ucs crs,
        body (fst (serve req env db send)) = Success ucs crs ->
        exists rs, responses db = Some rs /\ ucs = recommend db rs /\ crs = map capture rs
                   /\ List.length crs = List.length rs
                   /\ forall uc, In uc ucs -> Scoring.MIN_SCORE <= score uc)
  /\ (forall submission_id found rs,
        method req <> "OPTIONS" ->
        json req = Some (Some submission_id) -> submission_id <> "" ->
        submission db = Some found -> responses db = Some rs ->
        truthy (RESEND_API_KEY env) && truthy (ADMIN_EMAIL_ADDRESS env) = true ->
        Notions.emailBuildable (recommend db rs) (map capture rs) = false ->
        serve req env db send
        = ({| status := 500; body := Error "Internal server error" |}, None)).
Proof.
  unfold serve.
  destruct (String.eqb_spec (method req) "OPTIONS") as [Em|Em].
  { cbn [fst snd status body]. split; [tauto|]. split; [cbn; tauto|].
    split; [discriminate|]. split; [discriminate|]. intros; contradiction. }
  destruct (json req) as [[sid|]|] eqn:Ej; cbn [truthy negb].
  2:{ cbn [fst snd status body]. split.
      { split; [discriminate|]. intros [H|[s [f [rs [H _]]]]]; [contradiction | discriminate]. }
      split; [cbn; tauto|]. split; [discriminate|]. split; [discriminate|].
      intros; discriminate. }
  2:{ cbn [fst snd status body]. split.
      { split; [discriminate|]. intros [H|[s [f [rs [H _]]]]]; [contradiction | discriminate]. }
      split; [cbn; tauto|]. split; [discriminate|]. split; [discriminate|].
      intros; discriminate. }
  destruct (String.eqb_spec sid "") as [Es|Es]; cbn [negb].
  { cbn [fst snd status body]. split.
    { split; [discriminate|].
      intros [H|[s [f [rs [H [Hs _]]]]]]; [contradiction | congruence]. }
    split; [cbn; tauto|]. split; [discriminate|]. split; [discriminate|].
    intros; congruence. }
  destruct (submission db) as [found|] eqn:Esub.
  2:{ cbn [fst snd status body]. split.
      { split; [discriminate|].
        intros [H|[s [f [rs [_ [_ [H _]]]]]]]; [contradiction | discriminate]. }
      split; [cbn; tauto|]. split; [discriminate|]. split; [discriminate|].
      intros; discriminate. }
  destruct (responses db) as [rs|] eqn:Er.
  2:{ cbn [fst snd status body]. split.
      { split; [discriminate|].
        intros [H|[s [f [rs [_ [_ [_ [H _]]]]]]]]; [contradiction | discriminate]. }
      split; [cbn; tauto|]. split; [discriminate|]. split; [discriminate|].
      intros; discriminate. }
  cbv zeta.
  pose proof (emailBuildable_false (recommend db rs) (map capture rs)) as Hb.
  destruct (truthy (RESEND_API_KEY env) && truthy (ADMIN_EMAIL_ADDRESS env)) eqn:Ec.
  - destruct (buildEmail (recommend db rs) (map capture rs)) as [email|] eqn:Eb;
      cbn [fst snd status body].
    + assert (Hok : Notions.emailBuildable (recommend db rs) (map capture rs) = true).
      { destruct (Notions.emailBuildable _ _); [reflexivity|].
        assert (Some email = None) as X by now apply Hb. discriminate. }
      split. { split; [|reflexivity]. intros _. right. exists sid, found, rs. tauto. }
      split; [cbn; tauto|]. split; [now intros|]. split.
      * intros ucs crs [= <- <-]. exists rs. split; [reflexivity|]. split; [reflexivity|].
        split; [reflexivity|]. split; [apply length_map|]. apply recommend_threshold.
      * intros s f rs' _ _ _ _ [= <-] _ Hn. congruence.
    + assert (Hno : Notions.emailBuildable (recommend db rs) (map capture rs) = false)
        by now apply Hb.
      split.
      { split; [discriminate|].
        intros [H|[s [f [rs' [_ [_ [_ [[= <-] [H|H]]]]]]]]];
          [contradiction | discriminate | congruence]. }
      split; [cbn; tauto|]. split; [discriminate|]. split; [discriminate|]. reflexivity.
  - cbn [fst snd status body].
    split. { split; [|reflexivity]. intros _. right. exists sid, found, rs. tauto. }
    split; [cbn; tauto|]. split; [discriminate|]. split.
    + intros ucs crs [= <- <-]. exists rs. split; [reflexivity|]. split; [reflexivity|].
      split; [reflexivity|]. split; [apply length_map|]. apply recommend_threshold.
    + intros; discriminate.
Qed.

End EdgeSpec.

(* ================================================================== *)
(** * From the saved responses to the scores *)
(* ================================================================== *)

Module SubmissionSpec.
Import JS JSFacts Scoring ScoringFacts Store.

Lemma select_after_delete (responses : list ResponseRow) (sid q : string) :
  selectResponses (deleteResponse responses sid q Applied) sid
  = filter (fun r => negb (Scoring.question_id r =? q)%string) (selectResponses responses sid).
Proof.
  unfold deleteResponse, selectResponses.
  induction responses as [|r l IH]; [reflexivity|]. cbn [filter]. unfold sameKey at 1.
  destruct (submission_id r =? sid)%string eqn:Es; cbn [andb negb filter map].
  - destruct (question_id r =? q)%string eqn:Eq; cbn [negb filter map Scoring.question_id];
      rewrite ?Es, ?Eq; cbn [negb map]; now rewrite IH.
  - rewrite Es. exact IH.
Qed.

(** What the scoring reads for a submission after a save that returned:
    the saved response and, when the delete took effect, the rows of the
    other questions, whether or not these questions are still visible;
    when the delete was refused, every row that was there, the earlier
    answers to the saved question among them.  The score of an offering
    is what those rows give it plus what the values of the saved answer
    give it, so that an answer whose delete was refused keeps counting. *)
Theorem score_after_save (responses : list ResponseRow) (sid q : string)
    (a : Questionnaire.AnswerValue) (delete : Reply)
    (decision_matrix : list MatrixRow) (i : string) :
  Permutation
    (selectResponses (table (saveResponse responses sid q a delete Applied)) sid)
    ({| Scoring.question_id := q; Scoring.answer := a |}
     :: selectResponses (deleteResponse responses sid q delete) sid)
  /\ selectResponses (deleteResponse responses sid q Applied) sid
     = filter (fun r => negb (Scoring.question_id r =? q)%string)
              (selectResponses responses sid)
  /\ selectResponses (deleteResponse responses sid q Refused) sid
     = selectResponses responses sid
  /\ scoreIn (useCaseScores
                (selectResponses (table (saveResponse responses sid q a delete Applied)) sid)
                decision_matrix) i
     = scoreIn (useCaseScores (selectResponses (deleteResponse responses sid q delete) sid)
                              decision_matrix) i
       + sumZ (map (fun v => creditOfPair weightOrOne decision_matrix i (q, v))
                   (answersToCheck a)).
Proof.
  assert (Hsel : selectResponses (table (saveResponse responses sid q a delete Applied)) sid
                 = selectResponses (deleteResponse responses sid q delete) sid
                   ++ [ {| Scoring.question_id := q; Scoring.answer := a |} ]).
  { unfold saveResponse. cbn [table]. unfold selectResponses.
    rewrite filter_app, map_app. cbn [filter submission_id].
    rewrite String.eqb_refl. reflexivity. }
  split; [rewrite Hsel; apply Permutation_sym, Permutation_cons_append|].
  split; [apply select_after_delete|]. split; [reflexivity|].
  rewrite Hsel. unfold useCaseScores. rewrite !scoreIn_as_pairs.
  unfold pairs. rewrite flat_map_app, map_app, sumZ_app. f_equal.
  cbn [flat_map Scoring.question_id Scoring.answer]. now rewrite app_nil_r, map_map.
Qed.

End SubmissionSpec.
